(** * Codex CLI agent turn engine: a shallow embedding and its properties

  The development follows three source files:
  - [approvals.ts]   (the safety classifier), module [Approvals];
  - [raw-exec.ts]    (the raw executor),      module [RawExec];
  - [agent-loop.ts]  (the turn engine),       module [AgentLoop].

  Around them: the body of [run()] (module [Run]), the executor front
  end [exec.ts] (module [Exec]), the command history (module [History])
  and the key handler of the text input (module [TextInput]), with the
  regular expressions they use (module [Regex]).

  JavaScript strings are [string]; arrays are [list]; [undefined] and
  [null] are [None]; numbers that the code only uses as integers are [Z],
  and the delays of the retry loop are doubles (module [JsNumber]).
  Library functions the sources import (shell-quote, node:path, the patch
  engine, the model client) are section variables. *)

From Stdlib Require Import List String Ascii Bool ZArith Lia.
From Stdlib Require Import DecimalString Btauto Permutation SpecFloat.
Import ListNotations.
Open Scope string_scope.
Open Scope list_scope.

Set Implicit Arguments.

(** ** JavaScript string helpers shared by the three modules *)

Module Js.

(** [s.startsWith(p)]. *)
Definition startsWith (p s : string) : bool := String.prefix p s.

(** [s.slice(n)] for [0 <= n]. *)
Fixpoint slice (n : nat) (s : string) : string :=
  match n, s with
  | O, _ => s
  | S n', String _ s' => slice n' s'
  | S _, EmptyString => EmptyString
  end.

(** [\d] of a JavaScript regular expression: the ten ASCII digits. *)
Definition isDigit (c : ascii) : bool :=
  let n := nat_of_ascii c in (48 <=? n)%nat && (n <=? 57)%nat.

(** ASCII lower-casing, the canonicalisation an [/i] regular expression
    applies to the ASCII letters of a pattern without the [u] flag. *)
Definition lower (c : ascii) : ascii :=
  let n := nat_of_ascii c in
  if (65 <=? n)%nat && (n <=? 90)%nat then ascii_of_nat (n + 32) else c.

Definition eqb_ci (a b : ascii) : bool := Ascii.eqb (lower a) (lower b).

(** Does [s] start with [p], letters compared case-insensitively? *)
Fixpoint prefix_ci (p s : string) : bool :=
  match p, s with
  | EmptyString, _ => true
  | String a p', String b s' => eqb_ci a b && prefix_ci p' s'
  | String _ _, EmptyString => false
  end.

(** [/p/i.test(s)] for a pattern [p] that is a plain literal. *)
Fixpoint test_ci (p s : string) : bool :=
  prefix_ci p s ||
  match s with
  | EmptyString => false
  | String _ s' => test_ci p s'
  end.

(** [s.includes(p)]. *)
Fixpoint includes (p s : string) : bool :=
  String.prefix p s ||
  match s with
  | EmptyString => false
  | String _ s' => includes p s'
  end.

(** The longest run of digits at the head of [s], and what follows it. *)
Fixpoint spanDigits (s : string) : string * string :=
  match s with
  | String c s' =>
      if isDigit c then let (d, r) := spanDigits s' in (String c d, r)
      else (EmptyString, s)
  | EmptyString => (EmptyString, EmptyString)
  end.

Definition isSome {A} (o : option A) : bool :=
  match o with Some _ => true | None => false end.

End Js.

(** ** JavaScript numbers *)

(** A JavaScript number is an IEEE 754 double: a [spec_float] of the
    Standard Library, with a mantissa of 53 bits and the arithmetic that
    rounds to the nearest double, ties to the even mantissa. *)
Module JsNumber.

Definition t : Type := spec_float.

Definition prec : Z := 53.
Definition emax : Z := 1024.

Definition NaN : t := S754_nan.

Definition isNaN (x : t) : bool :=
  match x with S754_nan => true | _ => false end.

(** The number for the value [m * 2^e]: the nearest double, and
    [Infinity] past the largest one. *)
Definition ofBinary (m e : Z) : t := binary_normalize prec emax m e false.

(** The number for an integer. *)
Definition ofInteger (n : Z) : t := ofBinary n 0.

(** The number for the decimal [m / 10^k], [0 <= m]: the quotient of the
    two integers, rounded once. *)
Definition ofDecimal (m : Z) (k : nat) : t :=
  match m with
  | Zpos p =>
      SFdiv prec emax (S754_finite false p 0)
            (S754_finite false (Z.to_pos (10 ^ Z.of_nat k)) 0)
  | _ => S754_zero false
  end.

(** [x * y]. *)
Definition mul (x y : t) : t := SFmul prec emax x y.

(** [2 ** e] for an integer [e]. *)
Definition pow2 (e : Z) : t := ofBinary 1 e.

(** [x < y]. *)
Definition ltb (x y : t) : bool := SFltb x y.


(** [x] is finite and its value, [m * 2^e] with the sign, is the integer
    [n]. *)
Definition isInteger (x : t) (n : Z) : Prop :=
  match x with
  | S754_zero _ => n = 0%Z
  | S754_finite s m e =>
      ((if s then Zneg m else Zpos m) * 2 ^ Z.max e 0
       = n * 2 ^ Z.max (- e) 0)%Z
  | _ => False
  end.

End JsNumber.

(** ** The safety classifier ([approvals.ts]) *)

Module Approvals.

Record ApplyPatchCommand := { patch : string }.

Inductive SafetyAssessment :=
| AutoApprove (reason group : string) (runInSandbox : bool)
              (applyPatch : option ApplyPatchCommand)
| AskUser (applyPatch : option ApplyPatchCommand)
| Reject (reason : string).

Inductive ApprovalPolicy := Suggest | AutoEdit | FullAuto.

Record SafeCommandReason := { reason : string; group : string }.

(** A [ParseEntry] of shell-quote: a word, a control operator, a glob
    (which also carries an [op] field, the literal "glob") or a comment. *)
Inductive ParseEntry :=
| PString (s : string)
| POp (op : string)
| PGlob (pattern : string)
| PComment (comment : string).

(** A step of a regular expression: [\d+], greedy, then [k] on what
    follows.  Nothing [k] accepts here starts with a digit, so the greedy
    run is the only one that can lead to a match. *)
Definition digitsThen (k : string -> bool) (s : string) : bool :=
  match Js.spanDigits s with
  | (EmptyString, _) => false
  | (_, rest) => k rest
  end.

(** [arg != null && /^(\d+,)?\d+p$/.test(arg)]: digits, then either [p]
    and the end, or a comma, digits, [p] and the end. *)
Definition isValidSedNArg (arg : option string) : bool :=
  match arg with
  | None => false
  | Some s =>
      digitsThen
        (fun rest =>
           (rest =? "p")
           || match rest with
              | String c rest' =>
                  Ascii.eqb c ","%char
                  && digitsThen (fun last => last =? "p") rest'
              | EmptyString => false
              end)
        s
  end.

Definition mkReason (r g : string) : option SafeCommandReason :=
  Some {| reason := r; group := g |}.

(** [isSafeCommand]: the [switch] on [cmd0], then on [cmd1]. *)
Definition isSafeCommand (command : list string) : option SafeCommandReason :=
  let cmd0 := nth_error command 0 in
  let cmd1 := nth_error command 1 in
  let cmd2 := nth_error command 2 in
  let cmd3 := nth_error command 3 in
  match cmd0 with
  | None => None
  | Some c0 =>
      if c0 =? "cd" then mkReason "Change directory" "Navigating"
      else if c0 =? "ls" then mkReason "List directory" "Searching"
      else if c0 =? "pwd" then mkReason "Print working directory" "Navigating"
      else if c0 =? "true" then mkReason "No‑op (true)" "Utility"
      else if c0 =? "echo" then mkReason "Echo string" "Printing"
      else if c0 =? "cat" then mkReason "View file contents" "Reading files"
      else if c0 =? "rg" then mkReason "Ripgrep search" "Searching"
      else if c0 =? "find" then mkReason "Find files or directories" "Searching"
      else if c0 =? "grep" then mkReason "Text search (grep)" "Searching"
      else if c0 =? "head" then mkReason "Show file head" "Reading files"
      else if c0 =? "tail" then mkReason "Show file tail" "Reading files"
      else if c0 =? "wc" then mkReason "Word count" "Reading files"
      else if c0 =? "which" then mkReason "Locate command" "Searching"
      else if c0 =? "git" then
        match cmd1 with
        | None => None
        | Some c1 =>
            if c1 =? "status" then mkReason "Git status" "Versioning"
            else if c1 =? "branch" then mkReason "List Git branches" "Versioning"
            else if c1 =? "log" then mkReason "Git log" "Using git"
            else if c1 =? "diff" then mkReason "Git diff" "Using git"
            else if c1 =? "show" then mkReason "Git show" "Using git"
            else None
        end
      else if c0 =? "cargo" then
        match cmd1 with
        | Some c1 =>
            if c1 =? "check" then mkReason "Cargo check" "Running command"
            else None
        | None => None
        end
      else if c0 =? "sed" then
        if match cmd1 with Some c1 => c1 =? "-n" | None => false end
           && isValidSedNArg cmd2
           && Js.isSome cmd3
           && (List.length command =? 4)%nat
        then mkReason "Sed print subset" "Reading files"
        else None
      else None
  end.

(** [SAFE_SHELL_OPERATORS.has(op)]. *)
Definition SAFE_SHELL_OPERATORS : list string := ["&&"; "||"; "|"; ";"].

Definition SAFE_SHELL_OPERATORS_has (op : string) : bool :=
  existsb (String.eqb op) SAFE_SHELL_OPERATORS.

(** The closure [flushSegment] of [isEntireShellExpressionSafe]: it reads
    and writes [currentSegment] and [firstReason]; [None] is its [false],
    [Some] carries the two variables after a [true]. *)
Definition flushSegment (currentSegment : list string)
           (firstReason : option SafeCommandReason)
  : option (list string * option SafeCommandReason) :=
  match currentSegment with
  | [] => Some (currentSegment, firstReason)
  | _ :: _ =>
      match isSafeCommand currentSegment with
      | None => None
      | Some assessment =>
          Some ([], match firstReason with
                    | None => Some assessment
                    | Some _ => firstReason
                    end)
      end
  end.

Definition isGroupingToken (part : string) : bool :=
  (part =? "(") || (part =? ")") || (part =? "{") || (part =? "}").

(** The [for (const part of parts)] loop and the trailing flush. *)
Fixpoint walkParts (parts : list ParseEntry) (currentSegment : list string)
         (firstReason : option SafeCommandReason)
  : option SafeCommandReason :=
  match parts with
  | [] =>
      match flushSegment currentSegment firstReason with
      | None => None
      | Some (_, firstReason') => firstReason'
      end
  | PString part :: rest =>
      if isGroupingToken part then None
      else walkParts rest (currentSegment ++ [part]) firstReason
  | POp op :: rest =>
      match flushSegment currentSegment firstReason with
      | None => None
      | Some (seg, fr) =>
          if SAFE_SHELL_OPERATORS_has op then walkParts rest seg fr else None
      end
  | PGlob _ :: rest =>
      match flushSegment currentSegment firstReason with
      | None => None
      | Some (seg, fr) =>
          if SAFE_SHELL_OPERATORS_has "glob" then walkParts rest seg fr
          else None
      end
  | PComment _ :: _ => None
  end.

Definition isEntireShellExpressionSafe (parts : list ParseEntry)
  : option SafeCommandReason :=
  match parts with
  | [] => None
  | _ :: _ => walkParts parts [] None
  end.

Section Classifier.

(** [parse(script, env)] of shell-quote, for the [env] of the call; [None]
    when it throws. *)
Variable parse : string -> option (list ParseEntry).

(** [identify_files_needed] and [identify_files_added] of the patch engine
    ([utils/agent/apply-patch]). *)
Variable identify_files_needed : string -> list string.
Variable identify_files_added : string -> list string.

(** [path.resolve], [path.relative] and [path.isAbsolute] of node:path. *)
Variable path_resolve : string -> string.
Variable path_relative : string -> string -> string.
Variable path_isAbsolute : string -> bool.

(** The second group of the heredoc expression that [tryParseApplyPatch]
    matches against what follows the tool name: the lines between the
    line of the delimiter and the line that repeats it ([None] when there
    is no match); and [String.prototype.trim]. *)
Variable heredocBody : string -> option string.
Variable trim : string -> string.

Definition pathContains (parent child : string) : bool :=
  let relative := path_relative parent child in
  negb (relative =? "")
  && negb (Js.startsWith ".." relative)
  && negb (path_isAbsolute relative).

Definition isPathConstrainedTowritablePaths
           (candidatePath : string) (writableRoots : list string) : bool :=
  let candidateAbsolutePath := path_resolve candidatePath in
  existsb (fun writablePath => pathContains writablePath candidateAbsolutePath)
          writableRoots.

Definition allPathsConstrainedTowritablePaths
           (candidatePaths writableRoots : list string) : bool :=
  forallb (fun candidatePath =>
             isPathConstrainedTowritablePaths candidatePath writableRoots)
          candidatePaths.

Definition isWritePatchConstrainedToWritablePaths
           (applyPatchArg : string) (writableRoots : list string) : bool :=
  allPathsConstrainedTowritablePaths
    (identify_files_needed applyPatchArg) writableRoots
  && allPathsConstrainedTowritablePaths
       (identify_files_added applyPatchArg) writableRoots.

Definition canAutoApproveApplyPatch (applyPatchArg : string)
           (writableRoots : list string) (policy : ApprovalPolicy)
  : SafetyAssessment :=
  match policy with
  | Suggest => AskUser (Some {| patch := applyPatchArg |})
  | _ =>
      if isWritePatchConstrainedToWritablePaths applyPatchArg writableRoots
      then AutoApprove "apply_patch command is constrained to writable paths"
                       "Editing" false (Some {| patch := applyPatchArg |})
      else
        match policy with
        | FullAuto => AutoApprove "Full auto mode" "Editing" true
                                  (Some {| patch := applyPatchArg |})
        | _ => AskUser (Some {| patch := applyPatchArg |})
        end
  end.

Definition tryParseApplyPatch (bashArg : string) : option string :=
  let prefix := "apply_patch" in
  if negb (Js.startsWith prefix bashArg) then None
  else
    let heredoc := Js.slice (String.length prefix) bashArg in
    match heredocBody heredoc with
    | Some body => Some (trim body)
    | None => Some (trim heredoc)
    end.

(** The policy fallback, which the source writes out twice: in the [catch]
    of the parse and at the end of [canAutoApprove]. *)
Definition policyFallback (policy : ApprovalPolicy) : SafetyAssessment :=
  match policy with
  | FullAuto => AutoApprove "Full auto mode" "Running commands" true None
  | _ => AskUser None
  end.

Definition isBashLc (command : list string) : option string :=
  match command with
  | [c0; c1; c2] => if (c0 =? "bash") && (c1 =? "-lc") then Some c2 else None
  | _ => None
  end.

(** [canAutoApprove].  On a [ReadonlyArray<string>] the [typeof] test of
    [command[i]] against the string type says that index [i] exists. *)
Definition canAutoApprove (command : list string) (policy : ApprovalPolicy)
           (writableRoots : list string) : SafetyAssessment :=
  if match nth_error command 0 with
     | Some c0 => c0 =? "apply_patch"
     | None => false
     end
  then
    match command with
    | [_; c1] => canAutoApproveApplyPatch c1 writableRoots policy
    | _ => Reject "Invalid apply_patch command"
    end
  else
    match isSafeCommand command with
    | Some isSafe => AutoApprove (reason isSafe) (group isSafe) false None
    | None =>
        match isBashLc command with
        | Some script =>
            match tryParseApplyPatch script with
            | Some applyPatchArg =>
                canAutoApproveApplyPatch applyPatchArg writableRoots policy
            | None =>
                match parse script with
                | None => policyFallback policy
                | Some bashCmd =>
                    match isEntireShellExpressionSafe bashCmd with
                    | Some shellSafe =>
                        AutoApprove (reason shellSafe) (group shellSafe)
                                    false None
                    | None => policyFallback policy
                    end
                end
            end
        | None => policyFallback policy
        end
    end.

End Classifier.

(** *** What the specification says, in its own words *)

(** An assessment that auto-approves without a sandbox. *)
Definition isUnsandboxedAutoApprove (a : SafetyAssessment) : bool :=
  match a with
  | AutoApprove _ _ false _ => true
  | _ => false
  end.

Definition isReject (a : SafetyAssessment) : bool :=
  match a with Reject _ => true | _ => false end.

Definition emitSegment (cur : list string) : list (list string) :=
  match cur with [] => [] | _ :: _ => [cur] end.

(** The command segments of a parsed script: the maximal non-empty runs of
    words between entries that carry an [op]. *)
Fixpoint segmentsFrom (parts : list ParseEntry) (cur : list string)
  : list (list string) :=
  match parts with
  | [] => emitSegment cur
  | PString s :: rest => segmentsFrom rest (cur ++ [s])
  | POp _ :: rest => emitSegment cur ++ segmentsFrom rest []
  | PGlob _ :: rest => emitSegment cur ++ segmentsFrom rest []
  | PComment _ :: rest => segmentsFrom rest cur
  end.

Definition segments (parts : list ParseEntry) : list (list string) :=
  segmentsFrom parts [].

(** The operators of a parsed script: the [op] field of each entry that
    has one. *)
Fixpoint operators (parts : list ParseEntry) : list string :=
  match parts with
  | [] => []
  | POp op :: rest => op :: operators rest
  | PGlob _ :: rest => "glob" :: operators rest
  | _ :: rest => operators rest
  end.

Definition onAllowlist (segment : list string) : bool :=
  Js.isSome (isSafeCommand segment).

(** The right-hand side of the specification's equivalence: every command
    segment is on the read-only allowlist and every operator is safe. *)
Definition safeComposition (parts : list ParseEntry) : bool :=
  forallb onAllowlist (segments parts)
  && forallb SAFE_SHELL_OPERATORS_has (operators parts).

Definition hasGroupingWord (parts : list ParseEntry) : bool :=
  existsb (fun p => match p with PString s => isGroupingToken s | _ => false end)
          parts.

Definition hasComment (parts : list ParseEntry) : bool :=
  existsb (fun p => match p with PComment _ => true | _ => false end) parts.

(** Containment as the specification words it, on propositions. *)
Definition within (path_relative : string -> string -> string)
           (path_isAbsolute : string -> bool) (root candidate : string) : Prop :=
  let rel := path_relative root candidate in
  rel <> "" /\ Js.startsWith ".." rel = false /\ path_isAbsolute rel = false.

Definition patchConfined (identify_files_needed identify_files_added
                          : string -> list string)
           (path_resolve : string -> string)
           (path_relative : string -> string -> string)
           (path_isAbsolute : string -> bool)
           (blob : string) (writableRoots : list string) : Prop :=
  forall p, In p (identify_files_needed blob ++ identify_files_added blob) ->
  exists root, In root writableRoots /\
               within path_relative path_isAbsolute root (path_resolve p).

(** The thirteen verbs that [isSafeCommand] accepts whatever follows. *)
Definition alwaysSafeVerbs : list string :=
  ["cd"; "ls"; "pwd"; "true"; "echo"; "cat"; "rg"; "find"; "grep"; "head";
   "tail"; "wc"; "which"].

Definition gitReadOnlySubcommands : list string :=
  ["status"; "branch"; "log"; "diff"; "show"].

(** The read-only allowlist of the specification: the thirteen verbs with
    any arguments, [git] with a read-only subcommand, [cargo check], and
    [sed -n RANGE FILE] with a range the regular expression accepts. *)
Inductive Allowlisted : list string -> Prop :=
| AllowVerb verb rest :
    In verb alwaysSafeVerbs -> Allowlisted (verb :: rest)
| AllowGit sub rest :
    In sub gitReadOnlySubcommands -> Allowlisted ("git" :: sub :: rest)
| AllowCargo rest :
    Allowlisted ("cargo" :: "check" :: rest)
| AllowSed range file :
    isValidSedNArg (Some range) = true ->
    Allowlisted ["sed"; "-n"; range; file].

(** A range of [sed -n], in words: digits, then [p]; or digits, a comma,
    digits, then [p]. *)
Definition allDigits (s : string) : bool :=
  forallb Js.isDigit (list_ascii_of_string s).

Inductive SedRange : string -> Prop :=
| SedLine (n : string) :
    n <> EmptyString -> allDigits n = true -> SedRange (n ++ "p")
| SedLines (n m : string) :
    n <> EmptyString -> allDigits n = true ->
    m <> EmptyString -> allDigits m = true ->
    SedRange (n ++ "," ++ m ++ "p").

(** [r] does not go on with a digit. *)
Definition stopsDigits (r : string) : Prop :=
  match r with
  | String c _ => Js.isDigit c = false
  | EmptyString => True
  end.

(** Case analysis on the comparison of [v] with the next literal. *)
Ltac case_verb v :=
  match goal with
  | |- context [String.eqb v ?lit] =>
      destruct (String.eqb_spec v lit) as [->|?]
  end.

(** *** Library stand-ins used to evaluate the classifier on examples *)

(** A parser that knows the token lists shell-quote returns for a few
    scripts and throws on every other one. *)
Definition parseTable (table : list (string * list ParseEntry))
           (script : string) : option (list ParseEntry) :=
  match find (fun kv => fst kv =? script) table with
  | Some kv => Some (snd kv)
  | None => None
  end.

Definition exampleScripts : list (string * list ParseEntry) :=
  [ ("", []);
    (";", [POp ";"]);
    ("ls -la | grep foo",
     [PString "ls"; PString "-la"; POp "|"; PString "grep"; PString "foo"]);
    ("ls > /tmp/out", [PString "ls"; POp ">"; PString "/tmp/out"]);
    ("echo '('", [PString "echo"; PString "("]) ].

Definition noFiles (blob : string) : list string := [].
Definition idPath (p : string) : string := p.
Definition constRelative (parent child : string) : string := child.
Definition posixIsAbsolute (p : string) : bool := Js.startsWith "/" p.
Definition noHeredoc (s : string) : option string := None.

Definition classify : list string -> ApprovalPolicy -> list string
                      -> SafetyAssessment :=
  canAutoApprove (parseTable exampleScripts) noFiles noFiles idPath
                 constRelative posixIsAbsolute noHeredoc idPath.

End Approvals.

(** ** The raw executor ([sandbox/raw-exec.ts]) *)

Module RawExec.

(** A Node [Buffer]. *)
Definition Buffer := list Byte.byte.

Definition MAX_BUFFER : Z := 1024 * 100.

Record ExecResult := { stdout : string; stderr : string; exitCode : Z }.

(** The three states of a JavaScript promise. *)
Inductive Promise (A : Type) :=
| Pending
| Fulfilled (value : A)
| Rejected (reason : string).

Arguments Pending {A}.
Arguments Fulfilled {A} value.
Arguments Rejected {A} reason.

(** What the spawned [ChildProcess] delivers to the listeners that [exec]
    attaches: [data] on either pipe, [exit], and [error] (carried as
    [String(err)], which is all the handler reads). *)
Inductive ChildEvent :=
| StdoutData (data : Buffer)
| StderrData (data : Buffer)
| Exit (code : option Z) (signal : option string)
| Error (err : string).

(** What [child_process.spawn] does when [exec] calls it.  It throws,
    which it does before it starts anything when it refuses its arguments
    (a file name that is empty, a timeout that is not a non-negative
    integer); or it returns a [ChildProcess], which delivers [events] to
    the listeners that [exec] attaches. *)
Inductive Spawned :=
| SpawnThrows (error : string)
| Child (events : list ChildEvent).

(** How a call ends: it returns a value, or it throws. *)
Inductive Completion (A : Type) :=
| Returns (value : A)
| Throws (error : string).

Arguments Returns {A} value.
Arguments Throws {A} error.

(** The three variables the source keeps per stream:
    [stdoutChunks], [numStdoutBytes], [hitMaxStdout] (and the same for
    stderr). *)
Record Capture := { chunks : list Buffer; numBytes : Z; hitMax : bool }.

Definition emptyCapture : Capture :=
  {| chunks := []; numBytes := 0; hitMax := false |}.

(** The body of a [data] listener. *)
Definition onData (c : Capture) (data : Buffer) : Capture :=
  if hitMax c then c
  else
    let n := (numBytes c + Z.of_nat (List.length data))%Z in
    if (n <=? MAX_BUFFER)%Z
    then {| chunks := chunks c ++ [data]; numBytes := n; hitMax := false |}
    else {| chunks := chunks c; numBytes := n; hitMax := true |}.

Record ExecState := {
  stdoutCapture : Capture;
  stderrCapture : Capture;
  promise : Promise ExecResult
}.

Definition initialState : ExecState :=
  {| stdoutCapture := emptyCapture; stderrCapture := emptyCapture;
     promise := Pending |}.

(** Calling the [resolve] of a promise settles it once; later calls do
    nothing. *)
Definition resolve (r : ExecResult) (p : Promise ExecResult)
  : Promise ExecResult :=
  match p with
  | Pending => Fulfilled r
  | _ => p
  end.

Section Exec.

(** [adaptCommandForPlatform] ([platform-commands.js]). *)
Variable adaptCommandForPlatform : list string -> list string.

(** [os.constants.signals]: the number of a signal name the platform knows. *)
Variable signals : string -> option Z.

(** [buffer.toString] with the utf8 encoding. *)
Variable toStringUtf8 : Buffer -> string.

(** The mapping of [(code, signal)] in the [exit] listener. *)
Definition exitCodeOf (code : option Z) (signal : option string) : Z :=
  match code with
  | Some c => c
  | None =>
      match signal with
      | Some sig =>
          match signals sig with
          | Some signalNum => (128 + signalNum)%Z
          | None => 1%Z
          end
      | None => 1%Z
      end
  end.

Definition step (st : ExecState) (ev : ChildEvent) : ExecState :=
  match ev with
  | StdoutData data =>
      {| stdoutCapture := onData (stdoutCapture st) data;
         stderrCapture := stderrCapture st;
         promise := promise st |}
  | StderrData data =>
      {| stdoutCapture := stdoutCapture st;
         stderrCapture := onData (stderrCapture st) data;
         promise := promise st |}
  | Exit code signal =>
      {| stdoutCapture := stdoutCapture st;
         stderrCapture := stderrCapture st;
         promise :=
           resolve
             {| stdout := toStringUtf8 (List.concat (chunks (stdoutCapture st)));
                stderr := toStringUtf8 (List.concat (chunks (stderrCapture st)));
                exitCode := exitCodeOf code signal |}
             (promise st) |}
  | Error err =>
      {| stdoutCapture := stdoutCapture st;
         stderrCapture := stderrCapture st;
         promise :=
           resolve {| stdout := ""; stderr := err; exitCode := 1 |}
                   (promise st) |}
  end.

Definition runEvents (events : list ChildEvent) : ExecState :=
  fold_left step events initialState.

(** [exec].  The function is not [async], and it calls [spawn] outside
    any [try] and before it makes the promise: what [spawn] throws leaves
    [exec] as an exception, and no promise is returned.  Otherwise the
    result is the promise, here in the state it has after the child has
    delivered its events. *)
Definition exec (command : list string) (spawned : Spawned)
  : Completion (Promise ExecResult) :=
  match adaptCommandForPlatform command with
  | [] => Returns (Fulfilled {| stdout := "";
                                stderr := "command[0] is not a string";
                                exitCode := 1 |})
  | _prog :: _ =>
      match spawned with
      | SpawnThrows error => Throws error
      | Child events => Returns (promise (runEvents events))
      end
  end.

End Exec.

(** *** What the specification says, in its own words *)

(** The chunks a bounded buffer keeps: those that arrive while the running
    byte count stays within [cap]; the chunk that crosses the cap and all
    later ones are dropped. *)
Fixpoint keepWithin (cap seen : Z) (data : list Buffer) : list Buffer :=
  match data with
  | [] => []
  | d :: rest =>
      let n := (seen + Z.of_nat (List.length d))%Z in
      if (n <=? cap)%Z then d :: keepWithin cap n rest else []
  end.

Definition stdoutData (events : list ChildEvent) : list Buffer :=
  flat_map (fun ev => match ev with StdoutData d => [d] | _ => [] end) events.

Definition stderrData (events : list ChildEvent) : list Buffer :=
  flat_map (fun ev => match ev with StderrData d => [d] | _ => [] end) events.

Definition isData (ev : ChildEvent) : bool :=
  match ev with StdoutData _ | StderrData _ => true | _ => false end.

Definition totalBytes (data : list Buffer) : Z :=
  Z.of_nat (List.length (List.concat data)).

(** *** Library stand-ins used to evaluate the executor on examples *)

Definition linuxSignals (name : string) : option Z :=
  if name =? "SIGKILL" then Some 9%Z
  else if name =? "SIGTERM" then Some 15%Z
  else if name =? "SIGINT" then Some 2%Z
  else None.

Definition sameCommand (command : list string) : list string := command.

(** A decoder for buffers that hold ASCII text. *)
Definition asciiDecode (b : Buffer) : string :=
  string_of_list_ascii (map ascii_of_byte b).

(** [spawn] of Node as far as it checks the file name and the timeout: an
    empty file name is refused with a [TypeError], then a negative timeout
    with a [RangeError]; any other call gives the child, which delivers
    [events]. *)
Definition nodeSpawn (command : list string) (timeout : Z)
           (events : list ChildEvent) : Spawned :=
  match command with
  | prog :: _ =>
      if (prog =? "")%string
      then SpawnThrows "TypeError [ERR_INVALID_ARG_VALUE]"
      else if (timeout <? 0)%Z
           then SpawnThrows "RangeError [ERR_OUT_OF_RANGE]"
           else Child events
  | [] => Child events
  end.

End RawExec.

(** ** The turn engine ([agent-loop.ts]) *)

Module AgentLoop.

(** *** JSON values and [JSON.stringify] *)

(** The JSON values the engine itself serialises: objects of strings and
    integers, with the members of an object in the order they are written. *)
Inductive JSON :=
| JNum (n : Z)
| JStr (s : string)
| JObj (members : Members)
with Members :=
| MNil
| MCons (key : string) (value : JSON) (rest : Members).

Definition dquote : ascii := "034"%char.
Definition backslash : ascii := "092"%char.

Definition hexDigit (n : nat) : ascii :=
  if (n <? 10)%nat then ascii_of_nat (48 + n) else ascii_of_nat (87 + n).

(** The escape of one code unit inside a JSON string. *)
Definition escapeChar (c : ascii) : string :=
  let n := nat_of_ascii c in
  if Ascii.eqb c dquote then String backslash (String dquote EmptyString)
  else if Ascii.eqb c backslash then String backslash (String backslash EmptyString)
  else if (n =? 8)%nat then String backslash "b"
  else if (n =? 9)%nat then String backslash "t"
  else if (n =? 10)%nat then String backslash "n"
  else if (n =? 12)%nat then String backslash "f"
  else if (n =? 13)%nat then String backslash "r"
  else if (n <? 32)%nat
       then String backslash
              ("u00" ++ String (hexDigit (n / 16))
                          (String (hexDigit (n mod 16)) EmptyString))%string
  else String c EmptyString.

Fixpoint escapeString (s : string) : string :=
  match s with
  | EmptyString => EmptyString
  | String c s' => (escapeChar c ++ escapeString s')%string
  end.

Definition quoteString (s : string) : string :=
  String dquote (escapeString s ++ String dquote EmptyString)%string.

Definition showZ (n : Z) : string := NilEmpty.string_of_int (Z.to_int n).

Fixpoint JSON_stringify (j : JSON) : string :=
  match j with
  | JNum n => showZ n
  | JStr s => quoteString s
  | JObj members => ("{" ++ members_stringify members ++ "}")%string
  end
with members_stringify (ms : Members) : string :=
  match ms with
  | MNil => EmptyString
  | MCons key value MNil =>
      (quoteString key ++ ":" ++ JSON_stringify value)%string
  | MCons key value rest =>
      (quoteString key ++ ":" ++ JSON_stringify value ++ ","
       ++ members_stringify rest)%string
  end.

(** *** Conversation items *)

Record ChatFunction := {
  function_name : option string;
  function_arguments : option string
}.

(** A [function_call] item as [handleFunctionCall] reads it: the chat
    endpoint nests name and arguments under [function] and has [id]; the
    responses endpoint has them at top level with [call_id]. *)
Record FunctionToolCall := {
  item_function : option ChatFunction;
  item_name : option string;
  item_arguments : option string;
  item_call_id : option string;
  item_id : option string
}.

Inductive Item :=
| FunctionCallOutput (call_id : option string) (output : string)
| FunctionCall (call : FunctionToolCall)
| Message (role : string) (text : string)
| Reasoning (duration_ms : option Z).

Definition Stream := nat.
Definition AbortController := nat.

(** A JavaScript number. *)
Definition Number : Type := JsNumber.t.

(** What the instance does to the world around it: the callbacks it
    invokes, the requests it opens (with the attempt number and the
    [input] it sends) and the timers it awaits. *)
Inductive Effect :=
| OnItem (item : Item)
| OnLoading (loading : bool)
| OnLastResponseId (lastResponseId : string)
| Create (attempt : nat) (input : list Item)
| Sleep (delayMs : Number).

(** *** The instance *)

(** The private fields of the class, followed by the part of the world
    its methods act on: which stream and abort controllers have been
    aborted, the identity of the next controller that [new] returns, and
    the effects so far, oldest first. *)
Record AgentLoop := {
  terminated : bool;
  hardAbort : bool;
  currentStream : option Stream;
  generation : Z;
  execAbortController : option AbortController;
  canceled : bool;
  pendingAborts : list string;
  abortedStreams : list Stream;
  abortedControllers : list AbortController;
  nextController : AbortController;
  effects : list Effect
}.

Definition set_terminated (v : bool) (s : AgentLoop) : AgentLoop :=
  {| terminated := v; hardAbort := hardAbort s;
     currentStream := currentStream s; generation := generation s;
     execAbortController := execAbortController s; canceled := canceled s;
     pendingAborts := pendingAborts s; abortedStreams := abortedStreams s;
     abortedControllers := abortedControllers s;
     nextController := nextController s; effects := effects s |}.

Definition set_hardAbort (v : bool) (s : AgentLoop) : AgentLoop :=
  {| terminated := terminated s; hardAbort := v;
     currentStream := currentStream s; generation := generation s;
     execAbortController := execAbortController s; canceled := canceled s;
     pendingAborts := pendingAborts s; abortedStreams := abortedStreams s;
     abortedControllers := abortedControllers s;
     nextController := nextController s; effects := effects s |}.

Definition set_currentStream (v : option Stream) (s : AgentLoop) : AgentLoop :=
  {| terminated := terminated s; hardAbort := hardAbort s;
     currentStream := v; generation := generation s;
     execAbortController := execAbortController s; canceled := canceled s;
     pendingAborts := pendingAborts s; abortedStreams := abortedStreams s;
     abortedControllers := abortedControllers s;
     nextController := nextController s; effects := effects s |}.

Definition set_generation (v : Z) (s : AgentLoop) : AgentLoop :=
  {| terminated := terminated s; hardAbort := hardAbort s;
     currentStream := currentStream s; generation := v;
     execAbortController := execAbortController s; canceled := canceled s;
     pendingAborts := pendingAborts s; abortedStreams := abortedStreams s;
     abortedControllers := abortedControllers s;
     nextController := nextController s; effects := effects s |}.

Definition set_canceled (v : bool) (s : AgentLoop) : AgentLoop :=
  {| terminated := terminated s; hardAbort := hardAbort s;
     currentStream := currentStream s; generation := generation s;
     execAbortController := execAbortController s; canceled := v;
     pendingAborts := pendingAborts s; abortedStreams := abortedStreams s;
     abortedControllers := abortedControllers s;
     nextController := nextController s; effects := effects s |}.

Definition set_pendingAborts (v : list string) (s : AgentLoop) : AgentLoop :=
  {| terminated := terminated s; hardAbort := hardAbort s;
     currentStream := currentStream s; generation := generation s;
     execAbortController := execAbortController s; canceled := canceled s;
     pendingAborts := v; abortedStreams := abortedStreams s;
     abortedControllers := abortedControllers s;
     nextController := nextController s; effects := effects s |}.

(** The instance the constructor builds, in a world where nothing has
    been aborted or emitted yet. *)
Definition construct : AgentLoop :=
  {| terminated := false; hardAbort := false; currentStream := None;
     generation := 0; execAbortController := None; canceled := false;
     pendingAborts := []; abortedStreams := []; abortedControllers := [];
     nextController := 0; effects := [] |}.

(** [stream?.controller?.abort?.()]. *)
Definition abortStream (st : option Stream) (s : AgentLoop) : AgentLoop :=
  match st with
  | None => s
  | Some x =>
      {| terminated := terminated s; hardAbort := hardAbort s;
         currentStream := currentStream s; generation := generation s;
         execAbortController := execAbortController s; canceled := canceled s;
         pendingAborts := pendingAborts s;
         abortedStreams := x :: abortedStreams s;
         abortedControllers := abortedControllers s;
         nextController := nextController s; effects := effects s |}
  end.

(** [controller?.abort()]. *)
Definition abortController (c : option AbortController) (s : AgentLoop)
  : AgentLoop :=
  match c with
  | None => s
  | Some x =>
      {| terminated := terminated s; hardAbort := hardAbort s;
         currentStream := currentStream s; generation := generation s;
         execAbortController := execAbortController s; canceled := canceled s;
         pendingAborts := pendingAborts s; abortedStreams := abortedStreams s;
         abortedControllers := x :: abortedControllers s;
         nextController := nextController s; effects := effects s |}
  end.

(** [this.execAbortController = new AbortController()]. *)
Definition newExecAbortController (s : AgentLoop) : AgentLoop :=
  {| terminated := terminated s; hardAbort := hardAbort s;
     currentStream := currentStream s; generation := generation s;
     execAbortController := Some (nextController s); canceled := canceled s;
     pendingAborts := pendingAborts s; abortedStreams := abortedStreams s;
     abortedControllers := abortedControllers s;
     nextController := S (nextController s); effects := effects s |}.

Definition emit (e : Effect) (s : AgentLoop) : AgentLoop :=
  {| terminated := terminated s; hardAbort := hardAbort s;
     currentStream := currentStream s; generation := generation s;
     execAbortController := execAbortController s; canceled := canceled s;
     pendingAborts := pendingAborts s; abortedStreams := abortedStreams s;
     abortedControllers := abortedControllers s;
     nextController := nextController s; effects := effects s ++ [e] |}.

(** [this.pendingAborts.add(callId)] on a [Set], which keeps insertion
    order and ignores a value it already holds. *)
Definition pendingAborts_add (callId : string) (l : list string) : list string :=
  if existsb (String.eqb callId) l then l else l ++ [callId].

(** [cancel()], statement by statement.  The optional-chained abort of the
    stream reads [this.currentStream] after the assignment of [null]. *)
Definition cancel (s : AgentLoop) : AgentLoop :=
  if terminated s then s
  else
    let s := set_currentStream None s in
    let s := abortStream (currentStream s) s in
    let s := set_canceled true s in
    let s := abortController (execAbortController s) s in
    let s := newExecAbortController s in
    let s := if (List.length (pendingAborts s) =? 0)%nat
             then emit (OnLastResponseId "") s
             else s in
    let s := emit (OnLoading false) s in
    set_generation (generation s + 1)%Z s.

(** [terminate()]; the listener installed by the constructor on
    [hardAbort] aborts the current [execAbortController]. *)
Definition terminate (s : AgentLoop) : AgentLoop :=
  if terminated s then s
  else
    let s := set_terminated true s in
    let s := set_hardAbort true s in
    let s := abortController (execAbortController s) s in
    cancel s.

(** [cancel()] called [n] times in a row. *)
Fixpoint cancelTimes (n : nat) (s : AgentLoop) : AgentLoop :=
  match n with
  | O => s
  | S n' => cancelTimes n' (cancel s)
  end.

(** *** The start of [run()]: draining [pendingAborts] *)

Inductive Completion (A : Type) :=
| Normal (value : A)
| Throw (message : string).

Arguments Normal {A} value.
Arguments Throw {A} message.

(** The object literal serialised for every pending call-id. *)
Definition abortedPayload : JSON :=
  JObj (MCons "output" (JStr "aborted")
       (MCons "metadata"
              (JObj (MCons "exit_code" (JNum 1)
                    (MCons "duration_seconds" (JNum 0) MNil)))
        MNil)).

Definition abortOutputFor (id : string) : Item :=
  FunctionCallOutput (Some id) (JSON_stringify abortedPayload).

(** The local variables of [run()] that survive its first statements. *)
Record RunLocals := {
  thisGeneration : Z;
  lastResponseId : string;
  turnInput : list Item
}.

(** [run(input, previousResponseId)] from its entry to [onLoading(true)]. *)
Definition runPrologue (s : AgentLoop) (input : list Item)
           (previousResponseId : string) : Completion (AgentLoop * RunLocals) :=
  if terminated s then Throw "AgentLoop has been terminated"
  else
    let s := set_generation (generation s + 1)%Z s in
    let thisGeneration := generation s in
    let s := set_canceled false s in
    let s := set_currentStream None s in
    let s := newExecAbortController s in
    let abortOutputs :=
      if (0 <? List.length (pendingAborts s))%nat
      then fold_left (fun acc id => acc ++ [abortOutputFor id])
                     (pendingAborts s) []
      else [] in
    let s := if (0 <? List.length (pendingAborts s))%nat
             then set_pendingAborts [] s
             else s in
    let turnInput := abortOutputs ++ input in
    let s := emit (OnLoading true) s in
    Normal (s, {| thisGeneration := thisGeneration;
                  lastResponseId := previousResponseId;
                  turnInput := turnInput |}).

(** *** [handleFunctionCall] and [processEventsWithoutStreaming] *)

(** What the awaited [handleExecCommand] hands back. *)
Record HandleExecCommandResult (Metadata : Type) := {
  outputText : string;
  metadata : Metadata;
  additionalItems : option (list Item)
}.

Section FunctionCalls.

(** The parsed arguments ([ExecInput]) and the metadata of an execution. *)
Variable ExecInput : Type.
Variable Metadata : Type.

(** [parseToolCallArguments] ([utils/parsers.js]); [None] is its
    [undefined] on malformed arguments. *)
Variable parseToolCallArguments : string -> option ExecInput.

(** [handleExecCommand] ([handle-exec-command.js]) with the configuration,
    policy, writable roots, confirmation callback and abort signal of the
    instance. *)
Variable handleExecCommand : ExecInput -> HandleExecCommandResult Metadata.

(** [JSON.stringify({ output: outputText, metadata })]. *)
Variable stringifyOutput : string -> Metadata -> string.

(** [a ?? b]. *)
Definition orElse {A} (a b : option A) : option A :=
  match a with Some _ => a | None => b end.

(** A value interpolated into a template literal. *)
Definition interpolate (v : option string) : string :=
  match v with Some s => s | None => "undefined" end.

Definition callIdOf (item : FunctionToolCall) : option string :=
  orElse (item_call_id item) (item_id item).

Definition isShellTool (name : option string) : bool :=
  match name with
  | Some n => (n =? "container.exec")%string || (n =? "shell")%string
  | None => false
  end.

Definition handleFunctionCall (s : AgentLoop) (item : FunctionToolCall)
  : list Item :=
  if canceled s then []
  else
    let isChatStyle := Js.isSome (item_function item) in
    let name :=
      match item_function item with
      | Some f => function_name f
      | None => item_name item
      end in
    let rawArguments :=
      match item_function item with
      | Some f => function_arguments f
      | None => item_arguments item
      end in
    let callId := callIdOf item in
    let args :=
      parseToolCallArguments
        (match rawArguments with Some r => r | None => "{}" end) in
    match args with
    | None =>
        [FunctionCallOutput (item_call_id item)
           ("invalid arguments: " ++ interpolate rawArguments)%string]
    | Some args =>
        if isShellTool name then
          let r := handleExecCommand args in
          FunctionCallOutput callId (stringifyOutput (outputText r) (metadata r))
          :: match additionalItems r with
             | Some additionalItemsFromExec => additionalItemsFromExec
             | None => []
             end
        else [FunctionCallOutput callId "no function found"]
    end.

(** What [processEventsWithoutStreaming] leaves behind: the next turn
    input, the items handed to [emitItem], and the module-level set
    [alreadyProcessedResponses] of item ids. *)
Record Processed := {
  newTurnInput : list Item;
  emitted : list Item;
  alreadyProcessedResponses : list (option string)
}.

Definition idSeen (id : option string) (seen : list (option string)) : bool :=
  existsb (fun x => match x, id with
                    | Some a, Some b => (a =? b)%string
                    | None, None => true
                    | _, _ => false
                    end) seen.

(** The [for (const item of output)] loop, with no cancellation landing
    while it runs. *)
Fixpoint processOutput (s : AgentLoop) (output : list Item) (acc : Processed)
  : Processed :=
  match output with
  | [] => acc
  | item :: rest =>
      match item with
      | FunctionCall call =>
          if idSeen (item_id call) (alreadyProcessedResponses acc)
          then processOutput s rest acc
          else
            let result := handleFunctionCall s call in
            processOutput s rest
              {| newTurnInput := newTurnInput acc ++ result;
                 emitted := emitted acc ++ [item];
                 alreadyProcessedResponses :=
                   alreadyProcessedResponses acc ++ [item_id call] |}
      | _ =>
          processOutput s rest
            {| newTurnInput := newTurnInput acc;
               emitted := emitted acc ++ [item];
               alreadyProcessedResponses := alreadyProcessedResponses acc |}
      end
  end.

Definition processEventsWithoutStreaming (s : AgentLoop) (output : list Item)
           (seen : list (option string)) : Processed :=
  if canceled s
  then {| newTurnInput := []; emitted := [];
          alreadyProcessedResponses := seen |}
  else processOutput s output
         {| newTurnInput := []; emitted := [];
            alreadyProcessedResponses := seen |}.

End FunctionCalls.

(** Is [item] a [function_call_output] that answers [callId]? *)
Definition answers (callId : option string) (item : Item) : bool :=
  match item with
  | FunctionCallOutput (Some c) _ =>
      match callId with Some c' => (c =? c')%string | None => false end
  | FunctionCallOutput None _ =>
      match callId with Some _ => false | None => true end
  | _ => false
  end.

Definition countAnswers (callId : option string) (items : list Item) : nat :=
  List.length (filter (answers callId) items).

(** *** The retry loop around [responses.create] *)

Definition isWhitespace (c : ascii) : bool :=
  let n := nat_of_ascii c in
  ((9 <=? n)%nat && (n <=? 13)%nat) || (n =? 32)%nat.

Fixpoint skipWhitespace (s : string) : string :=
  match s with
  | String c s' => if isWhitespace c then skipWhitespace s' else s
  | EmptyString => s
  end.

(** The value of a string of decimal digits, most significant first. *)
Fixpoint digitsValue (acc : Z) (s : string) : Z :=
  match s with
  | EmptyString => acc
  | String c s' => digitsValue (acc * 10 + (Z.of_nat (nat_of_ascii c) - 48))%Z s'
  end.

(** [parseInt(s, 10)]: leading white space, a sign, then the longest run
    of digits; [NaN] when there is none.  The result is the double
    nearest to the integer the digits stand for (ECMAScript lets an
    implementation read the digits after the twentieth as zeros; V8 reads
    them all), and [-0] for a negative zero.  White space is the ASCII part
    of the set ECMAScript skips. *)
Definition parseInt10 (s : string) : Number :=
  let s := skipWhitespace s in
  let '(negative, s) :=
    match s with
    | String "-" r => (true, r)
    | String "+" r => (false, r)
    | _ => (false, s)
    end in
  match Js.spanDigits s with
  | (EmptyString, _) => JsNumber.NaN
  | (d, _) =>
      let n := digitsValue 0 d in
      if negative
      then if (n =? 0)%Z then S754_zero true else JsNumber.ofInteger (- n)
      else JsNumber.ofInteger n
  end.


Definition isDigitOrDot (c : ascii) : bool :=
  Js.isDigit c || Ascii.eqb c "."%char.

(** The longest run of [[\d.]] at the head of [s], and what follows. *)
Fixpoint spanDigitsDots (s : string) : string * string :=
  match s with
  | String c s' =>
      if isDigitOrDot c
      then let (d, r) := spanDigitsDots s' in (String c d, r)
      else (EmptyString, s)
  | EmptyString => (EmptyString, EmptyString)
  end.

(** [parseFloat] on a string of digits and dots, the only strings the
    capture group of the hint can hold: digits, then at most one dot with
    its digits; [NaN] when neither part has a digit.  The result is the
    double nearest to the decimal that was read (ECMAScript lets an
    implementation read the digits after the twentieth as zeros; V8 reads
    them all). *)
Definition parseFloat (s : string) : Number :=
  let (intPart, r) := Js.spanDigits s in
  let fracPart :=
    match r with
    | String "." r' => fst (Js.spanDigits r')
    | _ => EmptyString
    end in
  match intPart, fracPart with
  | EmptyString, EmptyString => JsNumber.NaN
  | _, _ =>
      JsNumber.ofDecimal (digitsValue 0 (intPart ++ fracPart))
                         (String.length fracPart)
  end.

(** The regular expression [/(?:retry|try) again in ([\d.]+)s/i] anchored
    at the head of [s]: its capture group.  The run of [[\d.]] is greedy
    and must be followed by [s], which is outside the class, so giving
    characters back never helps. *)
Definition hintAt (s : string) : option string :=
  let capture (rest : string) :=
    match spanDigitsDots rest with
    | (EmptyString, _) => None
    | (g, String c _) => if Js.eqb_ci c "s"%char then Some g else None
    | (_, EmptyString) => None
    end in
  if Js.prefix_ci "retry again in " s then capture (Js.slice 15 s)
  else if Js.prefix_ci "try again in " s then capture (Js.slice 13 s)
  else None.

(** [regex.exec(msg)]: the leftmost position where the expression matches;
    the result is [m[1]]. *)
Fixpoint retryHint (msg : string) : option string :=
  match hintAt msg with
  | Some g => Some g
  | None =>
      match msg with
      | String _ msg' => retryHint msg'
      | EmptyString => None
      end
  end.

(** The fields of a caught error that the [catch] block reads:
    [isTimeout] and [isConnectionError] are the two [instanceof] tests,
    [err_status] stands for [status ?? httpStatus ?? statusCode] when it is
    a number, and [err_request_id] for [request_id ?? requestId]. *)
Record ApiError := {
  isTimeout : bool;
  isConnectionError : bool;
  err_status : option Z;
  err_code : option string;
  err_type : option string;
  err_param : option string;
  err_message : option string;
  err_request_id : option string
}.

Definition MAX_RETRIES : nat := 5.

(** [errCtx?.message], or the empty string when there is none. *)
Definition messageOf (error : ApiError) : string :=
  match err_message error with Some m => m | None => EmptyString end.

Definition optEq (o : option string) (v : string) : bool :=
  match o with Some s => (s =? v)%string | None => false end.

Definition isServerError (error : ApiError) : bool :=
  match err_status error with
  | Some st => (500 <=? st)%Z
  | None => false
  end.

Definition isTooManyTokensError (error : ApiError) : bool :=
  (optEq (err_param error) "max_tokens"
   || match err_message error with
      | Some m => Js.test_ci "max_tokens is too large" m
      | None => false
      end)
  && optEq (err_type error) "invalid_request_error".

Definition isRateLimit (error : ApiError) : bool :=
  match err_status error with Some st => (st =? 429)%Z | None => false end
  || optEq (err_code error) "rate_limit_exceeded"
  || optEq (err_type error) "rate_limit_exceeded"
  || Js.test_ci "rate limit" (messageOf error).

Definition isClientError (error : ApiError) : bool :=
  match err_status error with
  | Some st => (400 <=? st)%Z && (st <? 500)%Z && negb (st =? 429)%Z
  | None => false
  end
  || optEq (err_code error) "invalid_request_error"
  || optEq (err_type error) "invalid_request_error".

(** [v || unknown] on an optional string: the word unknown stands in for
    an absent or empty value. *)
Definition orUnknown (v : option string) : string :=
  match v with
  | Some s => if (s =? "")%string then "unknown" else s
  | None => "unknown"
  end.

Definition errorDetails (error : ApiError) : string :=
  String.concat ", "
    [ ("Status: " ++ match err_status error with
                     | Some st => if (st =? 0)%Z then "unknown" else showZ st
                     | None => "unknown"
                     end)%string;
      ("Code: " ++ orUnknown (err_code error))%string;
      ("Type: " ++ orUnknown (err_type error))%string;
      ("Message: " ++ orUnknown (err_message error))%string ].

Definition systemMessage (text : string) : Item := Message "system" text.

Definition contextLengthText : string :=
  "⚠️  The current request exceeds the maximum context length supported by the chosen model. Please shorten the conversation, run /clear, or switch to a model with a larger context window and try again.".

Definition rateLimitText (error : ApiError) : string :=
  ("⚠️  Rate limit reached. Error details: " ++ errorDetails error
   ++ ". Please try again later.")%string.

Definition rejectedText (error : ApiError) : string :=
  ("⚠️  OpenAI rejected the request"
   ++ match err_request_id error with
      | Some reqId => if (reqId =? "")%string then ""
                      else " (request ID: " ++ reqId ++ ")"
      | None => ""
      end
   ++ ". Error details: " ++ errorDetails error
   ++ ". Please verify your settings and try again.")%string.

(** [delayMs] of the rate-limit branch, [base] being the value of
    [RATE_LIMIT_RETRY_WAIT_MS], which is [NaN] when the environment
    variable does not start with a number. *)
Definition rateLimitDelay (base : Number) (attempt : nat)
           (error : ApiError) : Number :=
  let delayMs := JsNumber.mul base (JsNumber.pow2 (Z.of_nat attempt - 1)) in
  let msg := messageOf error in
  match retryHint msg with
  | Some m1 =>
      let suggested :=
        JsNumber.mul (parseFloat m1) (JsNumber.ofInteger 1000) in
      if negb (JsNumber.isNaN suggested) then suggested else delayMs
  | None => delayMs
  end.

(** How an iteration of the [for] loop ends after a failed request. *)
Inductive Next := NextAttempt | RunReturns | Rethrow.

(** The [catch (error)] block of the retry loop. *)
Definition onCreateError (base : Number) (error : ApiError) (attempt : nat)
  : list Effect * Next :=
  if (isTimeout error || isServerError error || isConnectionError error)
     && (attempt <? MAX_RETRIES)%nat
  then ([], NextAttempt)
  else if isTooManyTokensError error
  then ([OnItem (systemMessage contextLengthText); OnLoading false], RunReturns)
  else if isRateLimit error
  then
    if (attempt <? MAX_RETRIES)%nat
    then ([Sleep (rateLimitDelay base attempt error)], NextAttempt)
    else ([OnItem (systemMessage (rateLimitText error)); OnLoading false],
          RunReturns)
  else if isClientError error
  then ([OnItem (systemMessage (rejectedText error)); OnLoading false],
        RunReturns)
  else ([], Rethrow).

(** What [await this.oai.responses.create(...)] does at one attempt. *)
Inductive Attempt :=
| StreamOpened (stream : Stream)
| Failed (error : ApiError).

(** How the retry loop is left: with a stream ([break]), by a [return]
    of [run()], by an error thrown on, or by its condition. *)
Inductive RetryOutcome :=
| Opened (stream : Stream)
| Returned
| Thrown (error : ApiError)
| LoopCondition.

(** [for (let attempt = 1; attempt <= MAX_RETRIES; attempt++)] over the
    attempt numbers still to come. *)
Fixpoint retryLoop (base : Number) (create : nat -> Attempt)
         (turnInput : list Item) (attempts : list nat)
  : list Effect * RetryOutcome :=
  match attempts with
  | [] => ([], LoopCondition)
  | attempt :: rest =>
      match create attempt with
      | StreamOpened stream => ([Create attempt turnInput], Opened stream)
      | Failed error =>
          match onCreateError base error attempt with
          | (effs, NextAttempt) =>
              let (effs', outcome) := retryLoop base create turnInput rest in
              (Create attempt turnInput :: effs ++ effs', outcome)
          | (effs, RunReturns) => (Create attempt turnInput :: effs, Returned)
          | (effs, Rethrow) => (Create attempt turnInput :: effs, Thrown error)
          end
      end
  end.


(** *** What the specification says, in its own words *)





(** The JSON text the specification gives for an aborted call, written
    out character by character. *)
Definition quoted (s : string) : string :=
  String dquote (s ++ String dquote EmptyString)%string.

Definition abortedOutputText : string :=
  ("{" ++ quoted "output" ++ ":" ++ quoted "aborted" ++ ","
   ++ quoted "metadata" ++ ":{" ++ quoted "exit_code" ++ ":1,"
   ++ quoted "duration_seconds" ++ ":0}}")%string.

(** What one [cancel()] emits: the clearing of the last response id when
    no call is pending, then [on_loading(false)]. *)
Definition cancelEffects (s : AgentLoop) : list Effect :=
  match pendingAborts s with
  | [] => [OnLastResponseId ""; OnLoading false]
  | _ :: _ => [OnLoading false]
  end.

(** The abort controllers in use are older than the next one [new]
    returns. *)
Definition storeOk (s : AgentLoop) : Prop :=
  (forall c, In c (abortedControllers s) -> (c < nextController s)%nat)
  /\ (forall c, execAbortController s = Some c -> (c < nextController s)%nat).

(** The additional items of the exec path for a call: those
    [handleExecCommand] returns when the call names the shell tool and its
    arguments parse, none otherwise. *)
Definition execPathItems (ExecInput Metadata : Type)
           (parseToolCallArguments : string -> option ExecInput)
           (handleExecCommand : ExecInput -> HandleExecCommandResult Metadata)
           (item : FunctionToolCall) : list Item :=
  let name := match item_function item with
              | Some f => function_name f
              | None => item_name item
              end in
  let rawArguments := match item_function item with
                      | Some f => function_arguments f
                      | None => item_arguments item
                      end in
  match parseToolCallArguments
          (match rawArguments with Some r => r | None => "{}" end) with
  | Some args =>
      if isShellTool name
      then match additionalItems (handleExecCommand args) with
           | Some items => items
           | None => []
           end
      else []
  | None => []
  end.

(** The arguments of a call parse. *)
Definition argumentsParse (ExecInput : Type)
           (parseToolCallArguments : string -> option ExecInput)
           (item : FunctionToolCall) : bool :=
  Js.isSome
    (parseToolCallArguments
       (match match item_function item with
              | Some f => function_arguments f
              | None => item_arguments item
              end with
        | Some r => r
        | None => "{}"
        end)).

Definition isCreate (e : Effect) : bool :=
  match e with Create _ _ => true | _ => false end.

Definition isOnItem (e : Effect) : bool :=
  match e with OnItem _ => true | _ => false end.


Definition count (p : Effect -> bool) (l : list Effect) : nat :=
  List.length (filter p l).

(** *** Stand-ins used to evaluate the engine on examples *)

Definition plainError : ApiError :=
  {| isTimeout := false; isConnectionError := false; err_status := None;
     err_code := None; err_type := None; err_param := None;
     err_message := None; err_request_id := None |}.

(** The failure of scenario S6: status 429 with a server hint. *)
Definition error429 : ApiError :=
  {| isTimeout := false; isConnectionError := false;
     err_status := Some 429%Z; err_code := None; err_type := None;
     err_param := None; err_message := Some "Please try again in 1.3s";
     err_request_id := None |}.

(** A 429 whose message is [msg]. *)
Definition errorWithMessage (msg : string) : ApiError :=
  {| isTimeout := false; isConnectionError := false;
     err_status := Some 429%Z; err_code := None; err_type := None;
     err_param := None; err_message := Some msg; err_request_id := None |}.




Definition liveInstance : AgentLoop :=
  {| terminated := false; hardAbort := false; currentStream := Some 7;
     generation := 3; execAbortController := Some 0; canceled := false;
     pendingAborts := ["call_1"; "call_2"]; abortedStreams := [];
     abortedControllers := []; nextController := 1; effects := [] |}.

Definition canceledInstance : AgentLoop := cancel liveInstance.

Definition shellCall : FunctionToolCall :=
  {| item_function := None; item_name := Some "shell";
     item_arguments := Some "{}"; item_call_id := Some "call_1";
     item_id := Some "fc_1" |}.

Definition parseAny (raw : string) : option unit := Some tt.

Definition execDenied (args : unit) : HandleExecCommandResult unit :=
  {| outputText := "aborted"; metadata := tt;
     additionalItems := Some [Message "user" "No, don't do that"] |}.

Definition stringifyPlain (text : string) (m : unit) : string := text.

End AgentLoop.

(** ** The body of [run()] ([agent-loop.ts]) *)

Module Run.

Import AgentLoop.

(** *** Staging and deferred delivery *)

(** The array [staged] of one [run()], and the timers that [stageItem] has
    set and that have not fired yet, oldest first, each with the [idx] and
    the [item] its callback closes over. *)
Record Staging := {
  staged : list (option Item);
  timers : list (nat * Item)
}.

Definition emptyStaging : Staging := {| staged := []; timers := [] |}.

(** [staged[idx] = undefined]; an index past the end makes the array grow,
    the new slots being [undefined]. *)
Fixpoint assignUndefined (idx : nat) (l : list (option Item))
  : list (option Item) :=
  match idx, l with
  | O, [] => [None]
  | O, _ :: rest => None :: rest
  | S i, [] => None :: assignUndefined i []
  | S i, x :: rest => x :: assignUndefined i rest
  end.

(** The closure [stageItem] of [run()]: an item of an older generation is
    dropped; otherwise it is pushed and a timer of 10 ms is set. *)
Definition stageItem (thisGeneration : Z) (s : AgentLoop) (st : Staging)
           (item : Item) : Staging :=
  if negb (thisGeneration =? generation s)%Z then st
  else
    let idx := List.length (staged st) in
    {| staged := staged st ++ [Some item];
       timers := timers st ++ [(idx, item)] |}.

(** The callback of the timer set by [stageItem]. *)
Definition deliver (thisGeneration : Z) (idx : nat) (item : Item)
           (s : AgentLoop) (st : Staging) : AgentLoop * Staging :=
  if (thisGeneration =? generation s)%Z && negb (canceled s)
     && negb (hardAbort s)
  then (emit (OnItem item) s,
        {| staged := assignUndefined idx (staged st); timers := timers st |})
  else (s, st).

Fixpoint removeAt (A : Type) (k : nat) (l : list A) : list A :=
  match k, l with
  | _, [] => []
  | O, _ :: rest => rest
  | S k', x :: rest => x :: removeAt k' rest
  end.

(** The event loop runs the [k]-th timer that is still pending; a timer
    fires once. *)
Definition fire (thisGeneration : Z) (k : nat) (s : AgentLoop) (st : Staging)
  : AgentLoop * Staging :=
  match nth_error (timers st) k with
  | Some (idx, item) =>
      deliver thisGeneration idx item s
              {| staged := staged st; timers := removeAt k (timers st) |}
  | None => (s, st)
  end.

(** The closure [flush], which [run()] schedules 30 ms after the turn
    loop has ended. *)
Definition flush (thisGeneration : Z) (s : AgentLoop) (st : Staging)
  : AgentLoop :=
  let s :=
    if negb (canceled s) && negb (hardAbort s)
       && (thisGeneration =? generation s)%Z
    then fold_left (fun s item => match item with
                                  | Some i => emit (OnItem i) s
                                  | None => s
                                  end)
                   (staged st) s
    else s in
  let s := set_pendingAborts [] s in
  emit (OnLoading false) s.

(** *** The checkpoints of the turn loop *)

(** How a statement of [run()] leaves the method: it goes on, or [run()]
    returns. *)
Inductive Flow := GoOn | Return.

(** The test at the head of [while (turnInput.length > 0)]. *)
Definition loopHead (s : AgentLoop) : AgentLoop * Flow :=
  if canceled s || hardAbort s then (emit (OnLoading false) s, Return)
  else (s, GoOn).

(** What follows the retry loop: the test for a cancellation that landed
    while the request was awaited, the assignment of [currentStream] and
    the guard against an undefined stream. *)
Definition afterOpen (stream : option Stream) (s : AgentLoop)
  : AgentLoop * Flow :=
  if canceled s || hardAbort s
  then (emit (OnLoading false) (abortStream stream s), Return)
  else
    let s := set_currentStream stream s in
    match stream with
    | None => (emit (OnLoading false) s, Return)
    | Some _ => (s, GoOn)
    end.

(** *** Errors *)

(** The [cause] of an error, as far as [run()] reads it. *)
Record ErrorCause := {
  cause_code : option string;
  cause_type : option string;
  cause_status : option Z;
  cause_message : option string;
  cause_request_id : option string;
  cause_requestId : option string
}.

(** A thrown object, as far as the [catch] blocks of [run()] read it: the
    three [instanceof] tests and the properties.  The status properties
    are numbers when they are present. *)
Record CaughtError := {
  instanceofError : bool;
  instanceofAPIConnectionTimeoutError : bool;
  instanceofAPIConnectionError : bool;
  e_name : option string;
  e_status : option Z;
  e_httpStatus : option Z;
  e_statusCode : option Z;
  e_code : option string;
  e_type : option string;
  e_param : option string;
  e_message : option string;
  e_request_id : option string;
  e_requestId : option string;
  e_cause : option ErrorCause
}.

(** What the [catch] block of the retry loop reads of [error]. *)
Definition errCtx (error : CaughtError) : ApiError :=
  {| isTimeout := instanceofAPIConnectionTimeoutError error;
     isConnectionError := instanceofAPIConnectionError error;
     err_status :=
       orElse (e_status error) (orElse (e_httpStatus error) (e_statusCode error));
     err_code := e_code error;
     err_type := e_type error;
     err_param := e_param error;
     err_message := e_message error;
     err_request_id := orElse (e_request_id error) (e_requestId error) |}.

(** What [await this.oai.responses.create(...)] does at one attempt, with
    the thrown object itself. *)
Inductive Request :=
| RequestOpened (stream : Stream)
| RequestFailed (error : CaughtError).

Inductive RequestOutcome :=
| GotStream (stream : Stream)
| RunReturned
| ErrorThrown (error : CaughtError)
| Exhausted.

(** The retry loop, keeping the object that [throw error] throws on. *)
Fixpoint requestLoop (base : Number) (create : nat -> Request)
         (turnInput : list Item) (attempts : list nat)
  : list Effect * RequestOutcome :=
  match attempts with
  | [] => ([], Exhausted)
  | attempt :: rest =>
      match create attempt with
      | RequestOpened stream => ([Create attempt turnInput], GotStream stream)
      | RequestFailed error =>
          match onCreateError base (errCtx error) attempt with
          | (effs, NextAttempt) =>
              let (effs', outcome) := requestLoop base create turnInput rest in
              (Create attempt turnInput :: effs ++ effs', outcome)
          | (effs, RunReturns) =>
              (Create attempt turnInput :: effs, RunReturned)
          | (effs, Rethrow) =>
              (Create attempt turnInput :: effs, ErrorThrown error)
          end
      end
  end.

(** The [catch] around the stream loop and its [finally]: an [AbortError]
    ends the run quietly when the instance has been cancelled; anything
    else is thrown on. *)
Definition streamCatch (err : CaughtError) (s : AgentLoop)
  : AgentLoop * option CaughtError :=
  let (s, thrown) :=
    if instanceofError err && optEq (e_name err) "AbortError"
    then if negb (canceled s) then (s, Some err)
         else (emit (OnLoading false) s, None)
    else (s, Some err) in
  (set_currentStream None s, thrown).

Definition isPrematureClose (err : CaughtError) : bool :=
  instanceofError err
  && (optEq (e_code err) "ERR_STREAM_PREMATURE_CLOSE"
      || match e_message err with
         | Some m => Js.includes "Premature close" m
         | None => false
         end).

Definition NETWORK_ERRNOS : list string :=
  ["ECONNRESET"; "ECONNREFUSED"; "EPIPE"; "ENOTFOUND"; "ETIMEDOUT"; "EAI_AGAIN"].

Definition NETWORK_ERRNOS_has (code : string) : bool :=
  existsb (String.eqb code) NETWORK_ERRNOS.

Definition isNetworkOrServerError (e : CaughtError) : bool :=
  if instanceofAPIConnectionError e then true
  else if match e_code e with
          | Some code => NETWORK_ERRNOS_has code
          | None => false
          end then true
  else if match e_cause e with
          | Some cause =>
              NETWORK_ERRNOS_has (match cause_code cause with
                                  | Some code => code
                                  | None => ""
                                  end)
          | None => false
          end then true
  else if match e_status e with
          | Some status => (500 <=? status)%Z
          | None => false
          end then true
  else match e_message e with
       | Some m => Js.test_ci "network" m || Js.test_ci "socket" m
                   || Js.test_ci "stream" m
       | None => false
       end.

Definition isInvalidRequestError (e : CaughtError) : bool :=
  if optEq (e_type e) "invalid_request_error"
     && optEq (e_code e) "model_not_found" then true
  else match e_cause e with
       | Some cause => optEq (cause_type cause) "invalid_request_error"
                       && optEq (cause_code cause) "model_not_found"
       | None => false
       end.

(** [a || b] on optional strings: the first that is present and not
    empty. *)
Definition orString (a b : option string) : option string :=
  match a with
  | Some s => if (s =? "")%string then b else a
  | None => b
  end.

Definition ofCause (A : Type) (f : ErrorCause -> option A) (e : CaughtError)
  : option A :=
  match e_cause e with Some cause => f cause | None => None end.

Definition modelNotFoundDetails (e : CaughtError) : string :=
  String.concat ", "
    [ ("Status: "
       ++ match match e_status e with
                | Some st => if (st =? 0)%Z then ofCause cause_status e
                             else Some st
                | None => ofCause cause_status e
                end with
          | Some st => if (st =? 0)%Z then "unknown" else showZ st
          | None => "unknown"
          end)%string;
      ("Code: " ++ orUnknown (orString (e_code e) (ofCause cause_code e)))%string;
      ("Type: " ++ orUnknown (orString (e_type e) (ofCause cause_type e)))%string;
      ("Message: "
       ++ orUnknown (orString (e_message e) (ofCause cause_message e)))%string ].

Definition modelNotFoundText (e : CaughtError) : string :=
  let reqId :=
    orElse (e_request_id e)
           (orElse (ofCause cause_request_id e) (ofCause cause_requestId e)) in
  ("⚠️  OpenAI rejected the request"
   ++ match reqId with
      | Some r => if (r =? "")%string then "" else " (request ID: " ++ r ++ ")"
      | None => ""
      end
   ++ ". Error details: " ++ modelNotFoundDetails e
   ++ ". Please verify your settings and try again.")%string.

Definition prematureCloseText : string :=
  "⚠️  Connection closed prematurely while waiting for the model. Please try again.".

Definition networkErrorText : string :=
  "⚠️  Network error while contacting OpenAI. Please check your connection and try again.".

(** How the promise of [run()] is settled. *)
Inductive RunEnd :=
| Resolved
| RejectedWith (err : CaughtError).

(** The outer [catch (err)] of [run()]. *)
Definition runCatch (err : CaughtError) : list Effect * RunEnd :=
  if isPrematureClose err
  then ([OnItem (systemMessage prematureCloseText); OnLoading false], Resolved)
  else if isNetworkOrServerError err
  then ([OnItem (systemMessage networkErrorText); OnLoading false], Resolved)
  else if isInvalidRequestError err
  then ([OnItem (systemMessage (modelNotFoundText err)); OnLoading false],
        Resolved)
  else ([], RejectedWith err).

(** The request of one turn as [run()] makes it: the retry loop inside
    the outer [try]; [inl] is the stream the turn goes on with. *)
Definition request (base : Number) (create : nat -> Request)
           (turnInput : list Item) : list Effect * (option Stream + RunEnd) :=
  match requestLoop base create turnInput (seq 1 MAX_RETRIES) with
  | (effs, GotStream stream) => (effs, inl (Some stream))
  | (effs, Exhausted) => (effs, inl None)
  | (effs, RunReturned) => (effs, inr Resolved)
  | (effs, ErrorThrown error) =>
      let (effs', e) := runCatch error in (effs ++ effs', inr e)
  end.

(** *** The events of the stream *)

(** The state of a call of [run()] while it reads the stream: the
    instance, the local variables, the staging, and the module-level set
    [alreadyProcessedResponses]. *)
Record RunState := {
  this : AgentLoop;
  locals : RunLocals;
  staging : Staging;
  processedIds : list (option string)
}.

(** The events [run()] reacts to; every other type of event is skipped. *)
Inductive StreamEvent :=
| OutputItemDone (item : Item)
| ResponseCompleted (output : list Item) (status : string) (id : string)
| OtherEvent (type : string).

(** [maybeReasoning.duration_ms = Date.now() - thinkingStart]. *)
Definition annotate (now thinkingStart : Z) (item : Item) : Item :=
  match item with
  | Reasoning _ => Reasoning (Some (now - thinkingStart)%Z)
  | _ => item
  end.

Section Stream.

Variable ExecInput : Type.
Variable Metadata : Type.
Variable parseToolCallArguments : string -> option ExecInput.
Variable handleExecCommand : ExecInput -> HandleExecCommandResult Metadata.
Variable stringifyOutput : string -> Metadata -> string.

(** The clock: [thinkingStart], read when [run()] starts. *)
Variable thinkingStart : Z.

(** The branch for [response.output_item.done]; [now] is [Date.now()]. *)
Definition onOutputItemDone (now : Z) (item : Item) (r : RunState) : RunState :=
  let item := annotate now thinkingStart item in
  match item with
  | FunctionCall call =>
      match callIdOf call with
      | Some callId =>
          if (callId =? "")%string then r
          else {| this := set_pendingAborts
                            (pendingAborts_add callId (pendingAborts (this r)))
                            (this r);
                  locals := locals r; staging := staging r;
                  processedIds := processedIds r |}
      | None => r
      end
  | _ =>
      {| this := this r; locals := locals r;
         staging := stageItem (thisGeneration (locals r)) (this r)
                              (staging r) item;
         processedIds := processedIds r |}
  end.

(** The branch for [response.completed], with no cancellation landing
    while [processEventsWithoutStreaming] is awaited. *)
Definition onResponseCompleted (output : list Item) (status id : string)
           (r : RunState) : RunState :=
  let g := thisGeneration (locals r) in
  let st :=
    if (g =? generation (this r))%Z && negb (canceled (this r))
    then fold_left (stageItem g (this r)) output (staging r)
    else staging r in
  let p := processEventsWithoutStreaming
             parseToolCallArguments handleExecCommand stringifyOutput
             (this r) output (processedIds r) in
  let completed := (status =? "completed")%string in
  {| this := emit (OnLastResponseId id) (this r);
     locals := {| thisGeneration := g;
                  lastResponseId := id;
                  turnInput := if completed then newTurnInput p
                               else turnInput (locals r) |};
     staging := if completed
                then fold_left (stageItem g (this r)) (emitted p) st
                else st;
     processedIds := if completed then alreadyProcessedResponses p
                     else processedIds r |}.

Definition onEvent (now : Z) (r : RunState) (event : StreamEvent) : RunState :=
  match event with
  | OutputItemDone item => onOutputItemDone now item r
  | ResponseCompleted output status id => onResponseCompleted output status id r
  | OtherEvent _ => r
  end.

End Stream.

(** *** Words for the statements *)

(** What happens to the staging of a run while it is under way: an item
    is staged, or a pending timer fires. *)
Inductive StagingStep :=
| Stage (item : Item)
| Fire (k : nat).

Definition stagingStep (thisGeneration : Z) (x : AgentLoop * Staging)
           (e : StagingStep) : AgentLoop * Staging :=
  match e with
  | Stage item => (fst x, stageItem thisGeneration (fst x) (snd x) item)
  | Fire k => fire thisGeneration k (fst x) (snd x)
  end.

Definition stagedBy (steps : list StagingStep) : list Item :=
  flat_map (fun e => match e with Stage item => [item] | Fire _ => [] end) steps.

(** The items handed to [onItem], oldest first. *)
Definition delivered (effs : list Effect) : list Item :=
  flat_map (fun e => match e with OnItem item => [item] | _ => [] end) effs.

(** The public methods, as calls that land between two steps of a run;
    of a new [run()] only the start is taken. *)
Inductive Call :=
| CallCancel
| CallTerminate
| CallRun (input : list Item) (previousResponseId : string).

Definition call (s : AgentLoop) (c : Call) : AgentLoop :=
  match c with
  | CallCancel => cancel s
  | CallTerminate => terminate s
  | CallRun input previousResponseId =>
      match runPrologue s input previousResponseId with
      | Normal (s', _) => s'
      | Throw _ => s
      end
  end.

(** The timers that are pending for an array [staged] whose first slot
    has index [n]: one for each slot that still holds its item. *)
Fixpoint pendingOf (n : nat) (l : list (option Item)) : list (nat * Item) :=
  match l with
  | [] => []
  | Some x :: rest => (n, x) :: pendingOf (S n) rest
  | None :: rest => pendingOf (S n) rest
  end.

(** What holds of a run that nothing disturbs: the flags stay as they
    were, a timer is pending for exactly the slots that hold an item, and
    the items delivered so far together with those of the pending timers
    are the items staged so far. *)
Definition undisturbed (s0 : AgentLoop) (all : list Item)
           (x : AgentLoop * Staging) : Prop :=
  generation (fst x) = generation s0
  /\ canceled (fst x) = false /\ hardAbort (fst x) = false
  /\ pendingAborts (fst x) = pendingAborts s0
  /\ timers (snd x) = pendingOf 0 (staged (snd x))
  /\ Permutation (delivered (effects (fst x)) ++ map snd (timers (snd x))) all.

(** A run of generation [g] is fenced off: the instance has moved on to a
    later generation, or the master controller has been aborted. *)
Definition fenced (g : Z) (s : AgentLoop) : Prop :=
  (g < generation s)%Z \/ hardAbort s = true.

(** [onLoading(false)]. *)
Definition isLoadingOver (e : Effect) : bool :=
  match e with OnLoading false => true | _ => false end.

(** [requestLoop] seen through [errCtx]. *)
Definition viewRequest (r : Request) : Attempt :=
  match r with
  | RequestOpened stream => StreamOpened stream
  | RequestFailed error => Failed (errCtx error)
  end.

Definition viewOutcome (o : RequestOutcome) : RetryOutcome :=
  match o with
  | GotStream stream => Opened stream
  | RunReturned => Returned
  | ErrorThrown error => Thrown (errCtx error)
  | Exhausted => LoopCondition
  end.

(** The condition of the first test of the catch block of the retry
    loop: a timeout, a status of 500 or more, or a connection error. *)
Definition isTransient (error : CaughtError) : bool :=
  isTimeout (errCtx error) || isServerError (errCtx error)
  || isConnectionError (errCtx error).

Definition isFunctionCall (item : Item) : bool :=
  match item with FunctionCall _ => true | _ => false end.

(** No two tool calls of the output have the same id, and none has an
    id of [seen]. *)
Fixpoint freshCalls (seen : list (option string)) (output : list Item) : bool :=
  match output with
  | [] => true
  | FunctionCall call :: rest =>
      negb (idSeen (item_id call) seen)
      && freshCalls (seen ++ [item_id call]) rest
  | _ :: rest => freshCalls seen rest
  end.

(** *** Stand-ins used to evaluate the run on examples *)

(** The service answers every request with the status 503. *)
Definition error503 : CaughtError :=
  {| instanceofError := true;
     instanceofAPIConnectionTimeoutError := false;
     instanceofAPIConnectionError := false;
     e_name := Some "Error"; e_status := Some 503%Z; e_httpStatus := None;
     e_statusCode := None; e_code := None; e_type := None; e_param := None;
     e_message := Some "Service Unavailable"; e_request_id := None;
     e_requestId := None; e_cause := None |}.

Definition serviceDown (attempt : nat) : Request := RequestFailed error503.

(** A run of [liveInstance] that reads its stream. *)
Definition readingState : RunState :=
  {| this := liveInstance;
     locals := {| thisGeneration := 3; lastResponseId := "resp_0";
                  turnInput := [] |};
     staging := emptyStaging;
     processedIds := [] |}.

(** The service answers the first two requests with the status 503, and
    opens the stream 7 at the third. *)
Definition recovering (attempt : nat) : Request :=
  if (attempt <? 3)%nat then RequestFailed error503 else RequestOpened 7%nat.

End Run.

(** ** The executor front end ([exec.ts]) *)

Module Exec.

(** [SandboxType] of [sandbox/interface.ts]. *)
Inductive SandboxType := NONE | MACOS_SEATBELT | LINUX_LANDLOCK.

(** [ExecInput]; a timeout is a whole number of milliseconds. *)
Record ExecInput := {
  cmd : list string;
  workdir : option string;
  timeoutInMillis : option Z
}.

(** The [SpawnOptions] that [exec] builds. *)
Record SpawnOptions := { timeout : Z; cwd : option string }.

Definition DEFAULT_TIMEOUT_MS : Z := 10000.

Section Front.

(** The sandboxed executor ([sandbox/macos-seatbelt.js]). *)
Variable execWithSeatbelt
  : list string -> SpawnOptions -> list string
    -> RawExec.Completion (RawExec.Promise RawExec.ExecResult).

(** [adaptCommandForPlatform], [os.constants.signals] and the decoder, as
    in [RawExec]; and what [spawn] does for an adapted command under
    given options: it throws, or it starts a child. *)
Variable adaptCommandForPlatform : list string -> list string.
Variable signals : string -> option Z.
Variable toStringUtf8 : RawExec.Buffer -> string.
Variable spawn : list string -> SpawnOptions -> RawExec.Spawned.

(** [process.cwd()] and [os.tmpdir()]. *)
Variable process_cwd : string.
Variable os_tmpdir : string.

(** [exec] of [raw-exec.ts], which does not read [_writableRoots]. *)
Definition rawExec (command : list string) (options : SpawnOptions)
           (_writableRoots : list string)
  : RawExec.Completion (RawExec.Promise RawExec.ExecResult) :=
  RawExec.exec adaptCommandForPlatform signals toStringUtf8 command
               (spawn (adaptCommandForPlatform command) options).

(** The options: [timeoutInMillis || DEFAULT_TIMEOUT_MS], and [cwd] when
    [workdir] is truthy.  A negative [timeoutInMillis] is truthy, and is
    handed on as it is. *)
Definition spawnOptions (input : ExecInput) : SpawnOptions :=
  {| timeout := match timeoutInMillis input with
                | Some t => if (t =? 0)%Z then DEFAULT_TIMEOUT_MS else t
                | None => DEFAULT_TIMEOUT_MS
                end;
     cwd := match workdir input with
            | Some w => if (w =? "")%string then None else Some w
            | None => None
            end |}.

Definition exec (input : ExecInput) (additionalWritableRoots : list string)
           (sandbox : SandboxType)
  : RawExec.Completion (RawExec.Promise RawExec.ExecResult) :=
  let execForSandbox :=
    match sandbox with
    | MACOS_SEATBELT => execWithSeatbelt
    | _ => rawExec
    end in
  let opts := spawnOptions input in
  let writableRoots := process_cwd :: os_tmpdir :: additionalWritableRoots in
  execForSandbox (cmd input) opts writableRoots.

End Front.

(** *** Stand-ins used to evaluate the front end on examples *)

(** No seatbelt on this platform. *)
Definition noSeatbelt (command : list string) (options : SpawnOptions)
           (writableRoots : list string)
  : RawExec.Completion (RawExec.Promise RawExec.ExecResult) :=
  RawExec.Throws "Error: sandbox-exec not found".

(** [spawn] of Node for a child that exits at once with the code 0. *)
Definition spawnQuiet (command : list string) (options : SpawnOptions)
  : RawExec.Spawned :=
  RawExec.nodeSpawn command (timeout options)
                    [RawExec.Exit (Some 0%Z) None].

End Exec.

(** ** The order of the approval policies *)

Module Policies.

Import Approvals.

(** The order of the policies, from the one that asks most. *)
Definition policyLe (p q : ApprovalPolicy) : bool :=
  match p, q with
  | Suggest, _ => true
  | AutoEdit, Suggest => false
  | AutoEdit, _ => true
  | FullAuto, FullAuto => true
  | FullAuto, _ => false
  end.

Definition isAskUser (a : SafetyAssessment) : bool :=
  match a with AskUser _ => true | _ => false end.

(** What holds of two assessments [a] and [b] of one command, [b] under
    a policy [q] that asks no more than the policy [p] of [a]. *)
Definition refines (p q : ApprovalPolicy) (a b : SafetyAssessment) : Prop :=
  (forall r g sandbox patch,
      a = AutoApprove r g sandbox patch -> b = a)
  /\ (forall r, a = Reject r <-> b = Reject r)
  /\ (forall r g patch, a = AutoApprove r g true patch -> p = FullAuto)
  /\ (q = FullAuto -> isAskUser b = false).

End Policies.

(** ** Regular expressions *)

(** The regular expressions of the command history and of the text
    input, with the backtracking matcher of ECMAScript for them.  Strings
    hold ASCII text: [\s] and [\w] are their ASCII parts. *)
Module Regex.

Inductive Re :=
| Class (p : ascii -> bool)
| Literal_i (w : string)
| Repeat (min : nat) (p : ascii -> bool)
| WordBoundary
| EndOfInput
| Seq (a b : Re).

(** [\w]. *)
Definition isWordChar (c : ascii) : bool :=
  let n := nat_of_ascii c in
  ((65 <=? n)%nat && (n <=? 90)%nat) || ((97 <=? n)%nat && (n <=? 122)%nat)
  || Js.isDigit c || Ascii.eqb c "_"%char.

(** [\s], a character being a code unit below 256: the tab, the line
    and page controls, the space, and the no-break space. *)
Definition isSpace (c : ascii) : bool :=
  AgentLoop.isWhitespace c || (nat_of_ascii c =? 160)%nat.

Definition isWordBefore (prev : option ascii) : bool :=
  match prev with Some c => isWordChar c | None => false end.

Definition isWordAfter (s : string) : bool :=
  match s with String c _ => isWordChar c | EmptyString => false end.

(** The character before the position that follows [s], when [prev] is
    the character before [s]. *)
Definition lastOf (prev : option ascii) (s : string) : option ascii :=
  last (map Some (list_ascii_of_string s)) prev.

(** What is still to be matched after a part of the expression: the
    continuation gets the character before the position and the rest of
    the input, and gives the rest of the input after the whole match. *)
Definition Cont := option ascii -> string -> option string.

(** [[...]{min,}], greedy: one more character of the class first, and
    the continuation when that fails. *)
Fixpoint repeatClass (p : ascii -> bool) (min : nat) (prev : option ascii)
         (s : string) (k : Cont) : option string :=
  match s with
  | String c s' =>
      if p c
      then match repeatClass p (pred min) (Some c) s' k with
           | Some r => Some r
           | None => if (min =? 0)%nat then k prev s else None
           end
      else if (min =? 0)%nat then k prev s else None
  | EmptyString => if (min =? 0)%nat then k prev s else None
  end.

(** A literal under the flag [i]. *)
Fixpoint literal (w : string) (prev : option ascii) (s : string) (k : Cont)
  : option string :=
  match w with
  | EmptyString => k prev s
  | String a w' =>
      match s with
      | String c s' => if Js.eqb_ci a c then literal w' (Some c) s' k else None
      | EmptyString => None
      end
  end.

Fixpoint matchRe (re : Re) (prev : option ascii) (s : string) (k : Cont)
  : option string :=
  match re with
  | Class p =>
      match s with
      | String c s' => if p c then k (Some c) s' else None
      | EmptyString => None
      end
  | Literal_i w => literal w prev s k
  | Repeat min p => repeatClass p min prev s k
  | WordBoundary =>
      if xorb (isWordBefore prev) (isWordAfter s) then k prev s else None
  | EndOfInput =>
      match s with
      | EmptyString => k prev s
      | String _ _ => None
      end
  | Seq a b => matchRe a prev s (fun prev' s' => matchRe b prev' s' k)
  end.

(** The match that starts at the position before [s], if there is one:
    its length. *)
Definition matchAt (re : Re) (prev : option ascii) (s : string) : option nat :=
  match matchRe re prev s (fun _ r => Some r) with
  | Some r => Some (String.length s - String.length r)%nat
  | None => None
  end.

(** [re.exec]: the leftmost match at or after the position before [s],
    which has index [index]: its index and its length. *)
Fixpoint searchFrom (re : Re) (prev : option ascii) (s : string) (index : nat)
  : option (nat * nat) :=
  match matchAt re prev s with
  | Some len => Some (index, len)
  | None =>
      match s with
      | String c s' => searchFrom re (Some c) s' (S index)
      | EmptyString => None
      end
  end.

(** [re.test(s)] and [s.match(re)] for an expression without the flag
    [g]. *)
Definition exec (re : Re) (s : string) : option (nat * nat) :=
  searchFrom re None s 0.

Definition test (re : Re) (s : string) : bool := Js.isSome (exec re s).

(** The loop [while ((m = re.exec(s)) !== null)] for an expression with
    the flag [g] whose matches are not empty: the matches from left to
    right, each with its index and its length; the search goes on where
    the match before ended.  [skip] counts the characters of that match
    that are still to be passed. *)
Fixpoint execAll (re : Re) (prev : option ascii) (s : string)
         (index skip : nat) : list (nat * nat) :=
  match skip with
  | S skip' =>
      match s with
      | String c s' => execAll re (Some c) s' (S index) skip'
      | EmptyString => []
      end
  | O =>
      match matchAt re prev s with
      | Some n =>
          (index, n)
          :: match s with
             | String c s' => execAll re (Some c) s' (S index) (pred n)
             | EmptyString => []
             end
      | None =>
          match s with
          | String c s' => execAll re (Some c) s' (S index) 0
          | EmptyString => []
          end
      end
  end.

(** *** Words for the statements *)

(** The longest prefix of [s] in the class [p], and what follows it. *)
Fixpoint span (p : ascii -> bool) (s : string) : string * string :=
  match s with
  | String c s' =>
      if p c then let (a, r) := span p s' in (String c a, r)
      else (EmptyString, s)
  | EmptyString => (EmptyString, EmptyString)
  end.

(** [r] is what is left of [s] after some of its characters. *)
Definition restOf (r s : string) : Prop :=
  (String.length r <= String.length s)%nat.

End Regex.

(** ** The command history ([command-history.ts]) *)

Module History.

Import Regex.

Definition DEFAULT_HISTORY_SIZE : Z := 1000.

(** [[A-Za-z0-9-_]]: letters, digits, the dash and the underscore. *)
Definition isTokenChar (c : ascii) : bool :=
  let n := nat_of_ascii c in
  ((65 <=? n)%nat && (n <=? 90)%nat) || ((97 <=? n)%nat && (n <=? 122)%nat)
  || ((48 <=? n)%nat && (n <=? 57)%nat)
  || Ascii.eqb c "-"%char || Ascii.eqb c "_"%char.

(** [/\bword\b/i]. *)
Definition wholeWord (w : string) : Re :=
  Seq WordBoundary (Seq (Literal_i w) WordBoundary).

Definition SENSITIVE_PATTERNS : list Re :=
  [ Seq WordBoundary (Seq (Repeat 20 isTokenChar) WordBoundary);
    wholeWord "password";
    wholeWord "secret";
    wholeWord "token";
    wholeWord "key" ].

Record HistoryConfig := {
  maxSize : Z;
  saveHistory : bool;
  sensitivePatterns : list string
}.

Record HistoryEntry := { command : string; timestamp : Z }.

Definition DEFAULT_HISTORY_CONFIG : HistoryConfig :=
  {| maxSize := DEFAULT_HISTORY_SIZE; saveHistory := true;
     sensitivePatterns := [] |}.

(** [array.slice(start)] for a whole number [start]: from the end when
    it is negative. *)
Definition slice (A : Type) (start : Z) (l : list A) : list A :=
  let len := Z.of_nat (List.length l) in
  let k := if (start <? 0)%Z then Z.max (len + start) 0 else Z.min start len in
  skipn (Z.to_nat k) l.

(** [command.trim() === ""]. *)
Definition isBlank (s : string) : bool :=
  forallb isSpace (list_ascii_of_string s).

Section History.

(** [new RegExp(patternStr).test(command)] for a pattern of the
    configuration; [None] when the constructor throws. *)
Variable RegExp_test : string -> string -> option bool.

Definition isSensitiveCommand (cmd : string)
           (additionalPatterns : list string) : bool :=
  existsb (fun pattern => test pattern cmd) SENSITIVE_PATTERNS
  || existsb (fun patternStr =>
                match RegExp_test patternStr cmd with
                | Some matched => matched
                | None => false
                end)
             additionalPatterns.

(** [saveCommandHistory]: what it hands to [fs.writeFile], as the value
    that is serialised; errors of the file system are swallowed. *)
Definition saveCommandHistory (history : list HistoryEntry)
           (config : HistoryConfig) : list HistoryEntry :=
  slice (- maxSize config) history.

(** [addToHistory] at the time [now]: the history it returns, and what
    it saved, if it saved. *)
Definition addToHistory (now : Z) (cmd : string)
           (history : list HistoryEntry) (config : HistoryConfig)
  : list HistoryEntry * option (list HistoryEntry) :=
  if negb (saveHistory config) || isBlank cmd then (history, None)
  else if isSensitiveCommand cmd (sensitivePatterns config)
  then (history, None)
  else
    let newHistory := history ++ [{| command := cmd; timestamp := now |}] in
    match last (map Some history) None with
    | Some lastEntry =>
        if (command lastEntry =? cmd)%string then (history, None)
        else (newHistory, Some (saveCommandHistory newHistory config))
    | None => (newHistory, Some (saveCommandHistory newHistory config))
    end.

(** The history after a series of commands, each with the time at which
    it is added. *)
Definition addAll (config : HistoryConfig) (commands : list (Z * string))
           (history : list HistoryEntry) : list HistoryEntry :=
  fold_left (fun h c => fst (addToHistory (fst c) (snd c) h config))
            commands history.

End History.

(** *** Words for the statements *)

(** No two neighbours of the list hold the same command. *)
Fixpoint noRepeat (history : list HistoryEntry) : Prop :=
  match history with
  | a :: (b :: _) as rest => command a <> command b /\ noRepeat rest
  | _ => True
  end.

(** What holds of a history that [addToHistory] has built. *)
Definition clean (RegExp_test : string -> string -> option bool)
           (config : HistoryConfig) (h : list HistoryEntry) : Prop :=
  noRepeat h
  /\ forall e, In e h ->
               isBlank (command e) = false
               /\ isSensitiveCommand RegExp_test (command e)
                                     (sensitivePatterns config) = false.

(** [s] does not end, or does not start, with a character of a word. *)
Definition endsOutsideWord (s : string) : Prop :=
  isWordBefore (lastOf None s) = false.

Definition startsOutsideWord (s : string) : Prop :=
  isWordAfter s = false.

(** [a] and [b] are the same up to the case of their letters. *)
Fixpoint same_ci (a b : string) : bool :=
  match a, b with
  | EmptyString, EmptyString => true
  | String x a', String y b' => Js.eqb_ci x y && same_ci a' b'
  | _, _ => false
  end.

(** The words of the built-in patterns. *)
Definition sensitiveWords : list string :=
  ["password"; "secret"; "token"; "key"].

(** A regular-expression engine that knows no pattern. *)
Definition noPatterns (patternStr cmd : string) : option bool := None.

End History.

(** ** The text input ([text-input.tsx]) *)

Module TextInput.

Import Regex.

(** [[\s,.;!?]]. *)
Definition isSeparator (c : ascii) : bool :=
  isSpace c || Ascii.eqb c ","%char || Ascii.eqb c "."%char
  || Ascii.eqb c ";"%char || Ascii.eqb c "!"%char || Ascii.eqb c "?"%char.

Definition isBackslash (c : ascii) : bool := Ascii.eqb c "092"%char.

(** [/[\s,.;!?]+/g], [/[\s,.;!?]+$/], [/\s*\S+$/] and [/\\+$/]. *)
Definition separators : Re := Repeat 1 isSeparator.

Definition trailingSeparators : Re := Seq (Repeat 1 isSeparator) EndOfInput.

Definition lastWord : Re :=
  Seq (Repeat 0 isSpace)
      (Seq (Repeat 1 (fun c => negb (isSpace c))) EndOfInput).

Definition trailingBackslashes : Re := Seq (Repeat 1 isBackslash) EndOfInput.

Definition newline : string := String (ascii_of_nat 10) EmptyString.

(** [s.length]. *)
Definition len (s : string) : Z := Z.of_nat (String.length s).

(** A relative index of [slice]: from the end when it is negative, and
    kept within the string. *)
Definition relativeIndex (i : Z) (s : string) : Z :=
  if (i <? 0)%Z then Z.max (len s + i) 0 else Z.min i (len s).

(** [s.slice(start, stop)]. *)
Definition slice (start stop : Z) (s : string) : string :=
  let from := relativeIndex start s in
  let to := relativeIndex stop s in
  substring (Z.to_nat from) (Z.to_nat (to - from)) s.

(** [s.replace(re, "")] for an expression without the flag [g]. *)
Definition removeFirst (re : Re) (s : string) : string :=
  match exec re s with
  | Some (index, n) =>
      (substring 0 index s
       ++ substring (index + n) (String.length s - (index + n)) s)%string
  | None => s
  end.

(** The index of the last match of the loop over the matches, 0 when
    there is none. *)
Definition lastMatchIndex (s : string) : Z :=
  fold_left (fun _ m => Z.of_nat (fst m)) (execAll separators None s 0 0) 0%Z.

Definition findPrevWordJump (prompt : string) (cursorOffset : Z) : Z :=
  let stringToCursorOffset :=
    removeFirst trailingSeparators (slice 0 cursorOffset prompt) in
  let lastMatch := lastMatchIndex stringToCursorOffset in
  if negb (lastMatch =? 0)%Z then (lastMatch + 1)%Z else lastMatch.

Definition findNextWordJump (prompt : string) (cursorOffset : Z) : Z :=
  match find (fun m => (cursorOffset <? Z.of_nat (fst m))%Z)
             (execAll separators None prompt 0 0) with
  | Some m => (Z.of_nat (fst m) + 1)%Z
  | None => len prompt
  end.

(** The [Key] of ink, as far as the handler reads it. *)
Record Key := {
  upArrow : bool;
  downArrow : bool;
  leftArrow : bool;
  rightArrow : bool;
  return_ : bool;
  ctrl : bool;
  shift : bool;
  tab : bool;
  backspace : bool;
  delete : bool;
  meta : bool
}.

Record State := { cursorOffset : Z; cursorWidth : Z }.

(** What a key press comes to: nothing; [onSubmit(originalValue)]; or
    [setState] with the next state, and [onChange(nextValue)] when the
    value has changed. *)
Inductive Handled :=
| Ignored
| Submit (value : string)
| Update (state : State) (onChange : option string).

(** The handler given to [useInput], for the value [originalValue] of
    the component; [onSubmit] says whether the property is set.  The
    three variables [nextValue], [nextCursorOffset] and [nextCursorWidth]
    are computed first; [None] is the [return] after [onSubmit]. *)
Definition edit (originalValue : string) (showCursor onSubmit : bool)
           (cursorOffset : Z) (input : string) (key : Key)
  : option (string * Z * Z) :=
  if return_ key then
    if meta key then
      Some ((slice 0 cursorOffset originalValue ++ newline
             ++ slice cursorOffset (len originalValue) originalValue)%string,
            (cursorOffset + 1)%Z, 0%Z)
    else
      let isAtEnd := (cursorOffset =? len originalValue)%Z in
      let trailingCount :=
        match exec trailingBackslashes originalValue with
        | Some (_, n) => n
        | None => 0%nat
        end in
      if isAtEnd && (trailingCount =? 1)%nat then
        let nextValue := (originalValue ++ newline)%string in
        Some (nextValue, len nextValue, 0%Z)
      else if onSubmit then None
      else Some (originalValue, cursorOffset, 0%Z)
  else if (ctrl key && (input =? "a")%string) || (meta key && leftArrow key)
  then Some (originalValue, 0%Z, 0%Z)
  else if (ctrl key && (input =? "e")%string) || (meta key && rightArrow key)
  then Some (originalValue, len originalValue, 0%Z)
  else if ctrl key && (input =? "b")%string then
    Some (originalValue,
          if showCursor then Z.max (cursorOffset - 1) 0 else cursorOffset, 0%Z)
  else if ctrl key && (input =? "f")%string then
    Some (originalValue,
          if showCursor then Z.min (cursorOffset + 1) (len originalValue)
          else cursorOffset, 0%Z)
  else if ctrl key && (input =? "d")%string then
    Some (if (cursorOffset <? len originalValue)%Z
          then (slice 0 cursorOffset originalValue
                ++ slice (cursorOffset + 1) (len originalValue)
                         originalValue)%string
          else originalValue,
          cursorOffset, 0%Z)
  else if ctrl key && (input =? "k")%string then
    Some (slice 0 cursorOffset originalValue, cursorOffset, 0%Z)
  else if ctrl key && (input =? "u")%string then
    Some (slice cursorOffset (len originalValue) originalValue, 0%Z, 0%Z)
  else if ctrl key && (input =? "w")%string then
    let left := slice 0 cursorOffset originalValue in
    let cut := match exec lastWord left with
               | Some (_, n) => Z.of_nat n
               | None => cursorOffset
               end in
    Some ((slice 0 (cursorOffset - cut) originalValue
           ++ slice cursorOffset (len originalValue) originalValue)%string,
          (cursorOffset - cut)%Z, 0%Z)
  else if meta key && (backspace key || delete key) then
    let stringToCursorOffset :=
      removeFirst trailingSeparators (slice 0 cursorOffset originalValue) in
    let lastMatch := lastMatchIndex stringToCursorOffset in
    let lastMatch :=
      if negb (lastMatch =? 0)%Z then (lastMatch + 1)%Z else lastMatch in
    Some ((slice 0 lastMatch stringToCursorOffset
           ++ slice cursorOffset (len originalValue) originalValue)%string,
          lastMatch, 0%Z)
  else if meta key && ((input =? "b")%string || leftArrow key) then
    Some (originalValue, findPrevWordJump originalValue cursorOffset, 0%Z)
  else if meta key && ((input =? "f")%string || rightArrow key) then
    Some (originalValue, findNextWordJump originalValue cursorOffset, 0%Z)
  else if leftArrow key then
    Some (originalValue,
          if showCursor then (cursorOffset - 1)%Z else cursorOffset, 0%Z)
  else if rightArrow key then
    Some (originalValue,
          if showCursor then (cursorOffset + 1)%Z else cursorOffset, 0%Z)
  else if backspace key || delete key then
    if (0 <? cursorOffset)%Z then
      Some ((slice 0 (cursorOffset - 1) originalValue
             ++ slice cursorOffset (len originalValue) originalValue)%string,
            (cursorOffset - 1)%Z, 0%Z)
    else Some (originalValue, cursorOffset, 0%Z)
  else
    Some ((slice 0 cursorOffset originalValue ++ input
           ++ slice cursorOffset (len originalValue) originalValue)%string,
          (cursorOffset + len input)%Z,
          if (1 <? len input)%Z then len input else 0%Z).

Definition handleInput (originalValue : string) (showCursor onSubmit : bool)
           (state : State) (input : string) (key : Key) : Handled :=
  if upArrow key || downArrow key || (ctrl key && (input =? "c")%string)
     || tab key || (shift key && tab key)
  then Ignored
  else
    match edit originalValue showCursor onSubmit (cursorOffset state)
               input key with
    | None => Submit originalValue
    | Some (nextValue, nextCursorOffset, nextCursorWidth) =>
        let nextCursorOffset :=
          if (cursorOffset state <? 0)%Z then 0%Z else nextCursorOffset in
        let nextCursorOffset :=
          if (len originalValue <? cursorOffset state)%Z
          then len originalValue else nextCursorOffset in
        Update {| cursorOffset := nextCursorOffset;
                  cursorWidth := nextCursorWidth |}
               (if (nextValue =? originalValue)%string then None
                else Some nextValue)
    end.

(** *** Words for the statements *)

(** The number of characters of the class [p] that [s] ends with. *)
Fixpoint trailing (p : ascii -> bool) (s : string) : nat :=
  match s with
  | EmptyString => 0
  | String c s' =>
      if forallb p (list_ascii_of_string s) then String.length s
      else trailing p s'
  end.

(** The character of [s] at the index [i], when [i] is one. *)
Definition charAt (i : Z) (s : string) : option ascii :=
  if (i <? 0)%Z then None else String.get (Z.to_nat i) s.

Definition separatorAt (i : Z) (s : string) : Prop :=
  exists c, charAt i s = Some c /\ isSeparator c = true.

(** The cursor is inside the next value, or it has left the value by a
    plain arrow key at one of its ends. *)
Definition inRange (value : string) (showCursor : bool) (c : Z) (key : Key)
           (nextValue : string) (nextCursorOffset : Z) : Prop :=
  (0 <= nextCursorOffset <= len nextValue)%Z
  \/ (showCursor = true /\ leftArrow key = true /\ c = 0%Z
      /\ nextCursorOffset = (-1)%Z)
  \/ (showCursor = true /\ rightArrow key = true /\ c = len value
      /\ nextCursorOffset = (len value + 1)%Z).

(** The value after a key press: the one given to [onChange], or the
    value as it was. *)
Definition valueAfter (value : string) (h : Handled) : string :=
  match h with
  | Update _ (Some nextValue) => nextValue
  | _ => value
  end.

(** A word: one character at least, and no white space. *)
Definition isWord (s : string) : bool :=
  forallb (fun c => negb (isSpace c)) (list_ascii_of_string s)
  && (1 <=? String.length s)%nat.

(** The next test of a chain of conditionals in [H]. *)
Ltac branch H :=
  match type of H with
  | (if ?b then _ else _) = _ => destruct b eqn:?
  end.

(** *** Stand-ins *)

Definition plainKey : Key :=
  {| upArrow := false; downArrow := false; leftArrow := false;
     rightArrow := false; return_ := false; ctrl := false; shift := false;
     tab := false; backspace := false; delete := false; meta := false |}.

Definition backspaceKey : Key :=
  {| upArrow := false; downArrow := false; leftArrow := false;
     rightArrow := false; return_ := false; ctrl := false; shift := false;
     tab := false; backspace := true; delete := false; meta := false |}.

Definition leftKey : Key :=
  {| upArrow := false; downArrow := false; leftArrow := true;
     rightArrow := false; return_ := false; ctrl := false; shift := false;
     tab := false; backspace := false; delete := false; meta := false |}.

Definition rightKey : Key :=
  {| upArrow := false; downArrow := false; leftArrow := false;
     rightArrow := true; return_ := false; ctrl := false; shift := false;
     tab := false; backspace := false; delete := false; meta := false |}.

Definition returnKey : Key :=
  {| upArrow := false; downArrow := false; leftArrow := false;
     rightArrow := false; return_ := true; ctrl := false; shift := false;
     tab := false; backspace := false; delete := false; meta := false |}.

Definition ctrlKey : Key :=
  {| upArrow := false; downArrow := false; leftArrow := false;
     rightArrow := false; return_ := false; ctrl := true; shift := false;
     tab := false; backspace := false; delete := false; meta := false |}.

End TextInput.

(** * Properties *)

(** ** The safety classifier *)

Module ApprovalsFacts.

Import Approvals.

(** *** [isSafeCommand] against the allowlist *)

Lemma isSafeCommand_sound (command : list string) (r : SafeCommandReason) :
  isSafeCommand command = Some r -> Allowlisted command.
Proof.
  destruct command as [|verb rest]; [discriminate|].
  unfold isSafeCommand; cbn [nth_error].
  do 13 (case_verb verb; [intros _; apply AllowVerb; simpl; tauto|]).
  case_verb verb.
  { destruct rest as [|c1 tl]; cbn [nth_error]; [discriminate|].
    do 5 (case_verb c1; [intros _; apply AllowGit; simpl; tauto|]).
    discriminate. }
  case_verb verb.
  { destruct rest as [|c1 tl]; cbn [nth_error]; [discriminate|].
    case_verb c1; [intros _; apply AllowCargo | discriminate]. }
  case_verb verb; [|discriminate].
  destruct rest as [|c1 [|c2 [|c3 [|c4 tl]]]]; cbn -[isValidSedNArg];
    try discriminate;
    try (rewrite ?andb_false_r; cbn; discriminate).
  destruct (String.eqb_spec c1 "-n") as [->|?];
    cbn -[isValidSedNArg]; [|discriminate].
  destruct (isValidSedNArg (Some c2)) eqn:Hrange; cbn; [|discriminate].
  intros _. now apply AllowSed.
Qed.

Lemma isSafeCommand_complete (command : list string) :
  Allowlisted command -> isSafeCommand command <> None.
Proof.
  intros [verb rest Hin | sub rest Hin | rest | range file Hrange].
  - simpl in Hin.
    repeat (destruct Hin as [<-|Hin]; [cbn; discriminate|]).
    contradiction.
  - simpl in Hin.
    repeat (destruct Hin as [<-|Hin]; [cbn; discriminate|]).
    contradiction.
  - cbn. discriminate.
  - unfold isSafeCommand. cbn -[isValidSedNArg].
    rewrite Hrange. cbn. discriminate.
Qed.

Lemma onAllowlist_iff (command : list string) :
  onAllowlist command = true <-> Allowlisted command.
Proof.
  unfold onAllowlist. split.
  - destruct (isSafeCommand command) eqn:E; [|discriminate].
    intros _. eapply isSafeCommand_sound; eauto.
  - intros H. apply isSafeCommand_complete in H.
    destruct (isSafeCommand command); [reflexivity | contradiction].
Qed.

(** A verb other than [git], [cargo] and [sed] decides alone. *)
Lemma isSafeCommand_verb_only (verb : string) (rest : list string) :
  verb <> "git" -> verb <> "cargo" -> verb <> "sed" ->
  isSafeCommand (verb :: rest) = isSafeCommand [verb].
Proof.
  intros Hgit Hcargo Hsed.
  apply String.eqb_neq in Hgit, Hcargo, Hsed.
  unfold isSafeCommand; cbn [nth_error].
  rewrite Hgit, Hcargo, Hsed. reflexivity.
Qed.

(** C10: a command whose first word is one of the thirteen read-only verbs
    is safe whatever follows it; for every first word other than [sed],
    [git] and [cargo] the answer of [isSafeCommand] does not depend on the
    other arguments; and a command is deemed safe exactly when it is one of
    the thirteen verbs, [git] with one of its five read-only subcommands,
    [cargo check], or [sed -n RANGE FILE] with exactly four words and a
    range that [isValidSedNArg] accepts. *)
Theorem isSafeCommand_allowlist :
  (forall verb rest,
      In verb alwaysSafeVerbs -> isSafeCommand (verb :: rest) <> None)
  /\ (forall verb rest,
         verb <> "git" -> verb <> "cargo" -> verb <> "sed" ->
         isSafeCommand (verb :: rest) = isSafeCommand [verb])
  /\ (forall command,
         isSafeCommand command <> None <-> Allowlisted command).
Proof.
  split; [|split].
  - intros verb rest Hin. apply isSafeCommand_complete. now apply AllowVerb.
  - apply isSafeCommand_verb_only.
  - intros command. split.
    + destruct (isSafeCommand command) eqn:E; [|congruence].
      intros _. eapply isSafeCommand_sound; eauto.
    + apply isSafeCommand_complete.
Qed.

(** *** The walk over a parsed script *)

(** [walkParts] succeeds exactly when no word is a grouping token, no entry
    is a comment, every operator is safe, every segment is allowlisted, and
    a first reason exists: one found earlier or the one of a segment. *)
Lemma walkParts_spec (parts : list ParseEntry) :
  forall cur fr,
    Js.isSome (walkParts parts cur fr) =
    negb (hasGroupingWord parts) && negb (hasComment parts)
    && forallb SAFE_SHELL_OPERATORS_has (operators parts)
    && forallb onAllowlist (segmentsFrom parts cur)
    && (Js.isSome fr
        || match segmentsFrom parts cur with [] => false | _ :: _ => true end).
Proof.
  unfold hasGroupingWord, hasComment.
  induction parts as [|part rest IH]; intros cur fr.
  - destruct cur as [|c cs]; cbn -[isSafeCommand].
    + now rewrite orb_false_r.
    + unfold onAllowlist.
      destruct (isSafeCommand (c :: cs)); cbn; [|reflexivity].
      rewrite orb_true_r. now destruct fr.
  - destruct part as [s | op | pattern | comment].
    + cbn -[isSafeCommand isGroupingToken].
      destruct (isGroupingToken s); [reflexivity|].
      rewrite IH. reflexivity.
    + cbn -[isSafeCommand SAFE_SHELL_OPERATORS_has].
      rewrite forallb_app.
      destruct cur as [|c cs]; cbn -[isSafeCommand SAFE_SHELL_OPERATORS_has].
      * destruct (SAFE_SHELL_OPERATORS_has op); cbn; [|btauto].
        rewrite IH. reflexivity.
      * unfold onAllowlist at 1.
        destruct (isSafeCommand (c :: cs)) as [a|];
          cbn -[isSafeCommand SAFE_SHELL_OPERATORS_has];
          [|btauto].
        destruct (SAFE_SHELL_OPERATORS_has op); cbn; [|btauto].
        rewrite IH.
        replace (Js.isSome match fr with
                           | Some _ => fr
                           | None => Some a
                           end) with true by now destruct fr.
        btauto.
    + cbn -[isSafeCommand].
      rewrite andb_false_r. cbn.
      now destruct (flushSegment cur fr) as [[seg fr']|].
    + cbn. now rewrite andb_false_r.
Qed.

Lemma isEntireShellExpressionSafe_spec (parts : list ParseEntry) :
  Js.isSome (isEntireShellExpressionSafe parts) =
  negb (hasGroupingWord parts) && negb (hasComment parts)
  && safeComposition parts
  && match segments parts with [] => false | _ :: _ => true end.
Proof.
  unfold safeComposition, segments.
  destruct parts as [|part rest].
  - reflexivity.
  - unfold isEntireShellExpressionSafe.
    rewrite walkParts_spec. cbn [Js.isSome orb]. btauto.
Qed.

Section ClassifierFacts.

Variable parse : string -> option (list ParseEntry).
Variable identify_files_needed : string -> list string.
Variable identify_files_added : string -> list string.
Variable path_resolve : string -> string.
Variable path_relative : string -> string -> string.
Variable path_isAbsolute : string -> bool.
Variable heredocBody : string -> option string.
Variable trim : string -> string.

Local Abbreviation classifier :=
  (canAutoApprove parse identify_files_needed identify_files_added
                  path_resolve path_relative path_isAbsolute heredocBody trim).
Local Abbreviation patchClassifier :=
  (canAutoApproveApplyPatch identify_files_needed identify_files_added
                            path_resolve path_relative path_isAbsolute).
Local Abbreviation confined :=
  (patchConfined identify_files_needed identify_files_added
                 path_resolve path_relative path_isAbsolute).

Lemma policyFallback_sandboxed (policy : ApprovalPolicy) :
  isUnsandboxedAutoApprove (policyFallback policy) = false
  /\ isReject (policyFallback policy) = false.
Proof. destruct policy; split; reflexivity. Qed.

Lemma patchClassifier_never_rejects blob roots policy :
  isReject (patchClassifier blob roots policy) = false.
Proof.
  unfold canAutoApproveApplyPatch.
  destruct policy; try reflexivity;
    destruct (isWritePatchConstrainedToWritablePaths _ _ _ _ _ _ _);
    reflexivity.
Qed.

(** [bash -lc script] reaches the policy fallback or the two shell paths. *)
Lemma canAutoApprove_bash script policy roots :
  classifier ["bash"; "-lc"; script] policy roots =
  match tryParseApplyPatch heredocBody trim script with
  | Some applyPatchArg => patchClassifier applyPatchArg roots policy
  | None =>
      match parse script with
      | None => policyFallback policy
      | Some bashCmd =>
          match isEntireShellExpressionSafe bashCmd with
          | Some shellSafe =>
              AutoApprove (reason shellSafe) (group shellSafe) false None
          | None => policyFallback policy
          end
      end
  end.
Proof. reflexivity. Qed.

Lemma canAutoApprove_parsed script policy roots parts :
  tryParseApplyPatch heredocBody trim script = None ->
  parse script = Some parts ->
  isUnsandboxedAutoApprove (classifier ["bash"; "-lc"; script] policy roots)
  = Js.isSome (isEntireShellExpressionSafe parts).
Proof.
  intros Htry Hparse.
  rewrite canAutoApprove_bash, Htry, Hparse.
  destruct (isEntireShellExpressionSafe parts); [reflexivity|].
  apply policyFallback_sandboxed.
Qed.

(** A script is taken for an [apply_patch] invocation exactly when it
    begins with the characters of that word, whatever follows them. *)
Lemma tryParseApplyPatch_prefix (script : string) :
  tryParseApplyPatch heredocBody trim script = None
  <-> Js.startsWith "apply_patch" script = false.
Proof.
  unfold tryParseApplyPatch.
  destruct (Js.startsWith "apply_patch" script); cbn.
  - destruct (heredocBody _); split; discriminate.
  - split; reflexivity.
Qed.

(** C2, as the code has it: for a [bash -lc] script that does not begin
    with the characters apply_patch and that parses, under every policy
    and every list of writable roots, the classifier auto-approves without
    a sandbox if and only if the parsed script has at least one command
    segment, no word that is a grouping token, no comment entry, every
    segment on the read-only allowlist and every operator in the safe set;
    so a script with an operator outside the safe set (a redirection, a
    glob) or with a grouping token never gets an unsandboxed
    auto-approve. *)
Theorem canAutoApprove_shell_composition
        (script : string) (policy : ApprovalPolicy) (roots : list string)
        (parts : list ParseEntry) :
  Js.startsWith "apply_patch" script = false ->
  parse script = Some parts ->
  (isUnsandboxedAutoApprove (classifier ["bash"; "-lc"; script] policy roots)
   = true
   <-> segments parts <> [] /\ hasGroupingWord parts = false
       /\ hasComment parts = false /\ safeComposition parts = true)
  /\ ((hasGroupingWord parts = true
       \/ exists op, In op (operators parts)
                     /\ SAFE_SHELL_OPERATORS_has op = false) ->
      isUnsandboxedAutoApprove (classifier ["bash"; "-lc"; script] policy roots)
      = false).
Proof.
  intros Htry Hparse. apply tryParseApplyPatch_prefix in Htry.
  rewrite (canAutoApprove_parsed policy roots Htry Hparse).
  rewrite isEntireShellExpressionSafe_spec.
  split.
  - split.
    + intros H.
      repeat (apply andb_prop in H; destruct H as [H ?]).
      apply negb_true_iff in H.
      match goal with Hc : negb _ = true |- _ => apply negb_true_iff in Hc end.
      repeat split; try assumption.
      destruct (segments parts); [discriminate | congruence].
    + intros (Hseg & Hgroup & Hcomment & Hsafe).
      rewrite Hgroup, Hcomment, Hsafe. cbn.
      destruct (segments parts); [contradiction | reflexivity].
  - intros [Hgroup | (op & Hin & Hop)].
    + now rewrite Hgroup.
    + assert (Hops : forallb SAFE_SHELL_OPERATORS_has (operators parts) = false).
      { destruct (forallb SAFE_SHELL_OPERATORS_has (operators parts)) eqn:E;
          [|reflexivity].
        rewrite forallb_forall in E. rewrite (E op Hin) in Hop. discriminate. }
      unfold safeComposition. rewrite Hops.
      now rewrite !andb_false_r.
Qed.

(** C9: the classifier rejects exactly when the first word is
    [apply_patch] and the command is not that word followed by one string;
    every other command, under every policy and every list of writable
    roots, is auto-approved or handed to the user. *)
Theorem canAutoApprove_reject_iff
        (command : list string) (policy : ApprovalPolicy) (roots : list string) :
  (isReject (classifier command policy roots) = true
   <-> nth_error command 0 = Some "apply_patch" /\ List.length command <> 2%nat)
  /\ (isReject (classifier command policy roots) = false ->
      (exists r g sandbox p,
          classifier command policy roots = AutoApprove r g sandbox p)
      \/ (exists p, classifier command policy roots = AskUser p)).
Proof.
  split.
  - unfold canAutoApprove.
    destruct command as [|c0 rest]; cbn [nth_error].
    + cbn. destruct policy; cbn; split; try discriminate; intros [? ?]; discriminate.
    + destruct (String.eqb_spec c0 "apply_patch") as [->|Hne].
      * destruct rest as [|c1 [|c2 tl]].
        -- cbn. split; [intros _; split; [reflexivity | discriminate] | reflexivity].
        -- rewrite patchClassifier_never_rejects.
           split; [discriminate | intros [_ H]; now contradiction H].
        -- cbn. split; [intros _; split; [reflexivity | discriminate] | reflexivity].
      * assert (Hno : forall a, isReject a = false ->
                       (isReject a = true <->
                        Some c0 = Some "apply_patch"
                        /\ List.length (c0 :: rest) <> 2%nat)).
        { intros a ->. split; [discriminate | intros [E _]; congruence]. }
        apply Hno.
        destruct (isSafeCommand (c0 :: rest)); [reflexivity|].
        destruct (isBashLc (c0 :: rest)) as [script|];
          [|apply policyFallback_sandboxed].
        destruct (tryParseApplyPatch heredocBody trim script);
          [apply patchClassifier_never_rejects|].
        destruct (parse script) as [bashCmd|];
          [|apply policyFallback_sandboxed].
        destruct (isEntireShellExpressionSafe bashCmd);
          [reflexivity | apply policyFallback_sandboxed].
  - destruct (classifier command policy roots) as [r g sandbox p | p | r].
    + intros _. left. now exists r, g, sandbox, p.
    + intros _. right. now exists p.
    + discriminate.
Qed.

(** *** Patches and writable roots *)

Lemma pathContains_within (root candidate : string) :
  pathContains path_relative path_isAbsolute root candidate = true
  <-> within path_relative path_isAbsolute root candidate.
Proof.
  unfold pathContains, within. cbn zeta.
  rewrite !andb_true_iff, !negb_true_iff, String.eqb_neq.
  split; [intros [[H1 H2] H3] | intros (H1 & H2 & H3)];
    repeat split; assumption.
Qed.

Lemma allPathsConstrained_spec (paths roots : list string) :
  allPathsConstrainedTowritablePaths path_resolve path_relative
                                     path_isAbsolute paths roots = true
  <-> forall p, In p paths ->
      exists root, In root roots
                   /\ within path_relative path_isAbsolute root (path_resolve p).
Proof.
  unfold allPathsConstrainedTowritablePaths, isPathConstrainedTowritablePaths.
  rewrite forallb_forall. split.
  - intros H p Hp. specialize (H p Hp). apply existsb_exists in H.
    destruct H as (root & Hroot & Hc). exists root. split; [assumption|].
    now apply pathContains_within.
  - intros H p Hp. destruct (H p Hp) as (root & Hroot & Hw).
    apply existsb_exists. exists root. split; [assumption|].
    now apply pathContains_within.
Qed.

Lemma isWritePatchConstrained_spec (blob : string) (roots : list string) :
  isWritePatchConstrainedToWritablePaths
    identify_files_needed identify_files_added
    path_resolve path_relative path_isAbsolute blob roots = true
  <-> confined blob roots.
Proof.
  unfold isWritePatchConstrainedToWritablePaths, patchConfined.
  rewrite andb_true_iff, !allPathsConstrained_spec. split.
  - intros [Hn Ha] p Hp. apply in_app_or in Hp. destruct Hp; auto.
  - intros H. split; intros p Hp; apply H; apply in_or_app; auto.
Qed.

(** A script recognised as an [apply_patch] heredoc is classified as its
    patch. *)
Lemma canAutoApprove_heredoc script blob policy roots :
  tryParseApplyPatch heredocBody trim script = Some blob ->
  classifier ["bash"; "-lc"; script] policy roots
  = patchClassifier blob roots policy.
Proof. intros H. now rewrite canAutoApprove_bash, H. Qed.

(** C3: for every patch blob handed to [apply_patch]: under [suggest] the
    classifier asks the user; under [auto-edit] and [full-auto] it
    auto-approves without a sandbox if and only if every needed and every
    added path, resolved, lies within some writable root (the relative path
    from the root is non-empty, does not begin with two dots and is not
    absolute); a patch that is not so confined is auto-approved with the
    sandbox required under [full-auto] and handed to the user under
    [auto-edit]. *)
Theorem canAutoApprove_apply_patch (blob : string) (roots : list string) :
  classifier ["apply_patch"; blob] Suggest roots
  = AskUser (Some {| patch := blob |})
  /\ (isUnsandboxedAutoApprove (classifier ["apply_patch"; blob] AutoEdit roots)
      = true <-> confined blob roots)
  /\ (isUnsandboxedAutoApprove (classifier ["apply_patch"; blob] FullAuto roots)
      = true <-> confined blob roots)
  /\ (~ confined blob roots ->
      classifier ["apply_patch"; blob] FullAuto roots
      = AutoApprove "Full auto mode" "Editing" true (Some {| patch := blob |})
      /\ classifier ["apply_patch"; blob] AutoEdit roots
         = AskUser (Some {| patch := blob |})).
Proof.
  assert (Hred : forall policy,
             classifier ["apply_patch"; blob] policy roots
             = patchClassifier blob roots policy) by reflexivity.
  rewrite !Hred. unfold canAutoApproveApplyPatch.
  pose proof (isWritePatchConstrained_spec blob roots) as Hspec.
  destruct (isWritePatchConstrainedToWritablePaths _ _ _ _ _ blob roots).
  - assert (Hc : confined blob roots) by now apply Hspec.
    split; [reflexivity|].
    split; [split; auto|].
    split; [split; auto|].
    intros Hno. contradiction.
  - assert (Hc : ~ confined blob roots)
      by (intros H; apply Hspec in H; discriminate).
    split; [reflexivity|].
    split; [split; [discriminate | intros; contradiction]|].
    split; [split; [discriminate | intros; contradiction]|].
    intros _. split; reflexivity.
Qed.

End ClassifierFacts.

End ApprovalsFacts.

(** Scenarios S1, S2 and S3 of the specification, and the two scripts
    with no command segment. *)
Example scenario_S1_read_only_ls :
  Approvals.classify ["ls"; "-la"; "/tmp"] Approvals.Suggest []
  = Approvals.AutoApprove "List directory" "Searching" false None.
Proof. reflexivity. Qed.

Example scenario_S2_pipe :
  Approvals.classify ["bash"; "-lc"; "ls -la | grep foo"] Approvals.Suggest []
  = Approvals.AutoApprove "List directory" "Searching" false None.
Proof. reflexivity. Qed.

Example scenario_S3_redirection :
  Approvals.classify ["bash"; "-lc"; "ls > /tmp/out"] Approvals.Suggest []
  = Approvals.AskUser None.
Proof. reflexivity. Qed.

(** Three scripts for which the right-hand side of the equivalence of the
    specification holds and which are not auto-approved without a sandbox:
    [echo] with a quoted parenthesis, whose one segment is allowlisted and
    which has no operator; the empty script; and the script that is one
    separator.  Under [suggest] the user is asked, under [full-auto] the
    sandbox is required. *)
Lemma safeComposition_not_sufficient :
  Approvals.tryParseApplyPatch Approvals.noHeredoc Approvals.idPath "echo '('"
  = None
  /\ Approvals.parseTable Approvals.exampleScripts "echo '('"
     = Some [Approvals.PString "echo"; Approvals.PString "("]
  /\ Approvals.segments [Approvals.PString "echo"; Approvals.PString "("]
     = [["echo"; "("]]
  /\ Approvals.safeComposition
       [Approvals.PString "echo"; Approvals.PString "("] = true
  /\ Approvals.classify ["bash"; "-lc"; "echo '('"] Approvals.Suggest []
     = Approvals.AskUser None
  /\ Approvals.parseTable Approvals.exampleScripts "" = Some []
  /\ Approvals.safeComposition [] = true
  /\ Approvals.classify ["bash"; "-lc"; ""] Approvals.Suggest []
     = Approvals.AskUser None
  /\ Approvals.parseTable Approvals.exampleScripts ";"
     = Some [Approvals.POp ";"]
  /\ Approvals.safeComposition [Approvals.POp ";"] = true
  /\ Approvals.classify ["bash"; "-lc"; ";"] Approvals.FullAuto []
     = Approvals.AutoApprove "Full auto mode" "Running commands" true None.
Proof. repeat split. Qed.

(** Scenario S2 through the theorem on parsed scripts. *)
Lemma canAutoApprove_shell_composition_witness :
  Js.startsWith "apply_patch" "ls -la | grep foo" = false
  /\ Approvals.isUnsandboxedAutoApprove
       (Approvals.classify ["bash"; "-lc"; "ls -la | grep foo"]
                           Approvals.Suggest [])
     = true.
Proof.
  split; [reflexivity|].
  refine (proj2 (proj1 (@ApprovalsFacts.canAutoApprove_shell_composition
                          (Approvals.parseTable Approvals.exampleScripts)
                          Approvals.noFiles Approvals.noFiles Approvals.idPath
                          Approvals.constRelative Approvals.posixIsAbsolute
                          Approvals.noHeredoc Approvals.idPath
                          "ls -la | grep foo" Approvals.Suggest []
                          [Approvals.PString "ls"; Approvals.PString "-la";
                           Approvals.POp "|"; Approvals.PString "grep";
                           Approvals.PString "foo"]
                          eq_refl eq_refl)) _).
  repeat split; discriminate.
Defined.

(** ** The raw executor *)

Module RawExecFacts.

Import RawExec.

Lemma totalBytes_cons (d : Buffer) (data : list Buffer) :
  totalBytes (d :: data) = (Z.of_nat (List.length d) + totalBytes data)%Z.
Proof.
  unfold totalBytes. cbn [List.concat].
  rewrite List.length_app. lia.
Qed.

(** What a bounded buffer keeps fits in what is left of the cap. *)
Lemma keepWithin_bound (cap : Z) (data : list Buffer) :
  forall seen, (seen <= cap)%Z ->
               (seen + totalBytes (keepWithin cap seen data) <= cap)%Z.
Proof.
  induction data as [|d rest IH]; intros seen Hseen; cbn [keepWithin].
  - unfold totalBytes. cbn. lia.
  - destruct (Z.leb_spec (seen + Z.of_nat (List.length d)) cap) as [Hle|Hgt].
    + rewrite totalBytes_cons. specialize (IH _ Hle). lia.
    + unfold totalBytes. cbn. lia.
Qed.

(** What is kept is a prefix of what arrived: nothing is kept after the
    first chunk that was dropped. *)
Lemma keepWithin_prefix (cap : Z) (data : list Buffer) :
  forall seen, exists dropped, data = keepWithin cap seen data ++ dropped.
Proof.
  induction data as [|d rest IH]; intros seen; cbn [keepWithin].
  - now exists [].
  - destruct (seen + Z.of_nat (List.length d) <=? cap)%Z.
    + destruct (IH (seen + Z.of_nat (List.length d))%Z) as [dropped E].
      exists dropped. cbn. now rewrite <- E.
    + now exists (d :: rest).
Qed.

Lemma onData_after_overflow (c : Capture) (data : Buffer) :
  hitMax c = true -> onData c data = c.
Proof. intros H. unfold onData. now rewrite H. Qed.

Lemma fold_onData_after_overflow (data : list Buffer) :
  forall c, hitMax c = true -> fold_left onData data c = c.
Proof.
  induction data as [|d rest IH]; intros c H; cbn [fold_left].
  - reflexivity.
  - rewrite onData_after_overflow by assumption. now apply IH.
Qed.

(** The listener keeps exactly the chunks of [keepWithin]. *)
Lemma fold_onData_chunks (data : list Buffer) :
  forall c, hitMax c = false ->
            chunks (fold_left onData data c)
            = chunks c ++ keepWithin MAX_BUFFER (numBytes c) data.
Proof.
  induction data as [|d rest IH]; intros c H; cbn [fold_left keepWithin].
  - now rewrite app_nil_r.
  - unfold onData at 2. rewrite H.
    destruct (numBytes c + Z.of_nat (List.length d) <=? MAX_BUFFER)%Z.
    + rewrite IH by reflexivity. cbn [chunks numBytes].
      now rewrite <- app_assoc.
    + rewrite fold_onData_after_overflow by reflexivity.
      cbn [chunks]. now rewrite app_nil_r.
Qed.

(** The events of a child are data only, or there is a first one that is
    not data. *)
Lemma first_settle (events : list ChildEvent) :
  forallb isData events = true
  \/ exists pre ev post,
       events = pre ++ ev :: post
       /\ forallb isData pre = true /\ isData ev = false.
Proof.
  induction events as [|ev rest IH]; [now left|].
  destruct (isData ev) eqn:Hev.
  - destruct IH as [Hall | (pre & ev' & post & -> & Hpre & Hev')].
    + left. cbn. now rewrite Hev.
    + right. exists (ev :: pre), ev', post. cbn. rewrite Hev. auto.
  - right. exists [], ev, rest. auto.
Qed.

Section ExecFacts.

Variable adaptCommandForPlatform : list string -> list string.
Variable signals : string -> option Z.
Variable toStringUtf8 : Buffer -> string.

Local Abbreviation step' := (step signals toStringUtf8).
Local Abbreviation run' := (runEvents signals toStringUtf8).
Local Abbreviation exec' :=
  (exec adaptCommandForPlatform signals toStringUtf8).

Lemma fold_step_stdout (events : list ChildEvent) :
  forall st, stdoutCapture (fold_left step' events st)
             = fold_left onData (stdoutData events) (stdoutCapture st).
Proof.
  induction events as [|ev rest IH]; intros st; [reflexivity|].
  cbn [fold_left]. rewrite IH. now destruct ev.
Qed.

Lemma fold_step_stderr (events : list ChildEvent) :
  forall st, stderrCapture (fold_left step' events st)
             = fold_left onData (stderrData events) (stderrCapture st).
Proof.
  induction events as [|ev rest IH]; intros st; [reflexivity|].
  cbn [fold_left]. rewrite IH. now destruct ev.
Qed.

(** Data events leave the promise as it is. *)
Lemma fold_step_data_promise (events : list ChildEvent) :
  forall st, forallb isData events = true ->
             promise (fold_left step' events st) = promise st.
Proof.
  induction events as [|ev rest IH]; intros st H; [reflexivity|].
  cbn [forallb] in H. apply andb_prop in H. destruct H as [Hev Hrest].
  cbn [fold_left]. rewrite IH by assumption.
  destruct ev; try discriminate; reflexivity.
Qed.

(** A settled promise stays as it is. *)
Lemma fold_step_settled (events : list ChildEvent) :
  forall st r, promise st = Fulfilled r ->
               promise (fold_left step' events st) = Fulfilled r.
Proof.
  induction events as [|ev rest IH]; intros st r H; [assumption|].
  cbn [fold_left]. apply IH.
  destruct ev; cbn; rewrite ?H; reflexivity.
Qed.

Lemma fold_step_never_rejected (events : list ChildEvent) :
  forall st, (forall reason, promise st <> Rejected reason) ->
             forall reason, promise (fold_left step' events st) <> Rejected reason.
Proof.
  induction events as [|ev rest IH]; intros st H; [assumption|].
  cbn [fold_left]. apply IH. intros reason.
  destruct ev; cbn; try apply H;
    (destruct (promise st) eqn:E; cbn; [discriminate | discriminate |]);
    intros E'; apply (H reason0); congruence.
Qed.

Lemma captured_stdout (events : list ChildEvent) :
  chunks (stdoutCapture (run' events))
  = keepWithin MAX_BUFFER 0 (stdoutData events).
Proof.
  unfold runEvents. rewrite fold_step_stdout.
  now rewrite fold_onData_chunks.
Qed.

Lemma captured_stderr (events : list ChildEvent) :
  chunks (stderrCapture (run' events))
  = keepWithin MAX_BUFFER 0 (stderrData events).
Proof.
  unfold runEvents. rewrite fold_step_stderr.
  now rewrite fold_onData_chunks.
Qed.

(** The promise after the first [exit]. *)
Lemma exec_exit command pre code signal post :
  adaptCommandForPlatform command <> [] ->
  forallb isData pre = true ->
  exec' command (Child (pre ++ Exit code signal :: post))
  = Returns
      (Fulfilled
         {| stdout := toStringUtf8
                        (List.concat (keepWithin MAX_BUFFER 0 (stdoutData pre)));
            stderr := toStringUtf8
                        (List.concat (keepWithin MAX_BUFFER 0 (stderrData pre)));
            exitCode := exitCodeOf signals code signal |}).
Proof.
  intros Hprog Hpre. unfold exec.
  destruct (adaptCommandForPlatform command) as [|prog args]; [contradiction|].
  f_equal.
  unfold runEvents. rewrite fold_left_app. cbn [fold_left].
  apply fold_step_settled. cbn [step promise].
  rewrite (fold_step_data_promise _ initialState Hpre). cbn [promise resolve initialState].
  fold (run' pre). now rewrite captured_stdout, captured_stderr.
Qed.

(** The promise after a first [error]. *)
Lemma exec_error command pre err post :
  adaptCommandForPlatform command <> [] ->
  forallb isData pre = true ->
  exec' command (Child (pre ++ Error err :: post))
  = Returns (Fulfilled {| stdout := ""; stderr := err; exitCode := 1 |}).
Proof.
  intros Hprog Hpre. unfold exec.
  destruct (adaptCommandForPlatform command) as [|prog args]; [contradiction|].
  f_equal.
  unfold runEvents. rewrite fold_left_app. cbn [fold_left].
  apply fold_step_settled. cbn [step promise].
  now rewrite (fold_step_data_promise _ initialState Hpre).
Qed.

(** [exec] throws exactly when the command has a program and [spawn]
    throws, and it throws what [spawn] threw. *)
Lemma exec_throws_iff (command : list string) (spawned : Spawned)
      (error : string) :
  exec' command spawned = Throws error
  <-> adaptCommandForPlatform command <> [] /\ spawned = SpawnThrows error.
Proof.
  unfold exec.
  destruct (adaptCommandForPlatform command) as [|prog args].
  - split; [discriminate | intros [H _]; now contradiction H].
  - destruct spawned as [e|events].
    + split; [intros [= ->]; split; [discriminate | reflexivity]
             | intros [_ [= ->]]; reflexivity].
    + split; [discriminate | intros [_ H]; discriminate H].
Qed.

(** The promise [exec] returns is pending or fulfilled. *)
Lemma exec_not_rejected (command : list string) (spawned : Spawned)
      (reason : string) :
  exec' command spawned <> Returns (Rejected reason).
Proof.
  unfold exec.
  destruct (adaptCommandForPlatform command); [discriminate|].
  destruct spawned as [e|events]; [discriminate|].
  intros [= H]. revert H.
  apply fold_step_never_rejected. intros r. discriminate.
Qed.

(** Every result [exec] delivers is one of three: the refusal of a command
    with no program, the report of a spawn failure, or the report of an
    exit, whose two strings are decoded from the kept chunks. *)
Lemma exec_fulfilled_cases (command : list string)
      (spawned : Spawned) (r : ExecResult) :
  exec' command spawned = Returns (Fulfilled r) ->
  (adaptCommandForPlatform command = []
   /\ r = {| stdout := ""; stderr := "command[0] is not a string";
             exitCode := 1 |})
  \/ (exists pre err post,
         spawned = Child (pre ++ Error err :: post)
         /\ forallb isData pre = true
         /\ r = {| stdout := ""; stderr := err; exitCode := 1 |})
  \/ (exists pre code signal post,
         spawned = Child (pre ++ Exit code signal :: post)
         /\ forallb isData pre = true
         /\ r = {| stdout :=
                     toStringUtf8
                       (List.concat (keepWithin MAX_BUFFER 0 (stdoutData pre)));
                   stderr :=
                     toStringUtf8
                       (List.concat (keepWithin MAX_BUFFER 0 (stderrData pre)));
                   exitCode := exitCodeOf signals code signal |}).
Proof.
  intros Hr.
  destruct (adaptCommandForPlatform command) as [|prog args] eqn:Hprog.
  { left. unfold exec in Hr. rewrite Hprog in Hr.
    split; [reflexivity | congruence]. }
  assert (Hne : adaptCommandForPlatform command <> [])
    by (rewrite Hprog; discriminate).
  right.
  destruct spawned as [e|events];
    [unfold exec in Hr; rewrite Hprog in Hr; discriminate|].
  destruct (first_settle events)
    as [Hall | (pre & ev & post & -> & Hpre & Hev)].
  - unfold exec in Hr. rewrite Hprog in Hr. unfold runEvents in Hr.
    rewrite (@fold_step_data_promise events initialState Hall) in Hr.
    discriminate.
  - destruct ev as [d | d | code signal | err]; try discriminate.
    + right. exists pre, code, signal, post.
      rewrite (@exec_exit command pre code signal post Hne Hpre) in Hr.
      injection Hr as <-. auto.
    + left. exists pre, err, post.
      rewrite (@exec_error command pre err post Hne Hpre) in Hr.
      injection Hr as <-. auto.
Qed.

(** C7 fails on the code.  [spawn] is called outside any [try] and before
    the promise is made, so when [spawn] throws, [exec] throws what
    [spawn] threw: no promise is returned, and the failure is not mapped
    to a result with exit code 1, which the doc comment of the function
    and the claim both ask for.  On the other paths the claim holds: the
    promise that [exec] returns is never rejected; a spawn failure that
    the child reports (its first event other than data is [error]) gives
    an empty stdout, the diagnostic in stderr and exit code 1; and when
    the child exits, the exit code is the child's code when there is one,
    otherwise 128 plus the number of the signal when the platform knows
    the signal, otherwise 1. *)
Theorem exec_throws_when_spawn_throws (command : list string) :
  (forall error,
      adaptCommandForPlatform command <> [] ->
      exec' command (SpawnThrows error) = Throws error)
  /\ (forall spawned error,
         exec' command spawned = Throws error ->
         adaptCommandForPlatform command <> []
         /\ spawned = SpawnThrows error)
  /\ (forall spawned reason, exec' command spawned <> Returns (Rejected reason))
  /\ (forall pre err post,
         adaptCommandForPlatform command <> [] ->
         forallb isData pre = true ->
         exec' command (Child (pre ++ Error err :: post))
         = Returns (Fulfilled {| stdout := ""; stderr := err; exitCode := 1 |}))
  /\ (forall pre code signal post,
         adaptCommandForPlatform command <> [] ->
         forallb isData pre = true ->
         exists out diagnostics,
           exec' command (Child (pre ++ Exit code signal :: post))
           = Returns
               (Fulfilled
                  {| stdout := out; stderr := diagnostics;
                     exitCode :=
                       match code, signal with
                       | Some c, _ => c
                       | None, Some sig =>
                           match signals sig with
                           | Some signalNum => 128 + signalNum
                           | None => 1
                           end
                       | None, None => 1
                       end |}))
  /\ (adaptCommandForPlatform command = [] ->
      forall spawned,
        exec' command spawned
        = Returns (Fulfilled {| stdout := "";
                                stderr := "command[0] is not a string";
                                exitCode := 1 |})).
Proof.
  split; [|split; [|split; [|split; [|split]]]].
  - intros error Hprog. now apply exec_throws_iff.
  - intros spawned error. apply exec_throws_iff.
  - intros spawned reason. apply exec_not_rejected.
  - intros. now apply exec_error.
  - intros pre code signal post Hprog Hpre.
    do 2 eexists. rewrite exec_exit by assumption.
    unfold exitCodeOf. now destruct code, signal.
  - intros Hnone spawned. unfold exec. now rewrite Hnone.
Qed.

(** C8: when the child exits, the stdout and the stderr of the result are
    decoded from the chunks each listener kept, which are the chunks that
    arrived while the running byte count of the stream stayed within
    [MAX_BUFFER]; the kept bytes of each stream number at most 102400; a
    stream that went over the cap keeps nothing more, while its later
    chunks are still received; and a result that is not the report of an
    exit holds no captured data at all: its stdout is empty and its stderr
    is the diagnostic of the failure. *)
Theorem exec_output_bounded
        (command : list string) (pre post : list ChildEvent)
        (code : option Z) (signal : option string) :
  adaptCommandForPlatform command <> [] ->
  forallb isData pre = true ->
  exec' command (Child (pre ++ Exit code signal :: post))
  = Returns
      (Fulfilled
         {| stdout := toStringUtf8
                        (List.concat (keepWithin MAX_BUFFER 0 (stdoutData pre)));
            stderr := toStringUtf8
                        (List.concat (keepWithin MAX_BUFFER 0 (stderrData pre)));
            exitCode := exitCodeOf signals code signal |})
  /\ (totalBytes (keepWithin MAX_BUFFER 0 (stdoutData pre)) <= 102400)%Z
  /\ (totalBytes (keepWithin MAX_BUFFER 0 (stderrData pre)) <= 102400)%Z
  /\ (forall events,
         chunks (stdoutCapture (run' events))
         = keepWithin MAX_BUFFER 0 (stdoutData events)
         /\ chunks (stderrCapture (run' events))
            = keepWithin MAX_BUFFER 0 (stderrData events))
  /\ (forall c data, hitMax c = true -> onData c data = c)
  /\ (forall spawned r,
         exec' command spawned = Returns (Fulfilled r) ->
         (exists before code' signal' after,
             spawned = Child (before ++ Exit code' signal' :: after)
             /\ forallb isData before = true
             /\ stdout r
                = toStringUtf8
                    (List.concat
                       (keepWithin MAX_BUFFER 0 (stdoutData before)))
             /\ stderr r
                = toStringUtf8
                    (List.concat
                       (keepWithin MAX_BUFFER 0 (stderrData before))))
         \/ (stdout r = "" /\ exitCode r = 1%Z)).
Proof.
  intros Hprog Hpre.
  split; [now apply exec_exit|].
  split; [|split; [|split; [|split]]];
    [| | | |
     intros spawned r Hr;
     destruct (@exec_fulfilled_cases command spawned r Hr)
       as [[_ ->] | [(before & err & after & _ & _ & ->)
                    | (before & code' & signal' & after & E & Hb & ->)]];
     [now right | now right
      | left; exists before, code', signal', after; auto]].
  - pose proof (@keepWithin_bound MAX_BUFFER (stdoutData pre) 0%Z) as H.
    unfold MAX_BUFFER in *. lia.
  - pose proof (@keepWithin_bound MAX_BUFFER (stderrData pre) 0%Z) as H.
    unfold MAX_BUFFER in *. lia.
  - intros events. split; [apply captured_stdout | apply captured_stderr].
  - apply onData_after_overflow.
Qed.

End ExecFacts.

End RawExecFacts.

(** A command whose program is the empty string: [spawn] of Node refuses
    the file name, and [exec] throws. *)
Lemma exec_throws_when_spawn_throws_witness :
  RawExec.exec RawExec.sameCommand RawExec.linuxSignals RawExec.asciiDecode
               [""] (RawExec.nodeSpawn [""] 10000 [])
  = RawExec.Throws "TypeError [ERR_INVALID_ARG_VALUE]".
Proof.
  exact (proj1 (@RawExecFacts.exec_throws_when_spawn_throws
                  RawExec.sameCommand RawExec.linuxSignals RawExec.asciiDecode
                  [""])
               "TypeError [ERR_INVALID_ARG_VALUE]" ltac:(discriminate)).
Defined.

(** [echo hi]: two bytes on stdout, then a clean exit. *)
Lemma exec_output_bounded_witness :
  RawExec.exec RawExec.sameCommand RawExec.linuxSignals RawExec.asciiDecode
               ["echo"; "hi"]
               (RawExec.Child
                  ([RawExec.StdoutData [Byte.x68; Byte.x69]]
                     ++ RawExec.Exit (Some 0%Z) None :: []))
  = RawExec.Returns
      (RawExec.Fulfilled
         {| RawExec.stdout := "hi"; RawExec.stderr := "";
            RawExec.exitCode := 0%Z |}).
Proof.
  exact (proj1 (@RawExecFacts.exec_output_bounded
                  RawExec.sameCommand RawExec.linuxSignals RawExec.asciiDecode
                  ["echo"; "hi"] [RawExec.StdoutData [Byte.x68; Byte.x69]] []
                  (Some 0%Z) None
                  ltac:(discriminate) eq_refl)).
Defined.

(** A child killed by SIGTERM reports 128 + 15, and one killed by a signal
    the platform does not know reports 1. *)
Example exit_code_of_signal :
  RawExec.exitCodeOf RawExec.linuxSignals None (Some "SIGTERM") = 143%Z
  /\ RawExec.exitCodeOf RawExec.linuxSignals None (Some "SIGWEIRD") = 1%Z
  /\ RawExec.exitCodeOf RawExec.linuxSignals None None = 1%Z
  /\ RawExec.exitCodeOf RawExec.linuxSignals (Some 3%Z) (Some "SIGTERM") = 3%Z.
Proof. repeat split. Qed.

(** ** The turn engine *)

Module AgentLoopFacts.

Import AgentLoop.

(** *** [cancel()] *)

Lemma cancel_fields (s : AgentLoop) :
  terminated s = false ->
  terminated (cancel s) = false
  /\ hardAbort (cancel s) = hardAbort s
  /\ currentStream (cancel s) = None
  /\ generation (cancel s) = (generation s + 1)%Z
  /\ execAbortController (cancel s) = Some (nextController s)
  /\ canceled (cancel s) = true
  /\ pendingAborts (cancel s) = pendingAborts s
  /\ abortedStreams (cancel s) = abortedStreams s
  /\ abortedControllers (cancel s)
     = match execAbortController s with
       | Some c => c :: abortedControllers s
       | None => abortedControllers s
       end
  /\ nextController (cancel s) = S (nextController s)
  /\ effects (cancel s) = effects s ++ cancelEffects s.
Proof.
  intros Hlive.
  destruct s as [t h cs g ec c pa ast ac nc eff]; cbn in Hlive; subst t.
  unfold cancel, cancelEffects.
  destruct ec as [x|], pa as [|id ids]; cbn;
    rewrite <- ?app_assoc; repeat split; reflexivity.
Qed.

Lemma cancel_storeOk (s : AgentLoop) :
  terminated s = false -> storeOk s -> storeOk (cancel s).
Proof.
  intros Hlive [Haborted Hexec].
  destruct (cancel_fields s Hlive)
    as (_ & _ & _ & _ & He & _ & _ & _ & Ha & Hn & _).
  unfold storeOk. rewrite He, Ha, Hn. split.
  - intros c Hc. destruct (execAbortController s) as [x|].
    + destruct Hc as [<-|Hc]; [specialize (Hexec x eq_refl) | apply Haborted in Hc]; lia.
    + apply Haborted in Hc. lia.
  - intros c [= <-]. lia.
Qed.

(** The last of [n + 1] calls is a call on the state after [n]. *)
Lemma cancelTimes_last (n : nat) :
  forall s, cancelTimes (S n) s = cancel (cancelTimes n s).
Proof.
  induction n as [|n IH]; intros s; [reflexivity|].
  change (cancelTimes (S (S n)) s) with (cancelTimes (S n) (cancel s)).
  rewrite IH. reflexivity.
Qed.

Lemma concat_repeat_last (A : Type) (x : list A) (n : nat) :
  List.concat (repeat x (S n)) = List.concat (repeat x n) ++ x.
Proof.
  induction n as [|n IH].
  - cbn. now rewrite app_nil_r.
  - change (List.concat (repeat x (S (S n))))
      with (x ++ List.concat (repeat x (S n))).
    rewrite IH at 1. rewrite app_assoc. reflexivity.
Qed.

(** What [n] calls add up to. *)
Lemma cancelTimes_fields (n : nat) (s : AgentLoop) :
  terminated s = false ->
  terminated (cancelTimes n s) = false
  /\ pendingAborts (cancelTimes n s) = pendingAborts s
  /\ generation (cancelTimes n s) = (generation s + Z.of_nat n)%Z
  /\ nextController (cancelTimes n s) = (nextController s + n)%nat
  /\ effects (cancelTimes n s)
     = effects s ++ List.concat (repeat (cancelEffects s) n).
Proof.
  intros Hlive. induction n as [|n IH].
  - cbn. rewrite app_nil_r.
    repeat split; try assumption; unfold AbortController in *; lia.
  - destruct IH as (Ht & Hp & Hg & Hn & He).
    rewrite cancelTimes_last.
    destruct (cancel_fields (cancelTimes n s) Ht)
      as (Ht' & _ & _ & Hg' & _ & _ & Hp' & _ & _ & Hn' & He').
    rewrite Ht', Hp', Hg', Hn', He', Hp, Hg, Hn, He.
    repeat split; try lia.
    rewrite <- app_assoc. f_equal.
    replace (cancelEffects (cancelTimes n s)) with (cancelEffects s)
      by (unfold cancelEffects; now rewrite Hp).
    now rewrite concat_repeat_last.
Qed.

(** C4, as the code has it.  After [cancel()] returns on an instance that
    is not terminated and whose abort controllers are older than the next
    fresh one: the abort controller of tool calls that was current has
    been aborted and replaced by a fresh one that is not aborted;
    [canceled] is true; [currentStream] is null; [generation] is one more;
    the callbacks invoked are the clearing of the last response id exactly
    when no call is pending, then [on_loading(false)]; [pendingAborts] is
    unchanged.  After [n >= 1] calls [canceled], [currentStream] and
    [pendingAborts] are as after one call, while [generation] has grown
    by [n], the callbacks of one call have been invoked [n] times and the
    abort controller has been replaced [n] times. *)
Theorem cancel_effect (s : AgentLoop) (n : nat) :
  terminated s = false ->
  storeOk s ->
  (1 <= n)%nat ->
  (forall c, execAbortController s = Some c ->
             In c (abortedControllers (cancel s)))
  /\ execAbortController (cancel s) = Some (nextController s)
  /\ ~ In (nextController s) (abortedControllers (cancel s))
  /\ execAbortController (cancel s) <> execAbortController s
  /\ canceled (cancel s) = true
  /\ currentStream (cancel s) = None
  /\ generation (cancel s) = (generation s + 1)%Z
  /\ effects (cancel s) = effects s ++ cancelEffects s
  /\ In (OnLoading false) (cancelEffects s)
  /\ (In (OnLastResponseId "") (cancelEffects s) <-> pendingAborts s = [])
  /\ pendingAborts (cancel s) = pendingAborts s
  /\ canceled (cancelTimes n s) = canceled (cancel s)
  /\ currentStream (cancelTimes n s) = currentStream (cancel s)
  /\ pendingAborts (cancelTimes n s) = pendingAborts (cancel s)
  /\ generation (cancelTimes n s) = (generation s + Z.of_nat n)%Z
  /\ effects (cancelTimes n s)
     = effects s ++ List.concat (repeat (cancelEffects s) n)
  /\ execAbortController (cancelTimes n s)
     = Some (nextController s + n - 1)%nat.
Proof.
  intros Hlive [Haborted Hexec] Hn.
  destruct (cancel_fields s Hlive)
    as (_ & _ & Hcs & Hg & He & Hc & Hp & _ & Ha & _ & Heff).
  destruct n as [|m]; [lia|].
  destruct (cancelTimes_fields m s Hlive) as (Htm & Hpm & _ & Hnm & _).
  destruct (cancel_fields (cancelTimes m s) Htm)
    as (_ & _ & Hcs' & _ & He' & Hc' & _).
  destruct (cancelTimes_fields (S m) s Hlive) as (_ & HpS & HgS & _ & HeS).
  rewrite cancelTimes_last.
  rewrite Hcs, Hg, He, Hc, Hp, Ha, Heff, Hcs', He', Hc', Hnm.
  rewrite <- cancelTimes_last, HpS, HgS, HeS.
  repeat match goal with |- _ /\ _ => split end; try reflexivity.
  - intros c Hc0. rewrite Hc0. now left.
  - intros Hin. destruct (execAbortController s) as [x|].
    + destruct Hin as [->|Hin];
        [specialize (Hexec _ eq_refl) | apply Haborted in Hin]; lia.
    + apply Haborted in Hin. lia.
  - intros E. symmetry in E. apply Hexec in E. lia.
  - unfold cancelEffects. destruct (pendingAborts s); cbn; auto.
  - unfold cancelEffects. destruct (pendingAborts s); cbn.
    + split; auto.
    + split; [intros [H|[]]; discriminate | discriminate].
  - f_equal. lia.
Qed.

(** [cancel()] never touches a stream: it resets [currentStream] before
    the call that would abort it. *)
Lemma cancel_keeps_streams (s : AgentLoop) :
  abortedStreams (cancel s) = abortedStreams s.
Proof.
  destruct (terminated s) eqn:Hlive.
  - unfold cancel. now rewrite Hlive.
  - now destruct (cancel_fields s Hlive) as (_ & _ & _ & _ & _ & _ & _ & H & _).
Qed.

End AgentLoopFacts.

(** The claim of C4 fails on the instance [liveInstance], whose current
    stream is stream 7: after [cancel()] that stream has not been aborted,
    and a second call does not leave the state of the first: [generation]
    is 5, not 4, [on_loading(false)] has been emitted twice, and another
    abort controller is installed. *)
Lemma cancel_not_idempotent :
  AgentLoop.terminated AgentLoop.liveInstance = false
  /\ AgentLoop.currentStream AgentLoop.liveInstance = Some 7
  /\ ~ In 7 (AgentLoop.abortedStreams (AgentLoop.cancel AgentLoop.liveInstance))
  /\ AgentLoop.generation (AgentLoop.cancel AgentLoop.liveInstance) = 4%Z
  /\ AgentLoop.generation (AgentLoop.cancelTimes 2 AgentLoop.liveInstance) = 5%Z
  /\ AgentLoop.effects (AgentLoop.cancel AgentLoop.liveInstance)
     = [AgentLoop.OnLoading false]
  /\ AgentLoop.effects (AgentLoop.cancelTimes 2 AgentLoop.liveInstance)
     = [AgentLoop.OnLoading false; AgentLoop.OnLoading false]
  /\ AgentLoop.cancelTimes 2 AgentLoop.liveInstance
     <> AgentLoop.cancel AgentLoop.liveInstance.
Proof.
  repeat match goal with |- _ /\ _ => split end; try reflexivity.
  - cbn. tauto.
  - discriminate.
Qed.

(** Three calls of [cancel()] on [liveInstance]. *)
Lemma cancel_effect_witness :
  AgentLoop.canceled (AgentLoop.cancel AgentLoop.liveInstance) = true
  /\ AgentLoop.generation (AgentLoop.cancelTimes 3 AgentLoop.liveInstance)
     = (AgentLoop.generation AgentLoop.liveInstance + Z.of_nat 3)%Z.
Proof.
  assert (Hok : AgentLoop.storeOk AgentLoop.liveInstance).
  { split; cbn; [tauto | intros c [= <-]; lia]. }
  pose proof (@AgentLoopFacts.cancel_effect AgentLoop.liveInstance 3
                eq_refl Hok ltac:(lia)) as H.
  split; [apply H | apply H].
Defined.

(** ** The start of a run *)

Module RunFacts.

Import AgentLoop.

Lemma fold_push (A B : Type) (f : A -> B) (l : list A) :
  forall init, fold_left (fun acc x => acc ++ [f x]) l init = init ++ map f l.
Proof.
  induction l as [|x l IH]; intros init; cbn.
  - now rewrite app_nil_r.
  - rewrite IH, <- app_assoc. reflexivity.
Qed.

(** The serialised payload is the text of the specification. *)
Lemma abortOutputFor_text (id : string) :
  abortOutputFor id = FunctionCallOutput (Some id) abortedOutputText.
Proof. reflexivity. Qed.

Lemma runPrologue_live (s : AgentLoop) (input : list Item) (prev : string) :
  terminated s = false ->
  exists s' locals,
    runPrologue s input prev = Normal (s', locals)
    /\ turnInput locals = map abortOutputFor (pendingAborts s) ++ input
    /\ pendingAborts s' = []
    /\ terminated s' = false
    /\ canceled s' = false
    /\ generation s' = (generation s + 1)%Z
    /\ thisGeneration locals = generation s'
    /\ lastResponseId locals = prev.
Proof.
  intros Hlive. unfold runPrologue. rewrite Hlive.
  destruct s as [t h cs g ec c pa ast ac nc eff]; cbn in Hlive; subst t.
  cbn [pendingAborts set_generation set_canceled set_currentStream
       newExecAbortController generation].
  destruct pa as [|id ids].
  - cbn. do 2 eexists. repeat split.
  - cbn [List.length Nat.ltb Nat.leb].
    do 2 eexists. split; [reflexivity|]. cbn.
    rewrite fold_push. repeat split.
Qed.

(** C5: a run that starts on an instance that is not terminated answers
    every pending call-id, in the order the ids were recorded, with a
    [function_call_output] that carries that id and the JSON text of an
    aborted call; these outputs come first in the turn input, before the
    input of the caller; the set of pending ids is empty afterwards, so the
    next run sends the input of its caller and nothing else. *)
Theorem run_drains_pendingAborts
        (s : AgentLoop) (input : list Item) (previousResponseId : string) :
  terminated s = false ->
  exists s' locals,
    runPrologue s input previousResponseId = Normal (s', locals)
    /\ turnInput locals
       = map (fun id => FunctionCallOutput (Some id) abortedOutputText)
             (pendingAborts s)
         ++ input
    /\ pendingAborts s' = []
    /\ (forall input2 previousResponseId2,
           exists s'' locals2,
             runPrologue s' input2 previousResponseId2 = Normal (s'', locals2)
             /\ turnInput locals2 = input2
             /\ pendingAborts s'' = []).
Proof.
  intros Hlive.
  destruct (runPrologue_live s input previousResponseId Hlive)
    as (s' & locals & Hrun & Hinput & Hpending & Hlive' & _).
  exists s', locals. repeat split; try assumption.
  intros input2 prev2.
  destruct (runPrologue_live s' input2 prev2 Hlive')
    as (s'' & locals2 & Hrun2 & Hinput2 & Hpending2 & _).
  exists s'', locals2. rewrite Hpending in Hinput2. now repeat split.
Qed.

End RunFacts.

(** A run on [liveInstance], which has two pending call-ids. *)
Lemma run_drains_pendingAborts_witness :
  exists s' locals,
    AgentLoop.runPrologue AgentLoop.liveInstance
                          [AgentLoop.Message "user" "hi"] "resp_1"
    = AgentLoop.Normal (s', locals)
    /\ AgentLoop.turnInput locals
       = [AgentLoop.FunctionCallOutput (Some "call_1")
                                       AgentLoop.abortedOutputText;
          AgentLoop.FunctionCallOutput (Some "call_2")
                                       AgentLoop.abortedOutputText;
          AgentLoop.Message "user" "hi"].
Proof.
  destruct (@RunFacts.run_drains_pendingAborts
              AgentLoop.liveInstance [AgentLoop.Message "user" "hi"]
              "resp_1" eq_refl)
    as (s' & locals & Hrun & Hinput & _).
  exists s', locals. split; [exact Hrun | exact Hinput].
Defined.

(** ** Tool calls *)

Module FunctionCallFacts.

Import AgentLoop.

Lemma answers_own (callId : option string) (output : string) :
  answers callId (FunctionCallOutput callId output) = true.
Proof.
  destruct callId as [c|]; cbn; [apply String.eqb_refl | reflexivity].
Qed.

Section Calls.

Variable ExecInput : Type.
Variable Metadata : Type.
Variable parseToolCallArguments : string -> option ExecInput.
Variable handleExecCommand : ExecInput -> HandleExecCommandResult Metadata.
Variable stringifyOutput : string -> Metadata -> string.

Local Abbreviation handle :=
  (handleFunctionCall parseToolCallArguments handleExecCommand stringifyOutput).
Local Abbreviation extras :=
  (execPathItems parseToolCallArguments handleExecCommand).

(** A cancelled instance does nothing for a tool call. *)
Lemma handleFunctionCall_canceled (s : AgentLoop) (item : FunctionToolCall) :
  canceled s = true -> handle s item = [].
Proof. intros H. unfold handleFunctionCall. now rewrite H. Qed.

(** C1, as the code has it: on a cancelled instance [handleFunctionCall]
    returns the empty list; for a tool call handled while the instance is
    not cancelled, and whose arguments parse or which carries [call_id],
    the returned list is one [function_call_output] with the call-id of
    the call, followed by the additional items of the exec path and
    nothing else; so the output comes before every additional item, and it
    is the only answer to the call when the additional items hold none. *)
Theorem handleFunctionCall_answers_first
        (s : AgentLoop) (item : FunctionToolCall) :
  (canceled s = true -> handle s item = [])
  /\ (canceled s = false ->
      argumentsParse parseToolCallArguments item = true
      \/ item_call_id item <> None ->
      (exists output,
          handle s item
          = FunctionCallOutput (callIdOf item) output :: extras item)
      /\ countAnswers (callIdOf item) (handle s item)
         = S (countAnswers (callIdOf item) (extras item))
      /\ (countAnswers (callIdOf item) (extras item) = 0%nat ->
          countAnswers (callIdOf item) (handle s item) = 1%nat)).
Proof.
  split; [apply handleFunctionCall_canceled|].
  intros Hlive Hid.
  assert (Hshape : exists output,
             handle s item
             = FunctionCallOutput (callIdOf item) output :: extras item).
  { unfold handleFunctionCall, execPathItems, argumentsParse in *.
    rewrite Hlive.
    destruct (parseToolCallArguments _) as [args|] eqn:Hparse.
    - destruct (isShellTool _); eexists; reflexivity.
    - destruct Hid as [Hp | Hc]; [discriminate|].
      unfold callIdOf, orElse.
      destruct (item_call_id item) as [c|]; [|contradiction].
      eexists; reflexivity. }
  destruct Hshape as [output Hshape].
  assert (Hcount : countAnswers (callIdOf item) (handle s item)
                   = S (countAnswers (callIdOf item) (extras item))).
  { rewrite Hshape. unfold countAnswers. cbn [filter].
    now rewrite answers_own. }
  split; [now exists output|]. split; [assumption|].
  intros Hnone. now rewrite Hcount, Hnone.
Qed.

(** The fallback processor hands a fresh [function_call] to
    [handleFunctionCall] and takes what it returns as the next turn input. *)
Lemma processEvents_single
      (s : AgentLoop) (call : FunctionToolCall) (seen : list (option string)) :
  canceled s = false ->
  idSeen (item_id call) seen = false ->
  newTurnInput
    (processEventsWithoutStreaming parseToolCallArguments handleExecCommand
                                   stringifyOutput s [FunctionCall call] seen)
  = handle s call.
Proof.
  intros Hlive Hfresh. unfold processEventsWithoutStreaming.
  rewrite Hlive. cbn -[idSeen handleFunctionCall].
  rewrite Hfresh. reflexivity.
Qed.

End Calls.

End FunctionCallFacts.

(** The claim of C1 fails on an instance that has been cancelled: the
    call [call_1] gets no output at all. *)
Lemma handleFunctionCall_canceled_answers_nothing :
  AgentLoop.canceled AgentLoop.canceledInstance = true
  /\ AgentLoop.callIdOf AgentLoop.shellCall = Some "call_1"
  /\ AgentLoop.handleFunctionCall AgentLoop.parseAny AgentLoop.execDenied
                                  AgentLoop.stringifyPlain
                                  AgentLoop.canceledInstance AgentLoop.shellCall
     = []
  /\ AgentLoop.countAnswers
       (Some "call_1")
       (AgentLoop.handleFunctionCall AgentLoop.parseAny AgentLoop.execDenied
                                     AgentLoop.stringifyPlain
                                     AgentLoop.canceledInstance
                                     AgentLoop.shellCall)
     = 0%nat.
Proof. repeat split. Qed.

(** A shell call that the user denies: the output, then the message of
    the exec path. *)
Lemma handleFunctionCall_answers_first_witness :
  AgentLoop.countAnswers
    (Some "call_1")
    (AgentLoop.handleFunctionCall AgentLoop.parseAny AgentLoop.execDenied
                                  AgentLoop.stringifyPlain
                                  AgentLoop.liveInstance AgentLoop.shellCall)
  = 1%nat.
Proof.
  exact (proj2 (proj2 (proj2 (@FunctionCallFacts.handleFunctionCall_answers_first
                                unit unit AgentLoop.parseAny AgentLoop.execDenied
                                AgentLoop.stringifyPlain AgentLoop.liveInstance
                                AgentLoop.shellCall)
                             eq_refl (or_introl eq_refl)))
               eq_refl).
Defined.

(** ** JavaScript numbers *)

Module NumberFacts.
Import JsNumber.















End NumberFacts.

(** ** Retries *)

Module RetryFacts.

Import AgentLoop.

Lemma count_app (p : Effect -> bool) (a b : list Effect) :
  count p (a ++ b) = (count p a + count p b)%nat.
Proof. unfold count. now rewrite filter_app, List.length_app. Qed.

(** What the [catch] block leaves behind, by the way it ends: nothing is
    shown before another attempt or a rethrow, and one system message is
    shown, followed by [on_loading(false)], before [run()] returns. *)
Lemma onCreateError_shape (base : Number) (error : ApiError) (attempt : nat) :
  match onCreateError base error attempt with
  | (effs, NextAttempt) => effs = [] \/ exists d, effs = [Sleep d]
  | (effs, RunReturns) =>
      exists text, effs = [OnItem (systemMessage text); OnLoading false]
  | (effs, Rethrow) => effs = []
  end.
Proof.
  unfold onCreateError.
  destruct ((isTimeout error || isServerError error || isConnectionError error)
            && (attempt <? MAX_RETRIES)%nat); [now left|].
  destruct (isTooManyTokensError error); [now eexists|].
  destruct (isRateLimit error).
  - destruct (attempt <? MAX_RETRIES)%nat; [right|]; now eexists.
  - destruct (isClientError error); [now eexists | reflexivity].
Qed.





(** *** The hint of the message *)













(** *** The number of the hint *)




(** *** The product of the hint is a number *)







(** *** The delay *)









End RetryFacts.

(** Scenario S6: the hint of the server, 1.3 seconds, gives a delay of
    1300 ms.  A hint of 1.005 seconds gives a delay below 1005 ms, the
    double 1004.9999999999999. *)
Example scenario_S6_server_hint :
  AgentLoop.retryHint "Please try again in 1.3s" = Some "1.3"
  /\ JsNumber.isInteger
       (AgentLoop.rateLimitDelay (JsNumber.ofInteger 2500) 1
                                 AgentLoop.error429)
       1300
  /\ AgentLoop.rateLimitDelay (JsNumber.ofInteger 2500) 1
                              (AgentLoop.errorWithMessage
                                 "Please try again in 1.005s")
     = S754_finite false 8840073487319039 (-43).
Proof. repeat split; vm_compute; reflexivity. Qed.

(** Numbers as [parseInt] and [parseFloat] read them: a tenth; an
    integer past [2^53], which is rounded (to [10^20], whose mantissa is
    [5^20 * 2^6]); digits without end, which give [Infinity]; and a dot
    alone, which gives [NaN]. *)
Example numbers_read :
  AgentLoop.parseFloat "0.1" = S754_finite false 7205759403792794 (-56)
  /\ AgentLoop.parseInt10 "99999999999999999999"
     = S754_finite false 6103515625000000 14
  /\ AgentLoop.parseInt10 "9007199254740993"
     = S754_finite false 4503599627370496 1
  /\ AgentLoop.parseFloat
       (String.concat "" (repeat "9999999999" 31)) = S754_infinity false
  /\ AgentLoop.parseFloat "." = JsNumber.NaN
  /\ AgentLoop.parseInt10 "ms" = JsNumber.NaN.
Proof. repeat split; vm_compute; reflexivity. Qed.



(** ** Further properties of the classifier *)

Module ClassifierExtras.

Import Approvals.

Lemma allDigits_cons (c : ascii) (s : string) :
  allDigits (String c s) = Js.isDigit c && allDigits s.
Proof. reflexivity. Qed.

(** [spanDigits] splits a string into its longest prefix of digits and a
    rest that does not start with a digit. *)
Lemma spanDigits_split (s : string) :
  s = (fst (Js.spanDigits s) ++ snd (Js.spanDigits s))%string
  /\ allDigits (fst (Js.spanDigits s)) = true
  /\ stopsDigits (snd (Js.spanDigits s)).
Proof.
  induction s as [|c s IH]; [cbn; auto|].
  cbn [Js.spanDigits]. destruct (Js.isDigit c) eqn:Hc.
  - destruct (Js.spanDigits s) as [d r]. cbn [fst snd] in *.
    destruct IH as (E & Hd & Hr).
    rewrite allDigits_cons, Hc, Hd.
    repeat split; [cbn; now f_equal | assumption].
  - cbn [fst snd]. repeat split. exact Hc.
Qed.

Lemma spanDigits_app (d r : string) :
  allDigits d = true -> stopsDigits r ->
  Js.spanDigits (d ++ r) = (d, r).
Proof.
  induction d as [|c d IH]; intros Hd Hr.
  - destruct r as [|c r]; [reflexivity|]. cbn in *. now rewrite Hr.
  - rewrite allDigits_cons in Hd. apply andb_prop in Hd. destruct Hd as [Hc Hd].
    cbn [String.append Js.spanDigits]. now rewrite Hc, IH.
Qed.

(** [\d+] followed by [k], in words. *)
Lemma digitsThen_iff (k : string -> bool) (s : string) :
  digitsThen k s = true
  <-> exists d r, s = (d ++ r)%string /\ d <> EmptyString
                  /\ allDigits d = true /\ stopsDigits r /\ k r = true.
Proof.
  unfold digitsThen. split.
  - destruct (spanDigits_split s) as (E & Hd & Hr).
    destruct (Js.spanDigits s) as [d r]. cbn in *.
    destruct d as [|c d]; [discriminate|].
    intros Hk. exists (String c d), r. repeat split; try assumption.
    discriminate.
  - intros (d & r & -> & Hne & Hd & Hr & Hk).
    rewrite spanDigits_app by assumption.
    destruct d; [contradiction | assumption].
Qed.

(** The argument [isValidSedNArg] accepts is a line number or a pair of
    line numbers followed by [p], as the regular expression of the source
    says. *)
Theorem isValidSedNArg_iff (s : string) :
  isValidSedNArg (Some s) = true <-> SedRange s.
Proof.
  unfold isValidSedNArg. rewrite digitsThen_iff. split.
  - intros (d & r & -> & Hne & Hd & Hr & Hk).
    apply orb_prop in Hk. destruct Hk as [Hp | Hcomma].
    + apply String.eqb_eq in Hp. subst r. now apply SedLine.
    + destruct r as [|c r']; [discriminate|].
      apply andb_prop in Hcomma. destruct Hcomma as [Hc Hlast].
      apply Ascii.eqb_eq in Hc. subst c.
      apply digitsThen_iff in Hlast.
      destruct Hlast as (m & last & -> & Hm & Hmd & _ & Hp).
      apply String.eqb_eq in Hp. subst last.
      now apply SedLines.
  - intros [n Hn Hd | n m Hn Hd Hm Hmd].
    + exists n, "p". repeat split; try assumption; try reflexivity.
    + exists n, ("," ++ m ++ "p")%string.
      split; [reflexivity|]. split; [assumption|]. split; [assumption|].
      split; [reflexivity|].
      cbn. apply digitsThen_iff.
      exists m, "p". repeat split; try assumption; try reflexivity.
Qed.

Lemma isBashLc_inv (command : list string) (script : string) :
  isBashLc command = Some script -> command = ["bash"; "-lc"; script].
Proof.
  destruct command as [|c0 [|c1 [|c2 [|c3 tl]]]]; try discriminate.
  cbn. destruct (String.eqb_spec c0 "bash"), (String.eqb_spec c1 "-lc");
    cbn; try discriminate.
  intros [= <-]. now subst.
Qed.

Section Justified.

Variable parse : string -> option (list ParseEntry).
Variable identify_files_needed : string -> list string.
Variable identify_files_added : string -> list string.
Variable path_resolve : string -> string.
Variable path_relative : string -> string -> string.
Variable path_isAbsolute : string -> bool.
Variable heredocBody : string -> option string.
Variable trim : string -> string.

Local Abbreviation classifier :=
  (canAutoApprove parse identify_files_needed identify_files_added
                  path_resolve path_relative path_isAbsolute heredocBody trim).
Local Abbreviation confined :=
  (patchConfined identify_files_needed identify_files_added
                 path_resolve path_relative path_isAbsolute).

Lemma patch_unsandboxed (blob : string) (roots : list string)
      (policy : ApprovalPolicy) :
  isUnsandboxedAutoApprove
    (canAutoApproveApplyPatch identify_files_needed identify_files_added
                              path_resolve path_relative path_isAbsolute
                              blob roots policy) = true ->
  policy <> Suggest /\ confined blob roots.
Proof.
  unfold canAutoApproveApplyPatch.
  pose proof (@ApprovalsFacts.isWritePatchConstrained_spec
                identify_files_needed identify_files_added path_resolve
                path_relative path_isAbsolute blob roots) as Hspec.
  destruct policy; try discriminate;
    destruct (isWritePatchConstrainedToWritablePaths _ _ _ _ _ blob roots);
    try discriminate; intros _; (split; [discriminate | now apply Hspec]).
Qed.

(** Properties P3 and P4 of the specification, as the code has them.  A
    command that is auto-approved without a sandbox is on the read-only
    allowlist; or it is a [bash -lc] script that parses to a safe
    composition with at least one segment and no grouping token; or it is
    taken for a patch, under a policy other than [suggest], and every
    path that the patch engine finds in the text taken for the patch lies
    within a writable root, which is so when it finds none.  Taken for a
    patch is [apply_patch] with one argument, the text being the
    argument, and every [bash -lc] script that begins with the characters
    apply_patch, whatever follows them: the text is the body of the
    heredoc when what follows is one, and all that follows otherwise,
    trimmed. *)
Theorem unsandboxed_auto_approve_justified
        (command : list string) (policy : ApprovalPolicy) (roots : list string) :
  isUnsandboxedAutoApprove (classifier command policy roots) = true ->
  Allowlisted command
  \/ (exists script parts,
         command = ["bash"; "-lc"; script]
         /\ Js.startsWith "apply_patch" script = false
         /\ parse script = Some parts
         /\ safeComposition parts = true
         /\ hasGroupingWord parts = false
         /\ segments parts <> [])
  \/ (exists text,
         (command = ["apply_patch"; text]
          \/ exists script,
               command = ["bash"; "-lc"; script]
               /\ Js.startsWith "apply_patch" script = true
               /\ text = trim match heredocBody (Js.slice 11 script) with
                              | Some body => body
                              | None => Js.slice 11 script
                              end)
         /\ policy <> Suggest
         /\ confined text roots).
Proof.
  unfold canAutoApprove.
  destruct command as [|c0 rest]; cbn [nth_error].
  - cbn. destruct policy; discriminate.
  - destruct (String.eqb_spec c0 "apply_patch") as [->|Hne].
    + destruct rest as [|c1 [|c2 tl]]; try discriminate.
      intros H. apply patch_unsandboxed in H.
      right. right. exists c1. split; [now left | assumption].
    + destruct (isSafeCommand (c0 :: rest)) as [r|] eqn:Hsafe.
      { intros _. left. eapply ApprovalsFacts.isSafeCommand_sound; eauto. }
      destruct (isBashLc (c0 :: rest)) as [script|] eqn:Hbash;
        [|now rewrite (proj1 (ApprovalsFacts.policyFallback_sandboxed policy))].
      apply isBashLc_inv in Hbash. rewrite Hbash.
      unfold tryParseApplyPatch.
      destruct (Js.startsWith "apply_patch" script) eqn:Hprefix; cbn [negb].
      { assert (Htext :
                  match heredocBody (Js.slice (String.length "apply_patch")
                                              script) with
                  | Some body => Some (trim body)
                  | None => Some (trim (Js.slice (String.length "apply_patch")
                                                 script))
                  end
                  = Some (trim match heredocBody (Js.slice 11 script) with
                               | Some body => body
                               | None => Js.slice 11 script
                               end)).
        { change (String.length "apply_patch") with 11%nat.
          now destruct (heredocBody (Js.slice 11 script)). }
        rewrite Htext. intros H. apply patch_unsandboxed in H.
        right. right. eexists. split; [right; exists script; auto | exact H]. }
      destruct (parse script) as [parts|] eqn:Hparse;
        [|now rewrite (proj1 (ApprovalsFacts.policyFallback_sandboxed policy))].
      pose proof (ApprovalsFacts.isEntireShellExpressionSafe_spec parts) as Hspec.
      destruct (isEntireShellExpressionSafe parts);
        [|now rewrite (proj1 (ApprovalsFacts.policyFallback_sandboxed policy))].
      intros _. right. left. exists script, parts.
      cbn in Hspec. symmetry in Hspec.
      repeat (apply andb_prop in Hspec; destruct Hspec as [Hspec ?]).
      apply negb_true_iff in Hspec.
      repeat split; try assumption.
      destruct (segments parts); [discriminate | congruence].
Qed.

End Justified.

End ClassifierExtras.

(** A script that begins with the characters apply_patch and is no patch
    at all: all that follows them is taken for the patch, the patch
    engine finds no path in it, and under [auto-edit] the command is
    approved without a sandbox. *)
Example apply_patch_prefix_is_taken_for_a_patch :
  Approvals.classify ["bash"; "-lc"; "apply_patch_evil && rm -rf /"]
                     Approvals.AutoEdit []
  = Approvals.AutoApprove
      "apply_patch command is constrained to writable paths" "Editing" false
      (Some {| Approvals.patch := "_evil && rm -rf /" |}).
Proof. reflexivity. Qed.

(** Scenario S1, a command that is approved because it is allowlisted; and
    the script that begins with the characters apply_patch, which is
    approved as a patch without a path. *)
Lemma unsandboxed_auto_approve_justified_witness :
  (Approvals.classify ["ls"; "-la"; "/tmp"] Approvals.Suggest []
   = Approvals.AutoApprove "List directory" "Searching" false None
   /\ Approvals.Allowlisted ["ls"; "-la"; "/tmp"])
  /\ exists text,
       text = "_evil && rm -rf /"
       /\ Approvals.patchConfined Approvals.noFiles Approvals.noFiles
                                  Approvals.idPath Approvals.constRelative
                                  Approvals.posixIsAbsolute text [].
Proof.
  split; [split; [reflexivity|]|].
  - destruct (@ClassifierExtras.unsandboxed_auto_approve_justified
                (Approvals.parseTable Approvals.exampleScripts)
                Approvals.noFiles Approvals.noFiles Approvals.idPath
                Approvals.constRelative Approvals.posixIsAbsolute
                Approvals.noHeredoc Approvals.idPath
                ["ls"; "-la"; "/tmp"] Approvals.Suggest [] eq_refl)
      as [H | [(script & parts & E & _) | (text & _ & Hpolicy & _)]].
    + exact H.
    + discriminate E.
    + now contradiction Hpolicy.
  - destruct (@ClassifierExtras.unsandboxed_auto_approve_justified
                (Approvals.parseTable Approvals.exampleScripts)
                Approvals.noFiles Approvals.noFiles Approvals.idPath
                Approvals.constRelative Approvals.posixIsAbsolute
                Approvals.noHeredoc Approvals.idPath
                ["bash"; "-lc"; "apply_patch_evil && rm -rf /"]
                Approvals.AutoEdit [] eq_refl)
      as [H | [(script & parts & E & Hprefix & _)
              | (text & [E | (script & E & _ & Htext)] & _ & Hconfined)]].
    + inversion H as [verb rest Hverb | | |]; subst.
      cbn in Hverb. repeat (destruct Hverb as [Hverb | Hverb];
                            [discriminate Hverb|]). contradiction.
    + injection E as <-. discriminate Hprefix.
    + discriminate E.
    + injection E as <-. exists text. split; [exact Htext | exact Hconfined].
Defined.

(** ** Further properties of the executor *)

Module ExecutorExtras.

Import RawExec.

(** Boundary B1 of the specification: a stream that delivers exactly
    [MAX_BUFFER] bytes keeps them all; once one more chunk with a byte in
    it has arrived, nothing that arrives later is kept. *)
Theorem capture_at_the_cap (d extra : Buffer) (later : list Buffer) :
  Z.of_nat (List.length d) = MAX_BUFFER ->
  extra <> [] ->
  chunks (fold_left onData [d] emptyCapture) = [d]
  /\ chunks (fold_left onData (d :: extra :: later) emptyCapture) = [d]
  /\ hitMax (fold_left onData (d :: extra :: later) emptyCapture) = true.
Proof.
  intros Hfull Hextra.
  assert (Hfirst : onData emptyCapture d
                   = {| chunks := [d]; numBytes := MAX_BUFFER;
                        hitMax := false |}).
  { unfold onData, emptyCapture. cbn [hitMax numBytes chunks].
    rewrite Z.add_0_l, Hfull, Z.leb_refl. reflexivity. }
  assert (Hsecond : onData (onData emptyCapture d) extra
                    = {| chunks := [d];
                         numBytes := MAX_BUFFER + Z.of_nat (List.length extra);
                         hitMax := true |}).
  { rewrite Hfirst. unfold onData. cbn [hitMax numBytes chunks].
    destruct (Z.leb_spec (MAX_BUFFER + Z.of_nat (List.length extra)) MAX_BUFFER)
      as [Hle|Hgt]; [|reflexivity].
    destruct extra as [|b extra']; [contradiction|].
    change (List.length (b :: extra')) with (S (List.length extra')) in Hle.
    lia. }
  cbn [fold_left]. rewrite Hsecond, Hfirst.
  rewrite RawExecFacts.fold_onData_after_overflow by reflexivity.
  repeat split.
Qed.

End ExecutorExtras.

(** A chunk of exactly [MAX_BUFFER] zero bytes, then one more byte. *)
Lemma capture_at_the_cap_witness :
  RawExec.chunks
    (fold_left RawExec.onData
               [repeat Byte.x00 (Z.to_nat RawExec.MAX_BUFFER); [Byte.x01]]
               RawExec.emptyCapture)
  = [repeat Byte.x00 (Z.to_nat RawExec.MAX_BUFFER)].
Proof.
  refine (proj1 (proj2 (@ExecutorExtras.capture_at_the_cap
                          (repeat Byte.x00 (Z.to_nat RawExec.MAX_BUFFER))
                          [Byte.x01] [] _ _))).
  - rewrite repeat_length. apply Z2Nat.id. unfold RawExec.MAX_BUFFER. lia.
  - discriminate.
Defined.

(** ** Further properties of the turn engine *)

Module EngineExtras.

Import AgentLoop.

(** [terminate()] on a live instance marks it terminated, aborts the
    master controller and the current abort controller of tool calls; the
    [cancel()] it ends with finds the instance terminated and returns at
    once, so [canceled], [generation] and the callbacks are left as they
    were; a later [run()] throws and a later [cancel()] does nothing. *)
Theorem terminate_effect (s : AgentLoop) :
  terminated s = false ->
  terminated (terminate s) = true
  /\ hardAbort (terminate s) = true
  /\ (forall c, execAbortController s = Some c ->
                In c (abortedControllers (terminate s)))
  /\ canceled (terminate s) = canceled s
  /\ generation (terminate s) = generation s
  /\ effects (terminate s) = effects s
  /\ pendingAborts (terminate s) = pendingAborts s
  /\ cancel (terminate s) = terminate s
  /\ (forall input previousResponseId,
         runPrologue (terminate s) input previousResponseId
         = Throw "AgentLoop has been terminated").
Proof.
  intros Hlive.
  destruct s as [t h cs g ec c pa ast ac nc eff]; cbn in Hlive; subst t.
  unfold terminate. cbn.
  destruct ec as [x|]; cbn; repeat split; try reflexivity.
  - intros c0 [= <-]. now left.
  - discriminate.
Qed.

(** The store of abort controllers stays well formed from the constructor
    on. *)
Lemma storeOk_construct : storeOk construct.
Proof. split; cbn; [tauto | discriminate]. Qed.

Lemma storeOk_runPrologue (s s' : AgentLoop) (input : list Item)
      (prev : string) (locals : RunLocals) :
  storeOk s ->
  runPrologue s input prev = Normal (s', locals) ->
  storeOk s'.
Proof.
  intros [Haborted Hexec]. unfold runPrologue.
  destruct (terminated s); [discriminate|].
  intros [= <- _]. unfold storeOk.
  destruct s as [t h cs g ec c pa ast ac nc eff]; cbn in *.
  destruct pa; cbn; split;
    try (intros x Hx; apply Haborted in Hx; lia);
    intros x [= <-]; lia.
Qed.

End EngineExtras.

(** [terminate()] on [liveInstance]. *)
Lemma terminate_effect_witness :
  AgentLoop.terminated (AgentLoop.terminate AgentLoop.liveInstance) = true
  /\ AgentLoop.canceled (AgentLoop.terminate AgentLoop.liveInstance) = false
  /\ AgentLoop.effects (AgentLoop.terminate AgentLoop.liveInstance) = [].
Proof.
  destruct (@EngineExtras.terminate_effect AgentLoop.liveInstance eq_refl)
    as (Ht & _ & _ & Hc & _ & He & _).
  split; [exact Ht|]. split; [exact Hc | exact He].
Defined.

(** ** Staging, delivery and the generation fence *)

Module StagingFacts.

Import AgentLoop Run.


Lemma pendingOf_push (l : list (option Item)) (x : Item) :
  forall n, pendingOf n (l ++ [Some x])
            = pendingOf n l ++ [((n + List.length l)%nat, x)].
Proof.
  induction l as [|[y|] l IH]; intros n; cbn.
  - now rewrite Nat.add_0_r.
  - rewrite IH. now replace (S n + List.length l)%nat
                  with (n + S (List.length l))%nat by lia.
  - rewrite IH. now replace (S n + List.length l)%nat
                  with (n + S (List.length l))%nat by lia.
Qed.

Lemma pendingOf_fired (l : list (option Item)) :
  forall n k idx item,
    nth_error (pendingOf n l) k = Some (idx, item) ->
    (n <= idx)%nat
    /\ pendingOf n (assignUndefined (idx - n) l) = removeAt k (pendingOf n l).
Proof.
  induction l as [|[y|] l IH]; intros n k idx item H; cbn in H.
  - destruct k; discriminate.
  - destruct k as [|k]; cbn in H.
    + injection H as <- <-. split; [lia|]. now rewrite Nat.sub_diag.
    + destruct (IH _ _ _ _ H) as [Hle E]. split; [lia|].
      replace (idx - n)%nat with (S (idx - S n)) by lia.
      cbn. now rewrite E.
  - destruct (IH _ _ _ _ H) as [Hle E]. split; [lia|].
    replace (idx - n)%nat with (S (idx - S n)) by lia.
    cbn. exact E.
Qed.

Lemma removeAt_perm (A : Type) (l : list A) :
  forall k a, nth_error l k = Some a -> Permutation (a :: removeAt k l) l.
Proof.
  induction l as [|x l IH]; intros [|k] a H; cbn in H; try discriminate.
  - injection H as ->. reflexivity.
  - cbn. rewrite perm_swap. now rewrite IH.
Qed.

Lemma delivered_app (a b : list Effect) :
  delivered (a ++ b) = delivered a ++ delivered b.
Proof. unfold delivered. now rewrite flat_map_app. Qed.

(** The loop of [flush] hands over the items still in their slots, in the
    order of the slots. *)
Lemma flush_loop (l : list (option Item)) :
  forall n s,
    let s' := fold_left (fun s item => match item with
                                       | Some i => emit (OnItem i) s
                                       | None => s
                                       end) l s in
    effects s' = effects s ++ map (fun t => OnItem (snd t)) (pendingOf n l)
    /\ generation s' = generation s /\ canceled s' = canceled s
    /\ hardAbort s' = hardAbort s /\ terminated s' = terminated s
    /\ pendingAborts s' = pendingAborts s.
Proof.
  induction l as [|[y|] l IH]; intros n s; cbn.
  - now rewrite app_nil_r.
  - destruct (IH (S n) (emit (OnItem y) s)) as (E & Hrest).
    cbn in E, Hrest. rewrite E, <- app_assoc. split; [reflexivity | exact Hrest].
  - apply IH.
Qed.

Lemma delivered_items (l : list (nat * Item)) :
  delivered (map (fun t => OnItem (snd t)) l) = map snd l.
Proof. induction l as [|[i x] l IH]; cbn; [reflexivity | now rewrite <- IH]. Qed.


Lemma undisturbed_step (s0 : AgentLoop) (all : list Item)
      (x : AgentLoop * Staging) (e : StagingStep) :
  undisturbed s0 all x ->
  undisturbed s0 (all ++ stagedBy [e]) (stagingStep (generation s0) x e).
Proof.
  destruct x as [s st]. intros (Hg & Hc & Hh & Hp & Ht & Hperm). cbn in *.
  destruct e as [item | k]; cbn.
  - unfold undisturbed, stageItem. cbn. rewrite Hg, Z.eqb_refl. cbn.
    repeat split; try assumption.
    + rewrite pendingOf_push, Ht. reflexivity.
    + rewrite map_app, app_assoc. cbn. now apply Permutation_app_tail.
  - rewrite app_nil_r. unfold fire.
    destruct (nth_error (timers st) k) as [[idx item]|] eqn:Hk;
      [|repeat split; assumption].
    unfold deliver. rewrite Hg, Z.eqb_refl, Hc, Hh. cbn.
    rewrite Ht in Hk. destruct (pendingOf_fired _ _ _ Hk) as [_ E].
    rewrite Nat.sub_0_r in E.
    repeat split; try assumption.
    + cbn. now rewrite E, Ht.
    + cbn [fst snd effects emit timers]. rewrite delivered_app. cbn. rewrite <- app_assoc. cbn.
      rewrite <- Hperm. apply Permutation_app_head.
      rewrite Ht.
      change (item :: map snd (removeAt k (pendingOf 0 (staged st))))
        with (map snd ((idx, item) :: removeAt k (pendingOf 0 (staged st)))).
      apply Permutation_map. now apply removeAt_perm.
Qed.

Lemma undisturbed_steps (s0 : AgentLoop) (steps : list StagingStep) :
  forall all x,
    undisturbed s0 all x ->
    undisturbed s0 (all ++ stagedBy steps)
                (fold_left (stagingStep (generation s0)) steps x).
Proof.
  induction steps as [|e steps IH]; intros all x H; cbn [fold_left].
  - now rewrite app_nil_r.
  - apply (undisturbed_step e) in H. apply IH in H.
    unfold stagedBy in *. cbn [flat_map] in *.
    now rewrite <- !app_assoc in H.
Qed.

(** In a run that no call of [cancel()], [terminate()] or [run()]
    disturbs, every staged item is handed to [onItem] exactly once by the
    time [flush] has run, whichever timers have fired before it: those
    that have fired delivered their item, and [flush] delivers the rest.
    [flush] then empties [pendingAborts] and ends with
    [onLoading(false)]. *)
Theorem staged_items_delivered_once
        (s : AgentLoop) (steps : list StagingStep) :
  canceled s = false ->
  hardAbort s = false ->
  let x := fold_left (stagingStep (generation s)) steps (s, emptyStaging) in
  let s' := flush (generation s) (fst x) (snd x) in
  Permutation (delivered (effects s')) (delivered (effects s) ++ stagedBy steps)
  /\ (timers (snd x) = [] -> effects s' = effects (fst x) ++ [OnLoading false])
  /\ (exists effs, effects s' = effs ++ [OnLoading false])
  /\ pendingAborts s' = [].
Proof.
  intros Hc Hh x s'.
  assert (H0 : undisturbed s (delivered (effects s)) (s, emptyStaging)).
  { repeat split; try assumption; cbn. now rewrite app_nil_r. }
  apply (undisturbed_steps steps) in H0. fold x in H0.
  destruct H0 as (Hg & Hc' & Hh' & _ & Ht & Hperm).
  subst s'. unfold flush. rewrite Hc', Hh', Hg, Z.eqb_refl. cbn [negb andb].
  destruct (flush_loop (staged (snd x)) 0 (fst x)) as (E & _).
  cbn in E. cbn [emit set_pendingAborts effects pendingAborts].
  rewrite E, <- Ht.
  split; [|split; [|split]].
  - rewrite !delivered_app, delivered_items. cbn. now rewrite app_nil_r.
  - intros ->. cbn. now rewrite app_nil_r.
  - eexists. reflexivity.
  - reflexivity.
Qed.

End StagingFacts.

(** Two items are staged, the timer of the second fires, and [flush]
    delivers the first. *)
Lemma staged_items_delivered_once_witness :
  Permutation
    (Run.delivered
       (AgentLoop.effects
          (Run.flush 0
             (fst (fold_left (Run.stagingStep 0)
                             [Run.Stage (AgentLoop.Message "assistant" "one");
                              Run.Stage (AgentLoop.Message "assistant" "two");
                              Run.Fire 1]
                             (AgentLoop.construct, Run.emptyStaging)))
             (snd (fold_left (Run.stagingStep 0)
                             [Run.Stage (AgentLoop.Message "assistant" "one");
                              Run.Stage (AgentLoop.Message "assistant" "two");
                              Run.Fire 1]
                             (AgentLoop.construct, Run.emptyStaging))))))
    [AgentLoop.Message "assistant" "one"; AgentLoop.Message "assistant" "two"].
Proof.
  exact (proj1 (@StagingFacts.staged_items_delivered_once
                  AgentLoop.construct
                  [Run.Stage (AgentLoop.Message "assistant" "one");
                   Run.Stage (AgentLoop.Message "assistant" "two");
                   Run.Fire 1]
                  eq_refl eq_refl)).
Defined.


Module FenceFacts.

Import AgentLoop Run.


Lemma call_generation (s : AgentLoop) (c : Call) :
  (generation s <= generation (call s c))%Z
  /\ (hardAbort s = true -> hardAbort (call s c) = true).
Proof.
  destruct s as [t h cs g ec cn pa ast ac nc eff].
  destruct c as [| |input prev]; cbn;
    unfold cancel, terminate, runPrologue; cbn;
    (destruct t; cbn; [split; [lia | auto]|]);
    destruct ec, pa; cbn; split; try lia; auto.
Qed.

Lemma call_live (s : AgentLoop) (g : Z) (c : Call) :
  terminated s = false -> (g <= generation s)%Z -> fenced g (call s c).
Proof.
  destruct s as [t h cs gen ec cn pa ast ac nc eff]. cbn. intros -> Hg.
  destruct c as [| |input prev].
  - left. cbn. unfold cancel. cbn. destruct ec, pa; cbn; lia.
  - right. cbn. unfold terminate. cbn. destruct ec; reflexivity.
  - left. cbn. unfold runPrologue. cbn. destruct pa; cbn; lia.
Qed.

Lemma calls_fenced (calls : list Call) :
  forall s g, fenced g s -> fenced g (fold_left call calls s).
Proof.
  induction calls as [|c calls IH]; intros s g H; cbn [fold_left]; [exact H|].
  apply IH. destruct (call_generation s c) as [Hgen Hhard].
  destruct H as [H | H]; [left; lia | right; auto].
Qed.

Lemma fenced_test (g : Z) (s : AgentLoop) :
  fenced g s ->
  (g =? generation s)%Z && negb (canceled s) && negb (hardAbort s) = false.
Proof.
  intros [H | H].
  - destruct (Z.eqb_spec g (generation s)); [lia | reflexivity].
  - rewrite H. cbn. apply andb_false_r.
Qed.

(** Once [cancel()], [terminate()] or a new [run()] has been called on a
    live instance, whatever calls follow, the run of generation [g] that
    was under way delivers nothing any more: its timers fire without
    effect, and its [flush] only announces [onLoading(false)]. *)
Theorem stale_run_delivers_nothing
        (s : AgentLoop) (g : Z) (c : Call) (calls : list Call)
        (st : Staging) (k : nat) :
  terminated s = false ->
  (g <= generation s)%Z ->
  let s' := fold_left call calls (call s c) in
  fst (fire g k s' st) = s'
  /\ staged (snd (fire g k s' st)) = staged st
  /\ effects (flush g s' st) = effects s' ++ [OnLoading false]
  /\ ((g < generation s')%Z -> forall item, stageItem g s' st item = st).
Proof.
  intros Hlive Hg s'.
  assert (Hf : fenced g s') by (apply calls_fenced, call_live; assumption).
  pose proof (fenced_test Hf) as Htest.
  split; [|split; [|split]].
  - unfold fire. destruct (nth_error (timers st) k) as [[idx item]|];
      [|reflexivity].
    unfold deliver. now rewrite Htest.
  - unfold fire. destruct (nth_error (timers st) k) as [[idx item]|];
      [|reflexivity].
    unfold deliver. now rewrite Htest.
  - unfold flush.
    replace (negb (canceled s') && negb (hardAbort s')
             && (g =? generation s')%Z)
      with ((g =? generation s')%Z && negb (canceled s')
            && negb (hardAbort s')) by btauto.
    now rewrite Htest.
  - intros Hlt item. unfold stageItem.
    destruct (Z.eqb_spec g (generation s')); [lia | reflexivity].
Qed.

End FenceFacts.

(** [cancel()] and then a new [run()] on [liveInstance]: the [flush] of
    the run of generation 3 delivers nothing. *)
Lemma stale_run_delivers_nothing_witness :
  AgentLoop.effects
    (Run.flush 3
       (fold_left Run.call [Run.CallRun [] ""]
                  (Run.call AgentLoop.liveInstance Run.CallCancel))
       {| Run.staged := [Some (AgentLoop.Message "assistant" "late")];
          Run.timers := [(0%nat, AgentLoop.Message "assistant" "late")] |})
  = [AgentLoop.OnLoading false; AgentLoop.OnLoading true;
     AgentLoop.OnLoading false].
Proof.
  destruct (@FenceFacts.stale_run_delivers_nothing
              AgentLoop.liveInstance 3%Z Run.CallCancel [Run.CallRun [] ""]
              {| Run.staged := [Some (AgentLoop.Message "assistant" "late")];
                 Run.timers := [(0%nat, AgentLoop.Message "assistant" "late")] |}
              0%nat eq_refl ltac:(cbn; lia))
    as (_ & _ & H & _).
  exact H.
Defined.


(** ** The events of the stream and the pending tool calls *)

Module StreamFacts.

Import AgentLoop Run.

Lemma pendingAborts_add_In (c x : string) (l : list string) :
  In x (pendingAborts_add c l) <-> x = c \/ In x l.
Proof.
  unfold pendingAborts_add.
  destruct (existsb (String.eqb c) l) eqn:E.
  - split; [auto|]. intros [-> | H]; [|exact H].
    apply existsb_exists in E. destruct E as (y & Hy & Heq).
    apply String.eqb_eq in Heq. now subst y.
  - rewrite in_app_iff. cbn. split.
    + intros [H | [H | []]]; auto.
    + intros [H | H]; auto.
Qed.

Lemma pendingAborts_add_NoDup (c : string) (l : list string) :
  NoDup l -> NoDup (pendingAborts_add c l).
Proof.
  intros H. unfold pendingAborts_add.
  destruct (existsb (String.eqb c) l) eqn:E; [exact H|].
  apply NoDup_app; [exact H | repeat constructor; auto |].
  intros x Hx [-> | []].
  assert (existsb (String.eqb x) l = true) as E'.
  { apply existsb_exists. exists x. split; [exact Hx | apply String.eqb_refl]. }
  congruence.
Qed.

Lemma countAnswers_app (c : option string) (a b : list Item) :
  countAnswers c (a ++ b) = (countAnswers c a + countAnswers c b)%nat.
Proof. unfold countAnswers. now rewrite filter_app, length_app. Qed.

(** Among the synthetic outputs for a set of call-ids, a call-id of the
    set is answered once, and any other call-id is not answered. *)
Lemma countAnswers_aborted (c : string) (l : list string) :
  NoDup l ->
  countAnswers (Some c) (map abortOutputFor l) = if in_dec string_dec c l
                                                  then 1%nat else 0%nat.
Proof.
  induction l as [|x l IH]; intros Hnd; [reflexivity|].
  apply NoDup_cons_iff in Hnd. destruct Hnd as [Hx Hnd].
  specialize (IH Hnd).
  change (map abortOutputFor (x :: l))
    with ([abortOutputFor x] ++ map abortOutputFor l).
  rewrite countAnswers_app, IH.
  unfold countAnswers at 1. cbn [filter abortOutputFor answers].
  destruct (String.eqb_spec x c) as [->|Hne].
  - destruct (in_dec string_dec c l); [contradiction|].
    destruct (in_dec string_dec c (c :: l)) as [_|H]; [reflexivity|].
    exfalso. apply H. now left.
  - destruct (in_dec string_dec c l) as [Hin|Hnin];
      destruct (in_dec string_dec c (x :: l)) as [Hin'|Hnin']; cbn; try reflexivity.
    + exfalso. apply Hnin'. now right.
    + destruct Hin' as [-> | Hin']; contradiction.
Qed.

Section Stream.

Variable ExecInput : Type.
Variable Metadata : Type.
Variable parseToolCallArguments : string -> option ExecInput.
Variable handleExecCommand : ExecInput -> HandleExecCommandResult Metadata.
Variable stringifyOutput : string -> Metadata -> string.
Variable thinkingStart : Z.

Local Abbreviation event :=
  (onEvent parseToolCallArguments handleExecCommand stringifyOutput
           thinkingStart).
Local Abbreviation completed :=
  (onResponseCompleted parseToolCallArguments handleExecCommand
                       stringifyOutput).

(** The events of the stream only ever add to [pendingAborts]. *)
Lemma onEvent_pending (now : Z) (r : RunState) (ev : StreamEvent) :
  terminated (this (event now r ev)) = terminated (this r)
  /\ (forall c, In c (pendingAborts (this r)) ->
                In c (pendingAborts (this (event now r ev))))
  /\ (NoDup (pendingAborts (this r)) ->
      NoDup (pendingAborts (this (event now r ev)))).
Proof.
  destruct ev as [item | output status id | type]; cbn.
  - unfold onOutputItemDone.
    destruct (annotate now thinkingStart item) as [ci o | call | role text | d];
      cbn; try (split; [reflexivity | split; auto]).
    destruct (callIdOf call) as [callId|]; [|split; [reflexivity | split; auto]].
    destruct (callId =? "")%string; [split; [reflexivity | split; auto]|].
    destruct (this r) as [t h cs g ec cn pa ast ac nc eff]. cbn.
    split; [reflexivity|]. split.
    + intros c Hc. apply pendingAborts_add_In. now right.
    + apply pendingAborts_add_NoDup.
  - destruct (this r) as [t h cs g ec cn pa ast ac nc eff]. cbn.
    split; [reflexivity | split; auto].
  - split; [reflexivity | split; auto].
Qed.

Lemma onEvents_pending (events : list (Z * StreamEvent)) :
  forall r,
    let r' := fold_left (fun r e => event (fst e) r (snd e)) events r in
    terminated (this r') = terminated (this r)
    /\ (forall c, In c (pendingAborts (this r)) ->
                  In c (pendingAborts (this r')))
    /\ (NoDup (pendingAborts (this r)) -> NoDup (pendingAborts (this r'))).
Proof.
  induction events as [|[now ev] events IH]; intros r; cbn [fold_left fst snd].
  - split; [reflexivity | split; auto].
  - destruct (onEvent_pending now r ev) as (Ht & Hin & Hnd).
    destruct (IH (event now r ev)) as (Ht' & Hin' & Hnd').
    cbn zeta in *. split; [congruence | split; auto].
Qed.

(** A tool call of the stream is remembered until it is answered: the
    [function_call] item with call-id [c] is not staged but recorded in
    [pendingAborts], where the later events of the stream leave it; when
    [cancel()] then lands, the turn loop returns at its next test, and the
    next [run()] sends, ahead of its input, one synthetic output for each
    recorded call-id, exactly one of them for [c]. *)
Theorem pending_call_aborted_in_next_run
        (r : RunState) (now : Z) (call : FunctionToolCall) (c : string)
        (events : list (Z * StreamEvent))
        (input : list Item) (previousResponseId : string) :
  terminated (this r) = false ->
  NoDup (pendingAborts (this r)) ->
  callIdOf call = Some c ->
  c <> "" ->
  let r1 := event now r (OutputItemDone (FunctionCall call)) in
  let r2 := fold_left (fun r e => event (fst e) r (snd e)) events r1 in
  let s3 := fst (loopHead (cancel (this r2))) in
  staging r1 = staging r
  /\ In c (pendingAborts (this r2))
  /\ snd (loopHead (cancel (this r2))) = Return
  /\ effects s3 = effects (this r2) ++ [OnLoading false; OnLoading false]
  /\ exists s4 locals4,
       runPrologue s3 input previousResponseId = Normal (s4, locals4)
       /\ turnInput locals4
          = map abortOutputFor (pendingAborts (this r2)) ++ input
       /\ countAnswers (Some c) (turnInput locals4)
          = S (countAnswers (Some c) input).
Proof.
  intros Hlive Hnd Hid Hne r1 r2 s3.
  assert (H1 : staging r1 = staging r /\ In c (pendingAborts (this r1))
               /\ terminated (this r1) = false
               /\ NoDup (pendingAborts (this r1))).
  { subst r1. cbn. unfold onOutputItemDone. cbn. rewrite Hid.
    destruct (String.eqb_spec c ""); [contradiction|].
    destruct (this r) as [t h cs g ec cn pa ast ac nc eff]. cbn in *.
    repeat split; try assumption.
    - apply pendingAborts_add_In. now left.
    - now apply pendingAborts_add_NoDup. }
  destruct H1 as (Hst & Hin1 & Hlive1 & Hnd1).
  destruct (onEvents_pending events r1) as (Ht2 & Hin2 & Hnd2).
  fold r2 in Ht2, Hin2, Hnd2. cbn zeta in *.
  rewrite Hlive1 in Ht2.
  destruct (AgentLoopFacts.cancel_fields (this r2) Ht2)
    as (Ht & _ & _ & _ & _ & Hc & Hp & _ & _ & _ & He).
  assert (Hs3 : s3 = emit (OnLoading false) (cancel (this r2))
                /\ snd (loopHead (cancel (this r2))) = Return).
  { subst s3. unfold loopHead. now rewrite Hc. }
  destruct Hs3 as [Es3 Hret].
  split; [exact Hst|]. split; [auto|]. split; [exact Hret|].
  split.
  { rewrite Es3. cbn [emit effects]. rewrite He.
    unfold cancelEffects.
    destruct (pendingAborts (this r2)) as [|x l] eqn:Epa.
    - exfalso. apply (Hin2 c Hin1).
    - now rewrite <- app_assoc. }
  assert (Ht3 : terminated s3 = false) by (rewrite Es3; exact Ht).
  assert (Hp3 : pendingAborts s3 = pendingAborts (this r2))
    by (rewrite Es3; exact Hp).
  destruct (RunFacts.runPrologue_live s3 input previousResponseId Ht3)
    as (s4 & l4 & Hrun & Hinput & _).
  exists s4, l4. split; [exact Hrun|]. rewrite Hinput, Hp3.
  split; [reflexivity|].
  rewrite countAnswers_app, countAnswers_aborted by auto.
  destruct (in_dec string_dec c (pendingAborts (this r2))) as [_|Hn];
    [reflexivity | exfalso; auto].
Qed.

(** [cancel()] does not stop the reading of the stream.  When it lands
    while a run reads the stream and the stream then delivers [response.completed] with the status
    [completed], nothing of the response is staged, no tool call is run
    and the turn input stays empty, so that the turn loop ends;
    [onLastResponseId] is still called with the id of the response; and
    the [flush] that follows delivers no item but empties
    [pendingAborts], so that the next [run()] starts with its input
    alone. *)
Theorem cancel_while_reading
        (r : RunState) (output : list Item) (id : string)
        (input : list Item) (previousResponseId : string) :
  terminated (this r) = false ->
  let r1 := {| this := cancel (this r); locals := locals r;
               staging := staging r; processedIds := processedIds r |} in
  let r2 := completed output "completed" id r1 in
  let s3 := flush (thisGeneration (locals r)) (this r2) (staging r2) in
  staging r2 = staging r
  /\ turnInput (locals r2) = []
  /\ lastResponseId (locals r2) = id
  /\ processedIds r2 = processedIds r
  /\ effects (this r2) = effects (cancel (this r)) ++ [OnLastResponseId id]
  /\ effects s3 = effects (this r2) ++ [OnLoading false]
  /\ pendingAborts s3 = []
  /\ exists s4 locals4,
       runPrologue s3 input previousResponseId = Normal (s4, locals4)
       /\ turnInput locals4 = input.
Proof.
  intros Hlive r1 r2 s3.
  destruct (AgentLoopFacts.cancel_fields (this r) Hlive)
    as (Ht & _ & _ & _ & _ & Hc & _).
  assert (E2 : r2 = {| this := emit (OnLastResponseId id) (cancel (this r));
                       locals := {| thisGeneration := thisGeneration (locals r);
                                    lastResponseId := id; turnInput := [] |};
                       staging := staging r;
                       processedIds := processedIds r |}).
  { subst r2 r1. unfold onResponseCompleted. cbn.
    unfold processEventsWithoutStreaming. rewrite Hc. cbn.
    now rewrite andb_false_r. }
  assert (E3 : s3 = emit (OnLoading false)
                         (set_pendingAborts [] (this r2))).
  { subst s3. unfold flush. rewrite E2. cbn [this staging emit canceled].
    now rewrite Hc. }
  rewrite E3. rewrite E2. cbn [this locals staging processedIds turnInput
                               lastResponseId effects emit set_pendingAborts
                               pendingAborts].
  repeat (split; [reflexivity|]).
  match goal with
  | |- exists s4 l4, runPrologue ?s _ _ = _ /\ _ =>
      destruct (@RunFacts.runPrologue_live s input previousResponseId)
        as (s4 & l4 & Hrun & Hinput & _);
      [cbn; exact Ht | exists s4, l4; split; [exact Hrun | exact Hinput]]
  end.
Qed.

End Stream.

End StreamFacts.

(** The call [call_1] arrives while [liveInstance] reads its stream. *)
Lemma pending_call_aborted_in_next_run_witness :
  In "call_1"
     (AgentLoop.pendingAborts
        (Run.this
           (Run.onEvent AgentLoop.parseAny AgentLoop.execDenied
                        AgentLoop.stringifyPlain 0 5 Run.readingState
                        (Run.OutputItemDone
                           (AgentLoop.FunctionCall AgentLoop.shellCall))))).
Proof.
  destruct (@StreamFacts.pending_call_aborted_in_next_run
              unit unit AgentLoop.parseAny AgentLoop.execDenied
              AgentLoop.stringifyPlain 0%Z Run.readingState 5%Z
              AgentLoop.shellCall "call_1" [] [] ""
              eq_refl
              ltac:(repeat constructor; cbn; intuition discriminate)
              eq_refl ltac:(discriminate))
    as (_ & H & _).
  exact H.
Defined.

(** [cancel()] lands while [liveInstance], which has two calls pending,
    reads its stream; the response completes and [flush] runs. *)
Lemma cancel_while_reading_witness :
  AgentLoop.pendingAborts
    (Run.flush 3
       (Run.this
          (Run.onResponseCompleted
             AgentLoop.parseAny AgentLoop.execDenied AgentLoop.stringifyPlain
             [AgentLoop.FunctionCall AgentLoop.shellCall] "completed" "resp_1"
             {| Run.this := AgentLoop.cancel AgentLoop.liveInstance;
                Run.locals := Run.locals Run.readingState;
                Run.staging := Run.staging Run.readingState;
                Run.processedIds := Run.processedIds Run.readingState |}))
       (Run.staging
          (Run.onResponseCompleted
             AgentLoop.parseAny AgentLoop.execDenied AgentLoop.stringifyPlain
             [AgentLoop.FunctionCall AgentLoop.shellCall] "completed" "resp_1"
             {| Run.this := AgentLoop.cancel AgentLoop.liveInstance;
                Run.locals := Run.locals Run.readingState;
                Run.staging := Run.staging Run.readingState;
                Run.processedIds := Run.processedIds Run.readingState |})))
  = [].
Proof.
  destruct (@StreamFacts.cancel_while_reading
              unit unit AgentLoop.parseAny AgentLoop.execDenied
              AgentLoop.stringifyPlain Run.readingState
              [AgentLoop.FunctionCall AgentLoop.shellCall] "resp_1" [] ""
              eq_refl)
    as (_ & _ & _ & _ & _ & _ & H & _).
  exact H.
Defined.


(** ** Tool calls are processed once *)

Module ProcessFacts.

Import AgentLoop Run.

Section Process.

Variable ExecInput : Type.
Variable Metadata : Type.
Variable parseToolCallArguments : string -> option ExecInput.
Variable handleExecCommand : ExecInput -> HandleExecCommandResult Metadata.
Variable stringifyOutput : string -> Metadata -> string.

Local Abbreviation process :=
  (processEventsWithoutStreaming parseToolCallArguments handleExecCommand
                                 stringifyOutput).
Local Abbreviation loop :=
  (processOutput parseToolCallArguments handleExecCommand stringifyOutput).

Lemma idSeen_app (id : option string) (a b : list (option string)) :
  idSeen id (a ++ b) = idSeen id a || idSeen id b.
Proof. unfold idSeen. apply existsb_app. Qed.

Lemma idSeen_self (id : option string) : idSeen id [id] = true.
Proof.
  unfold idSeen. cbn. destruct id as [x|]; [|reflexivity].
  now rewrite String.eqb_refl.
Qed.

(** The ids of the tool calls of [output] are in the set when the loop
    is over, and the loop takes nothing out of the set. *)
Lemma processOutput_records (s : AgentLoop) (output : list Item) :
  forall acc,
    (forall id, idSeen id (alreadyProcessedResponses acc) = true ->
                idSeen id (alreadyProcessedResponses (loop s output acc)) = true)
    /\ (forall call, In (FunctionCall call) output ->
                     idSeen (item_id call)
                            (alreadyProcessedResponses (loop s output acc))
                     = true).
Proof.
  induction output as [|item output IH]; intros acc; cbn [processOutput].
  - split; [auto | intros call []].
  - destruct item as [ci o | call | role text | d];
      try (match goal with
           | |- context [loop s output ?a] => destruct (IH a) as [Hmono Hall]
           end;
           split; [exact Hmono | intros c [H | H]; [discriminate | auto]]).
    destruct (idSeen (item_id call) (alreadyProcessedResponses acc)) eqn:E.
    + destruct (IH acc) as [Hmono Hall].
      split; [exact Hmono|].
      intros c [H | H]; [|auto]. injection H as <-. auto.
    + match goal with
      | |- context [loop s output ?a] => destruct (IH a) as [Hmono Hall]
      end.
      cbn [alreadyProcessedResponses] in Hmono.
      split.
      * intros id Hid. apply Hmono. rewrite idSeen_app, Hid. reflexivity.
      * intros c [H | H]; [|auto]. injection H as <-.
        apply Hmono. rewrite idSeen_app, idSeen_self. apply orb_true_r.
Qed.

(** When the ids of all its tool calls are in the set already, the loop
    runs no tool call. *)
Lemma processOutput_seen (s : AgentLoop) (output : list Item) :
  forall acc,
    (forall call, In (FunctionCall call) output ->
                  idSeen (item_id call) (alreadyProcessedResponses acc) = true) ->
    newTurnInput (loop s output acc) = newTurnInput acc
    /\ alreadyProcessedResponses (loop s output acc)
       = alreadyProcessedResponses acc.
Proof.
  induction output as [|item output IH]; intros acc Hall; cbn [processOutput];
    [now split|].
  destruct item as [ci o | call | role text | d];
    try (match goal with
         | |- context [loop s output ?a] => destruct (IH a) as [Hn Hs]
         end; [intros c Hc; apply Hall; now right | now split]).
  rewrite (Hall call (or_introl eq_refl)).
  apply IH. intros c Hc. apply Hall. now right.
Qed.

(** No tool call is run twice: when an output that has been processed is
    processed again, be it on a cancelled instance or not, no tool call
    is handled, the next turn input is empty and the set of processed
    ids is left as it is; and an output without tool calls never gives a
    turn input. *)
Theorem processEvents_once
        (s : AgentLoop) (output : list Item) (seen : list (option string)) :
  let first := process s output seen in
  let again := process s output (alreadyProcessedResponses first) in
  newTurnInput again = []
  /\ alreadyProcessedResponses again = alreadyProcessedResponses first
  /\ ((forall call, ~ In (FunctionCall call) output) ->
      newTurnInput first = [] /\ alreadyProcessedResponses first = seen).
Proof.
  intros first again. subst first again.
  unfold processEventsWithoutStreaming.
  destruct (canceled s); cbn [alreadyProcessedResponses newTurnInput];
    [repeat split|].
  split; [|split].
  - match goal with
    | |- newTurnInput (loop s output ?a) = _ =>
        destruct (@processOutput_seen s output a) as [H _]; [|exact H]
    end.
    intros call Hc. cbn [alreadyProcessedResponses].
    now apply processOutput_records.
  - match goal with
    | |- alreadyProcessedResponses (loop s output ?a) = _ =>
        destruct (@processOutput_seen s output a) as [_ H]; [|exact H]
    end.
    intros call Hc. cbn [alreadyProcessedResponses].
    now apply processOutput_records.
  - intros Hnone.
    match goal with
    | |- newTurnInput (loop s output ?a) = _ /\ _ =>
        destruct (@processOutput_seen s output a) as [H1 H2]; [|now split]
    end.
    intros call Hc. now apply Hnone in Hc.
Qed.

End Process.

End ProcessFacts.

(** ** The request of a turn and the outer [catch] *)

Module RequestFacts.

Import AgentLoop Run.



(** [requestLoop] is [retryLoop] with the thrown object kept whole. *)
Lemma requestLoop_view base create turnInput (attempts : list nat) :
  retryLoop base (fun a => viewRequest (create a)) turnInput attempts
  = (fst (requestLoop base create turnInput attempts),
     viewOutcome (snd (requestLoop base create turnInput attempts))).
Proof.
  induction attempts as [|attempt rest IH]; cbn [retryLoop requestLoop];
    [reflexivity|].
  destruct (create attempt) as [stream|error]; cbn [viewRequest];
    [reflexivity|].
  destruct (onCreateError base (errCtx error) attempt) as [effs [| |]];
    try reflexivity.
  rewrite IH. now destruct (requestLoop base create turnInput rest).
Qed.

Lemma onCreateError_next base error attempt effs :
  onCreateError base error attempt = (effs, NextAttempt) ->
  (attempt < MAX_RETRIES)%nat.
Proof.
  unfold onCreateError.
  destruct (Nat.ltb_spec attempt MAX_RETRIES) as [Hlt|Hge]; [auto|].
  rewrite andb_false_r.
  destruct (isTooManyTokensError error); [discriminate|].
  destruct (isRateLimit error); [discriminate|].
  destruct (isClientError error); discriminate.
Qed.

Lemma count_cons (p : Effect -> bool) (e : Effect) (l : list Effect) :
  count p (e :: l) = ((if p e then 1 else 0) + count p l)%nat.
Proof. unfold count. cbn. now destruct (p e). Qed.

(** How the retry loop can be left, and what it has done by then. *)
Lemma requestLoop_shape base create turnInput (attempts : list nat) :
  let effs := fst (requestLoop base create turnInput attempts) in
  (count isCreate effs <= List.length attempts)%nat
  /\ (attempts <> [] -> (1 <= count isCreate effs)%nat)
  /\ match snd (requestLoop base create turnInput attempts) with
     | GotStream _ =>
         count isOnItem effs = 0%nat /\ count isLoadingOver effs = 0%nat
     | RunReturned =>
         count isOnItem effs = 1%nat /\ count isLoadingOver effs = 1%nat
         /\ exists before text,
              effs = before ++ [OnItem (systemMessage text); OnLoading false]
     | ErrorThrown error =>
         count isOnItem effs = 0%nat /\ count isLoadingOver effs = 0%nat
         /\ exists a, In a attempts /\ create a = RequestFailed error
     | Exhausted =>
         count isOnItem effs = 0%nat /\ count isLoadingOver effs = 0%nat
         /\ Forall (fun a => a < MAX_RETRIES)%nat attempts
     end.
Proof.
  induction attempts as [|attempt rest IH]; cbn [requestLoop].
  - cbn. split; [lia|]. split; [intros H; now contradiction H|].
    split; [reflexivity|]. split; [reflexivity | constructor].
  - destruct (create attempt) as [stream|error] eqn:Hcreate.
    { cbn. split; [lia|]. split; [intros _; lia|]. split; reflexivity. }
    pose proof (RetryFacts.onCreateError_shape base (errCtx error) attempt)
      as Hshape.
    pose proof (@onCreateError_next base (errCtx error) attempt) as Hnext.
    destruct (onCreateError base (errCtx error) attempt) as [effs next].
    destruct next.
    + specialize (Hnext effs eq_refl).
      destruct (requestLoop base create turnInput rest) as [effs' outcome].
      cbn [fst snd] in *. destruct IH as (Hle & _ & Hout).
      assert (Heffs : count isCreate effs = 0%nat /\ count isOnItem effs = 0%nat
                      /\ count isLoadingOver effs = 0%nat).
      { destruct Hshape as [-> | [d ->]]; cbn; auto. }
      destruct Heffs as (Hc0 & Hi0 & Hl0).
      rewrite !count_cons, !RetryFacts.count_app, Hc0, Hi0, Hl0.
      cbn [isCreate isOnItem isLoadingOver].
      split; [cbn; lia|]. split; [intros _; lia|].
      destruct outcome.
      * destruct Hout as [Hi Hn]. now rewrite Hi, Hn.
      * destruct Hout as (Hi & Hl & before & text & ->). rewrite Hi, Hl.
        split; [reflexivity|]. split; [reflexivity|].
        exists (Create attempt turnInput :: effs ++ before), text.
        cbn [app]. now rewrite <- app_assoc.
      * destruct Hout as (Hi & Hn & a & Ha & Hcr). rewrite Hi, Hn.
        split; [reflexivity|]. split; [reflexivity|].
        exists a. split; [now right | exact Hcr].
      * destruct Hout as (Hi & Hn & Hall). rewrite Hi, Hn.
        split; [reflexivity|]. split; [reflexivity|]. now constructor.
    + destruct Hshape as [text ->]. cbn.
      split; [lia|]. split; [intros _; lia|]. split; [reflexivity|].
      split; [reflexivity|].
      now exists [Create attempt turnInput], text.
    + rewrite Hshape. cbn.
      split; [lia|]. split; [intros _; lia|]. split; [reflexivity|].
      split; [reflexivity|].
      exists attempt. split; [now left | exact Hcreate].
Qed.

Lemma runCatch_shape (err : CaughtError) :
  match runCatch err with
  | (effs, Resolved) =>
      exists text, effs = [OnItem (systemMessage text); OnLoading false]
  | (effs, RejectedWith e) =>
      effs = [] /\ e = err /\ isPrematureClose err = false
      /\ isNetworkOrServerError err = false /\ isInvalidRequestError err = false
  end.
Proof.
  unfold runCatch.
  destruct (isPrematureClose err); [now eexists|].
  destruct (isNetworkOrServerError err); [now eexists|].
  destruct (isInvalidRequestError err); [now eexists|].
  now repeat split.
Qed.

(** Whatever the service answers, the request of a turn is attempted at
    least once and at most five times, and it ends in one of three ways:
    with a stream, nothing having been shown; with [run()] resolved, its
    last two effects being one system message, the only item shown, and
    [onLoading(false)], announced once; or with [run()] rejected with the
    error of one of the attempts, which is none of the kinds the outer
    [catch] reports, nothing having been shown and [onLoading(false)] not
    having been announced.  The stream is never undefined when the retry
    loop is left. *)
Theorem request_outcomes
        (base : Number) (create : nat -> Request) (turnInput : list Item) :
  let effs := fst (request base create turnInput) in
  (1 <= count isCreate effs <= 5)%nat
  /\ match snd (request base create turnInput) with
     | inl (Some _) =>
         count isOnItem effs = 0%nat /\ count isLoadingOver effs = 0%nat
     | inl None => False
     | inr Resolved =>
         count isOnItem effs = 1%nat /\ count isLoadingOver effs = 1%nat
         /\ exists before text,
              effs = before ++ [OnItem (systemMessage text); OnLoading false]
     | inr (RejectedWith err) =>
         count isOnItem effs = 0%nat /\ count isLoadingOver effs = 0%nat
         /\ (exists a, (1 <= a <= 5)%nat /\ create a = RequestFailed err)
         /\ isPrematureClose err = false
         /\ isNetworkOrServerError err = false
         /\ isInvalidRequestError err = false
     end.
Proof.
  unfold request.
  pose proof (requestLoop_shape base create turnInput (seq 1 MAX_RETRIES))
    as (Hle & Hge & Hout).
  rewrite length_seq in Hle. specialize (Hge ltac:(discriminate)).
  destruct (requestLoop base create turnInput (seq 1 MAX_RETRIES))
    as [effs outcome].
  cbn [fst snd] in *. unfold MAX_RETRIES in Hle.
  destruct outcome as [stream | | error |]; cbn [fst snd].
  - split; [lia | exact Hout].
  - split; [lia | exact Hout].
  - destruct Hout as (Hi & Hn & a & Ha & Hcr).
    pose proof (runCatch_shape error) as Hcatch.
    destruct (runCatch error) as [effs' [|e]]; cbn [fst snd].
    + destruct Hcatch as [text ->].
      rewrite !RetryFacts.count_app, Hi, Hn. cbn.
      split; [lia|]. split; [reflexivity|]. split; [reflexivity|].
      now exists effs, text.
    + destruct Hcatch as (-> & -> & Hp & Hnw & Hir).
      rewrite app_nil_r. split; [lia|].
      split; [exact Hi|]. split; [exact Hn|]. split; [|auto].
      exists a. split; [|exact Hcr].
      apply in_seq in Ha. unfold MAX_RETRIES in Ha. lia.
  - destruct Hout as (_ & _ & Hall).
    rewrite Forall_forall in Hall.
    specialize (Hall 5%nat ltac:(cbn; tauto)). unfold MAX_RETRIES in Hall. lia.
Qed.

(** A fault of the service that persists ends the run without an error:
    when each of the five attempts fails with a connection error or with
    a [status] of 500 or more, the engine makes the five requests
    without waiting between them, shows one system message, announces
    [onLoading(false)], and [run()] resolves. *)
Theorem persistent_fault_is_reported
        (base : Number) (create : nat -> Request)
        (errors : nat -> CaughtError) (turnInput : list Item) :
  (forall a, create a = RequestFailed (errors a)
             /\ (instanceofAPIConnectionError (errors a) = true
                 \/ exists status, e_status (errors a) = Some status
                                   /\ (500 <= status)%Z)) ->
  exists text,
    request base create turnInput
    = ([Create 1 turnInput; Create 2 turnInput; Create 3 turnInput;
        Create 4 turnInput; Create 5 turnInput;
        OnItem (systemMessage text); OnLoading false],
       inr Resolved).
Proof.
  intros Hall.
  assert (Htransient : forall a,
             isTimeout (errCtx (errors a)) || isServerError (errCtx (errors a))
             || isConnectionError (errCtx (errors a)) = true).
  { intros a. destruct (Hall a) as [_ [Hconn | (status & Hst & Hge)]].
    - cbn. rewrite Hconn. apply orb_true_r.
    - unfold isServerError. cbn. rewrite Hst. cbn.
      destruct (Z.leb_spec 500 status); [|lia].
      rewrite orb_true_r. reflexivity. }
  assert (Hnet : isNetworkOrServerError (errors 5%nat) = true).
  { unfold isNetworkOrServerError.
    destruct (Hall 5%nat) as [_ [Hconn | (status & Hst & Hge)]].
    - now rewrite Hconn.
    - rewrite Hst. destruct (Z.leb_spec 500 status); [|lia].
      destruct (instanceofAPIConnectionError _); [reflexivity|].
      destruct (match e_code _ with Some _ => _ | None => _ end);
        [reflexivity|].
      destruct (match e_cause _ with Some _ => _ | None => _ end);
        reflexivity. }
  unfold request. change (seq 1 MAX_RETRIES) with [1; 2; 3; 4; 5]%nat.
  cbn [requestLoop].
  rewrite !(proj1 (Hall _)).
  unfold onCreateError. rewrite !Htransient.
  cbn [Nat.ltb Nat.leb MAX_RETRIES andb app].
  destruct (isTooManyTokensError (errCtx (errors 5%nat)));
    [eexists; reflexivity|].
  destruct (isRateLimit (errCtx (errors 5%nat))); [eexists; reflexivity|].
  destruct (isClientError (errCtx (errors 5%nat))); [eexists; reflexivity|].
  unfold runCatch. rewrite Hnet.
  destruct (isPrematureClose (errors 5%nat)); eexists; reflexivity.
Qed.

End RequestFacts.

(** The service answers 503 to every request. *)
Lemma persistent_fault_is_reported_witness :
  exists text,
    Run.request (JsNumber.ofInteger 2500) Run.serviceDown []
    = ([AgentLoop.Create 1 []; AgentLoop.Create 2 []; AgentLoop.Create 3 [];
        AgentLoop.Create 4 []; AgentLoop.Create 5 [];
        AgentLoop.OnItem (AgentLoop.systemMessage text);
        AgentLoop.OnLoading false],
       inr Run.Resolved).
Proof.
  apply (@RequestFacts.persistent_fault_is_reported
           (JsNumber.ofInteger 2500) Run.serviceDown (fun _ => Run.error503)
           []).
  intros a. split; [reflexivity|]. right. exists 503%Z.
  split; [reflexivity | lia].
Defined.


(** ** The checkpoints of a cancelled run *)

Module CheckpointFacts.

Import AgentLoop Run.

(** The run that [cancel()] interrupts stops at its next checkpoint, with
    [onLoading(false)] and nothing else: at the head of the turn loop; after
    the request, where the stream that has just been opened is aborted and
    never becomes the current stream; and when the stream raises an
    [AbortError].  After [terminate()] the first two stop the run in the
    same way, but an [AbortError] is thrown on, because [terminate()]
    does not set [canceled]; so is every error on an instance that has
    not been cancelled. *)
Theorem cancelled_run_stops
        (s : AgentLoop) (stream : Stream) (err : CaughtError) :
  terminated s = false ->
  loopHead (cancel s) = (emit (OnLoading false) (cancel s), Return)
  /\ afterOpen (Some stream) (cancel s)
     = (emit (OnLoading false) (abortStream (Some stream) (cancel s)), Return)
  /\ In stream (abortedStreams (fst (afterOpen (Some stream) (cancel s))))
  /\ currentStream (fst (afterOpen (Some stream) (cancel s))) = None
  /\ (instanceofError err = true -> e_name err = Some "AbortError" ->
      streamCatch err (cancel s)
      = (set_currentStream None (emit (OnLoading false) (cancel s)), None))
  /\ snd (loopHead (terminate s)) = Return
  /\ snd (afterOpen (Some stream) (terminate s)) = Return
  /\ (canceled s = false ->
      streamCatch err (terminate s)
      = (set_currentStream None (terminate s), Some err))
  /\ (canceled s = false ->
      streamCatch err s = (set_currentStream None s, Some err)).
Proof.
  intros Hlive.
  destruct (AgentLoopFacts.cancel_fields s Hlive)
    as (_ & _ & Hcs & _ & _ & Hc & _).
  assert (Hterm : hardAbort (terminate s) = true
                  /\ canceled (terminate s) = canceled s).
  { destruct s as [t h cs g ec cn pa ast ac nc eff]. cbn in Hlive. subst t.
    unfold terminate. cbn. now destruct ec. }
  destruct Hterm as [Hh Hct].
  assert (Hcatch : forall s0, canceled s0 = false ->
                     streamCatch err s0 = (set_currentStream None s0, Some err)).
  { intros s0 H0. unfold streamCatch. rewrite H0.
    now destruct (instanceofError err && optEq (e_name err) "AbortError"). }
  split; [unfold loopHead; now rewrite Hc|].
  split; [unfold afterOpen; now rewrite Hc|].
  split; [unfold afterOpen; rewrite Hc; cbn; now left|].
  split; [unfold afterOpen; rewrite Hc; cbn; exact Hcs|].
  split.
  { intros Hi Hn. unfold streamCatch. rewrite Hi, Hn, Hc. reflexivity. }
  split; [unfold loopHead; rewrite Hh; now rewrite orb_true_r|].
  split; [unfold afterOpen; rewrite Hh; now rewrite orb_true_r|].
  split; [intros H0; apply Hcatch; congruence | apply Hcatch].
Qed.

End CheckpointFacts.

(** [cancel()] on [liveInstance], then the test at the head of the turn
    loop. *)
Lemma cancelled_run_stops_witness :
  Run.loopHead (AgentLoop.cancel AgentLoop.liveInstance)
  = (AgentLoop.emit (AgentLoop.OnLoading false)
                    (AgentLoop.cancel AgentLoop.liveInstance),
     Run.Return).
Proof.
  exact (proj1 (@CheckpointFacts.cancelled_run_stops
                  AgentLoop.liveInstance 9%nat Run.error503 eq_refl)).
Defined.


(** ** The order of the policies *)

Module PolicyFacts.

Import Approvals Policies.

Section Policies.

Variable parse : string -> option (list ParseEntry).
Variable identify_files_needed : string -> list string.
Variable identify_files_added : string -> list string.
Variable path_resolve : string -> string.
Variable path_relative : string -> string -> string.
Variable path_isAbsolute : string -> bool.
Variable heredocBody : string -> option string.
Variable trim : string -> string.

Local Abbreviation classifier :=
  (canAutoApprove parse identify_files_needed identify_files_added
                  path_resolve path_relative path_isAbsolute heredocBody trim).
Local Abbreviation patchClassifier :=
  (canAutoApproveApplyPatch identify_files_needed identify_files_added
                            path_resolve path_relative path_isAbsolute).


Lemma patchClassifier_refines blob roots p q :
  policyLe p q = true ->
  refines p q (patchClassifier blob roots p) (patchClassifier blob roots q).
Proof.
  intros Hle. unfold refines, canAutoApproveApplyPatch.
  destruct (isWritePatchConstrainedToWritablePaths _ _ _ _ _ blob roots);
    destruct p, q; try discriminate Hle;
    (split; [intros r g sb pt H; try discriminate H; reflexivity|]);
    (split; [intros r; split; intros H; discriminate H|]);
    (split; [intros r g pt H; try discriminate H; reflexivity|]);
    intros H; try discriminate H; reflexivity.
Qed.

Lemma policyFallback_refines p q :
  policyLe p q = true ->
  refines p q (policyFallback p) (policyFallback q).
Proof.
  intros Hle. unfold refines.
  destruct p, q; try discriminate Hle; cbn;
    (split; [intros r g sb pt H; try discriminate H; reflexivity|]);
    (split; [intros r; split; intros H; discriminate H|]);
    (split; [intros r g pt H; try discriminate H; reflexivity|]);
    intros H; try discriminate H; reflexivity.
Qed.

Lemma fixed_refines p q a :
  isAskUser a = false ->
  (forall r g patch, a <> AutoApprove r g true patch) ->
  refines p q a a.
Proof.
  intros Hask Hsb. unfold refines.
  split; [reflexivity|]. split; [reflexivity|].
  split; [intros r g pt H; now apply Hsb in H | auto].
Qed.

(** The three policies are ordered.  Under a policy that asks less, a
    command that was auto-approved gets the same assessment, sandbox flag
    included, and a command is rejected under one policy exactly when it
    is rejected under the other; only [full-auto] ever asks for a
    sandbox, and [full-auto] never asks the user. *)
Theorem canAutoApprove_monotone
        (command : list string) (roots : list string) (p q : ApprovalPolicy) :
  policyLe p q = true ->
  (forall r g sandbox patch,
      classifier command p roots = AutoApprove r g sandbox patch ->
      classifier command q roots = AutoApprove r g sandbox patch)
  /\ (forall r, classifier command p roots = Reject r
                <-> classifier command q roots = Reject r)
  /\ (forall r g patch,
         classifier command p roots = AutoApprove r g true patch ->
         p = FullAuto)
  /\ isAskUser (classifier command FullAuto roots) = false.
Proof.
  intros Hle.
  assert (H : refines p q (classifier command p roots)
                      (classifier command q roots)
              /\ isAskUser (classifier command FullAuto roots) = false).
  { unfold canAutoApprove.
    destruct (match nth_error command 0 with
              | Some c0 => c0 =? "apply_patch"
              | None => false
              end).
    { destruct command as [|c0 [|c1 [|c2 tl]]];
        try (split; [apply fixed_refines; [reflexivity | discriminate]
                    | reflexivity]).
      split; [now apply patchClassifier_refines|].
      apply (@patchClassifier_refines c1 roots FullAuto FullAuto eq_refl).
      reflexivity. }
    destruct (isSafeCommand command) as [safe|];
      [split; [apply fixed_refines; [reflexivity | discriminate]
              | reflexivity]|].
    destruct (isBashLc command) as [script|];
      [|split; [now apply policyFallback_refines | reflexivity]].
    destruct (tryParseApplyPatch heredocBody trim script) as [blob|].
    { split; [now apply patchClassifier_refines|].
      apply (@patchClassifier_refines blob roots FullAuto FullAuto eq_refl).
      reflexivity. }
    destruct (parse script) as [parts|];
      [|split; [now apply policyFallback_refines | reflexivity]].
    destruct (isEntireShellExpressionSafe parts) as [safe|];
      [split; [apply fixed_refines; [reflexivity | discriminate]
              | reflexivity]
      |split; [now apply policyFallback_refines | reflexivity]]. }
  destruct H as [(Hauto & Hrej & Hsb & _) Hfull].
  split; [|split; [exact Hrej | split; [exact Hsb | exact Hfull]]].
  intros r g sb pt E. rewrite (Hauto _ _ _ _ E). exact E.
Qed.

End Policies.

End PolicyFacts.

(** [ls] is approved under [suggest], hence under [full-auto]. *)
Lemma canAutoApprove_monotone_witness :
  Approvals.classify ["ls"] Approvals.FullAuto []
  = Approvals.AutoApprove "List directory" "Searching" false None.
Proof.
  apply (proj1 (@PolicyFacts.canAutoApprove_monotone
                  (Approvals.parseTable Approvals.exampleScripts)
                  Approvals.noFiles Approvals.noFiles Approvals.idPath
                  Approvals.constRelative Approvals.posixIsAbsolute
                  Approvals.noHeredoc Approvals.idPath
                  ["ls"] [] Approvals.Suggest Approvals.FullAuto eq_refl)).
  reflexivity.
Defined.


(** ** The executor front end *)

Module ExecFrontFacts.

Import Exec.

Section Front.

Variable execWithSeatbelt
  : list string -> SpawnOptions -> list string
    -> RawExec.Completion (RawExec.Promise RawExec.ExecResult).
Variable adaptCommandForPlatform : list string -> list string.
Variable signals : string -> option Z.
Variable toStringUtf8 : RawExec.Buffer -> string.
Variable spawn : list string -> SpawnOptions -> RawExec.Spawned.
Variable process_cwd : string.
Variable os_tmpdir : string.

Local Abbreviation exec' :=
  (exec execWithSeatbelt adaptCommandForPlatform signals toStringUtf8 spawn
        process_cwd os_tmpdir).

(** Outside the macOS seatbelt the front end hands the command to the raw
    executor with the options it builds.  The call throws exactly when
    the adapted command has a program and [spawn] throws for it under
    those options, and then it throws what [spawn] threw; otherwise it
    returns a promise, which is never rejected.  The writable roots play
    no part in it, and [linux.landlock] is run exactly as [none] is.  The
    timeout handed to [spawn] is never 0: it is the caller's when that is
    a number other than 0, a negative one included, and 10000 ms
    otherwise.  Under the seatbelt the roots handed on are the working
    directory, the temporary directory and then the additional ones. *)
Theorem exec_front (input : ExecInput) (roots : list string)
        (sandbox : SandboxType) :
  (sandbox <> MACOS_SEATBELT ->
   (forall error,
       exec' input roots sandbox = RawExec.Throws error
       <-> adaptCommandForPlatform (cmd input) <> []
           /\ spawn (adaptCommandForPlatform (cmd input)) (spawnOptions input)
              = RawExec.SpawnThrows error)
   /\ (forall reason,
          exec' input roots sandbox <> RawExec.Returns (RawExec.Rejected reason))
   /\ (forall roots', exec' input roots' sandbox = exec' input roots sandbox)
   /\ exec' input roots sandbox = exec' input roots NONE
   /\ exec' input roots sandbox
      = RawExec.exec adaptCommandForPlatform signals toStringUtf8 (cmd input)
                     (spawn (adaptCommandForPlatform (cmd input))
                            (spawnOptions input)))
  /\ exec' input roots MACOS_SEATBELT
     = execWithSeatbelt (cmd input) (spawnOptions input)
                        (process_cwd :: os_tmpdir :: roots)
  /\ timeout (spawnOptions input) <> 0%Z
  /\ (forall t, timeoutInMillis input = Some t -> t <> 0%Z ->
                timeout (spawnOptions input) = t)
  /\ (timeoutInMillis input = None \/ timeoutInMillis input = Some 0%Z ->
      timeout (spawnOptions input) = 10000%Z)
  /\ cwd (spawnOptions input) <> Some "".
Proof.
  split; [|split; [reflexivity|]].
  - intros Hs.
    assert (E : forall r, exec' input r sandbox
                          = rawExec adaptCommandForPlatform signals
                                    toStringUtf8 spawn (cmd input)
                                    (spawnOptions input)
                                    (process_cwd :: os_tmpdir :: r)).
    { intros r. unfold exec. destruct sandbox; [reflexivity | | reflexivity].
      now contradiction Hs. }
    split; [|split; [|split; [|split]]].
    + intros error. rewrite E. unfold rawExec.
      apply RawExecFacts.exec_throws_iff.
    + intros reason. rewrite E. unfold rawExec.
      apply RawExecFacts.exec_not_rejected.
    + intros roots'. now rewrite !E.
    + now rewrite E.
    + now rewrite E.
  - unfold spawnOptions. cbn [timeout cwd].
    split; [|split; [|split]].
    + destruct (timeoutInMillis input) as [t|]; [|discriminate].
      destruct (Z.eqb_spec t 0); [discriminate | assumption].
    + intros t -> Ht. now destruct (Z.eqb_spec t 0).
    + intros [-> | ->]; reflexivity.
    + destruct (workdir input) as [w|]; [|discriminate].
      destruct (String.eqb_spec w ""); [discriminate|]. congruence.
Qed.

End Front.

End ExecFrontFacts.

(** [ls] with a timeout of -5 ms: the options carry -5, [spawn] of Node
    refuses it, and the front end throws. *)
Lemma exec_front_witness :
  Exec.exec Exec.noSeatbelt RawExec.sameCommand RawExec.linuxSignals
            RawExec.asciiDecode Exec.spawnQuiet "/work" "/tmp"
            {| Exec.cmd := ["ls"]; Exec.workdir := None;
               Exec.timeoutInMillis := Some (-5)%Z |}
            [] Exec.NONE
  = RawExec.Throws "RangeError [ERR_OUT_OF_RANGE]".
Proof.
  destruct (proj1 (@ExecFrontFacts.exec_front
                     Exec.noSeatbelt RawExec.sameCommand RawExec.linuxSignals
                     RawExec.asciiDecode Exec.spawnQuiet "/work" "/tmp"
                     {| Exec.cmd := ["ls"]; Exec.workdir := None;
                        Exec.timeoutInMillis := Some (-5)%Z |}
                     [] Exec.NONE)
                  ltac:(discriminate))
    as (Hthrows & _).
  apply (Hthrows "RangeError [ERR_OUT_OF_RANGE]").
  split; [discriminate | reflexivity].
Defined.

(** ** The regular expressions *)

Module RegexFacts.

Import Regex.


Lemma lastOf_cons (prev : option ascii) (c : ascii) (s : string) :
  lastOf prev (String c s) = lastOf (Some c) s.
Proof.
  unfold lastOf. cbn [list_ascii_of_string map].
  generalize (map Some (list_ascii_of_string s)). intros l.
  revert c. induction l as [|x l IH]; intros c; [reflexivity|].
  cbn [last]. destruct l; [reflexivity|]. cbn [last] in *. apply (IH c).
Qed.

Lemma lower_word (c : ascii) : isWordChar (Js.lower c) = isWordChar c.
Proof. destruct c as [[] [] [] [] [] [] [] []]; reflexivity. Qed.

Lemma eqb_ci_word (a c : ascii) :
  Js.eqb_ci a c = true -> isWordChar c = isWordChar a.
Proof.
  unfold Js.eqb_ci. intros H. apply Ascii.eqb_eq in H.
  now rewrite <- (lower_word c), <- H, lower_word.
Qed.

(** A search finds a match when there is one further on. *)
Lemma searchFrom_later (re : Re) (pre s : string) :
  forall prev index,
    matchAt re (lastOf prev pre) s <> None ->
    searchFrom re prev (pre ++ s) index <> None.
Proof.
  induction pre as [|c pre IH]; intros prev index H.
  - cbn [String.append]. destruct s; cbn [searchFrom];
      (destruct (matchAt re prev _) eqn:E; [discriminate | now contradiction H]).
  - cbn [String.append searchFrom].
    destruct (matchAt re prev (String c (pre ++ s))); [discriminate|].
    apply IH. now rewrite lastOf_cons in H.
Qed.

(** A literal matches the text that is the same up to case. *)
Lemma literal_same (w : string) :
  forall mid prev post k,
    History.same_ci w mid = true ->
    literal w prev (mid ++ post) k = k (lastOf prev mid) post.
Proof.
  induction w as [|a w IH]; intros mid prev post k H; destruct mid as [|c mid];
    try discriminate; [reflexivity|].
  cbn in H. apply andb_prop in H. destruct H as [Hc Hrest].
  cbn [String.append literal]. rewrite Hc, lastOf_cons. now apply IH.
Qed.

(** A greedy repetition finds a way when one of its splits is one. *)
Lemma repeatClass_some (p : ascii -> bool) (a : string) :
  forall min prev b k,
    forallb p (list_ascii_of_string a) = true ->
    (min <= String.length a)%nat ->
    k (lastOf prev a) b <> None ->
    repeatClass p min prev (a ++ b) k <> None.
Proof.
  induction a as [|c a IH]; intros min prev b k Hall Hmin Hk.
  - cbn in Hmin. assert (min = 0)%nat as -> by lia.
    cbn [String.append]. destruct b as [|c b]; cbn [repeatClass Nat.eqb];
      [exact Hk|].
    destruct (p c); [|exact Hk].
    destruct (repeatClass p (pred 0) (Some c) b k); [discriminate | exact Hk].
  - cbn in Hall. apply andb_prop in Hall. destruct Hall as [Hc Hall].
    cbn [String.append repeatClass]. rewrite Hc.
    rewrite lastOf_cons in Hk.
    pose proof (@IH (pred min) (Some c) b k Hall ltac:(cbn in Hmin; lia) Hk)
      as Hdeep.
    destruct (repeatClass p (pred min) (Some c) (a ++ b) k);
      [discriminate | now contradiction Hdeep].
Qed.

End RegexFacts.

(** ** The command history *)

Module HistoryFacts.

Import Regex History RegexFacts.

Lemma noRepeat_push (h : list HistoryEntry) (e : HistoryEntry) :
  noRepeat h ->
  match last (map Some h) None with
  | Some l => command l <> command e
  | None => True
  end ->
  noRepeat (h ++ [e]).
Proof.
  induction h as [|a [|b h] IH]; intros Hh Hlast.
  - exact I.
  - cbn in *. split; [exact Hlast | exact I].
  - destruct Hh as [Hab Hrest].
    change ((a :: b :: h) ++ [e]) with (a :: (b :: h) ++ [e]).
    cbn [app noRepeat]. split; [exact Hab|].
    apply IH; [exact Hrest | exact Hlast].
Qed.

Lemma slice_last (A : Type) (n : Z) (l : list A) :
  (0 < n)%Z ->
  List.length (slice (- n) l)
  = Nat.min (List.length l) (Z.to_nat n)
  /\ slice (- n) l = skipn (List.length l - Z.to_nat n) l.
Proof.
  intros Hn. unfold slice.
  destruct (Z.ltb_spec (- n) 0) as [_|H]; [|lia].
  assert (E : Z.to_nat (Z.max (Z.of_nat (List.length l) + - n) 0)
              = (List.length l - Z.to_nat n)%nat) by lia.
  rewrite E, length_skipn. split; [lia | reflexivity].
Qed.

Section HistoryProperties.

Variable RegExp_test : string -> string -> option bool.

Local Abbreviation add := (addToHistory RegExp_test).
Local Abbreviation sensitive := (isSensitiveCommand RegExp_test).
Local Abbreviation clean := (History.clean RegExp_test).

(** What [addToHistory] returns: the history it was given, or that
    history with one entry more, when nothing speaks against it. *)
Lemma addToHistory_cases now cmd history config :
  add now cmd history config = (history, None)
  \/ (add now cmd history config
      = (history ++ [{| command := cmd; timestamp := now |}],
         Some (saveCommandHistory
                 (history ++ [{| command := cmd; timestamp := now |}])
                 config))
      /\ saveHistory config = true
      /\ isBlank cmd = false
      /\ sensitive cmd (sensitivePatterns config) = false
      /\ match last (map Some history) None with
         | Some l => command l <> cmd
         | None => True
         end).
Proof.
  unfold addToHistory.
  destruct (saveHistory config); cbn [negb orb]; [|now left].
  destruct (isBlank cmd); [now left|].
  destruct (sensitive cmd (sensitivePatterns config)); [now left|].
  destruct (last (map Some history) None) as [l|];
    [|right; repeat split].
  destruct (String.eqb_spec (command l) cmd); [now left|].
  right. repeat split. assumption.
Qed.


Lemma addToHistory_clean config now cmd h :
  clean config h -> clean config (fst (add now cmd h config)).
Proof.
  intros [Hrep Hall].
  destruct (addToHistory_cases now cmd h config)
    as [-> | (-> & _ & Hblank & Hsens & Hlast)]; cbn [fst]; [now split|].
  split; [now apply noRepeat_push|].
  intros e He. apply in_app_or in He. destruct He as [He | [<- | []]];
    [auto | now split].
Qed.

(** The history that a series of calls of [addToHistory] builds from the
    empty history holds no blank command and no command that
    [isSensitiveCommand] flags, never holds the same command twice in a
    row, and holds nothing at all when [saveHistory] is off; it is never
    longer than the series. *)
Theorem history_stays_clean
        (config : HistoryConfig) (commands : list (Z * string)) :
  let h := addAll RegExp_test config commands [] in
  noRepeat h
  /\ (forall e, In e h ->
                isBlank (command e) = false
                /\ sensitive (command e) (sensitivePatterns config) = false
                /\ In (timestamp e, command e) commands)
  /\ (List.length h <= List.length commands)%nat
  /\ (saveHistory config = false -> h = []).
Proof.
  intros h. subst h. unfold addAll.
  assert (G : forall h0,
             clean config h0 ->
             let h := fold_left (fun h c => fst (add (fst c) (snd c) h config))
                                commands h0 in
             clean config h
             /\ (forall e, In e h ->
                           In e h0 \/ In (timestamp e, command e) commands)
             /\ (List.length h <= List.length h0 + List.length commands)%nat
             /\ (saveHistory config = false -> h = h0)).
  { induction commands as [|[now cmd] rest IH]; intros h0 Hclean;
      cbn [fold_left fst snd].
    - split; [exact Hclean|]. split; [now left|]. split; [cbn; lia | auto].
    - pose proof (@addToHistory_clean config now cmd h0 Hclean) as Hnext.
      destruct (IH _ Hnext) as (Hc & Hin & Hlen & Hoff). cbn zeta in *.
      split; [exact Hc|].
      destruct (addToHistory_cases now cmd h0 config)
        as [E | (E & Hsave & _)]; rewrite E in *; cbn [fst] in *.
      + split; [|split; [cbn; lia | exact Hoff]].
        intros e He. destruct (Hin e He) as [H | H]; [now left|].
        right. now right.
      + split; [|split].
        * intros e He. destruct (Hin e He) as [H | H]; [|right; now right].
          apply in_app_or in H. destruct H as [H | [<- | []]]; [now left|].
          right. now left.
        * rewrite length_app in Hlen. cbn in *. lia.
        * intros Hoff'. congruence. }
  destruct (G [] (conj I (fun e (H : In e []) => match H with end)))
    as ((Hrep & Hall) & Hin & Hlen & Hoff).
  cbn zeta in *. split; [exact Hrep|].
  split; [|split; [exact Hlen | exact Hoff]].
  intros e He. destruct (Hall e He) as [Hb Hs].
  split; [exact Hb|]. split; [exact Hs|].
  destruct (Hin e He) as [[] | H]. exact H.
Qed.

(** What is written to the history file is the tail of the history:
    under a positive [maxSize] the newest entries, [maxSize] of them at
    most, the entry just added among them, while the history that is
    returned keeps every entry; under [maxSize] 0 the whole history is
    written, and under a negative [maxSize] the history without its
    oldest [-maxSize] entries. *)
Theorem saved_history_is_trimmed
        (now : Z) (cmd : string) (history saved : list HistoryEntry)
        (config : HistoryConfig) :
  snd (add now cmd history config) = Some saved ->
  let newHistory := history ++ [{| command := cmd; timestamp := now |}] in
  fst (add now cmd history config) = newHistory
  /\ (exists dropped, newHistory = dropped ++ saved)
  /\ ((0 < maxSize config)%Z ->
      (Z.of_nat (List.length saved) <= maxSize config)%Z
      /\ List.length saved
         = Nat.min (List.length newHistory) (Z.to_nat (maxSize config))
      /\ last saved {| command := ""; timestamp := 0 |}
         = {| command := cmd; timestamp := now |})
  /\ (maxSize config = 0%Z -> saved = newHistory)
  /\ ((maxSize config < 0)%Z ->
      saved = skipn (Z.to_nat (- maxSize config)) newHistory).
Proof.
  intros Hsaved newHistory.
  destruct (addToHistory_cases now cmd history config)
    as [E | (E & _)]; rewrite E in Hsaved; [discriminate|].
  rewrite E. cbn [fst snd] in *. injection Hsaved as <-.
  fold newHistory. unfold saveCommandHistory.
  split; [reflexivity|]. split.
  { unfold slice. eexists. symmetry. apply firstn_skipn. }
  split; [|split].
  - intros Hpos. destruct (slice_last newHistory Hpos) as [Hlen Hskip].
    split; [lia|]. split; [exact Hlen|].
    rewrite Hskip. subst newHistory.
    assert (Hk : (List.length (history ++ [{| command := cmd; timestamp := now |}])
                  - Z.to_nat (maxSize config) <= List.length history)%nat).
    { rewrite length_app. cbn. lia. }
    rewrite skipn_app.
    replace (List.length (history ++ _) - Z.to_nat (maxSize config)
             - List.length history)%nat with 0%nat by lia.
    cbn [skipn]. now rewrite last_last.
  - intros ->. unfold slice.
    destruct (Z.ltb_spec (- 0) 0); [lia|].
    now rewrite Z.min_l by lia.
  - intros Hneg. unfold slice.
    destruct (Z.ltb_spec (- maxSize config) 0); [lia|].
    destruct (Z.le_gt_cases (- maxSize config)
                            (Z.of_nat (List.length newHistory))) as [Hle|Hgt].
    + now rewrite Z.min_l by lia.
    + rewrite Z.min_r by lia. rewrite !skipn_all2 by lia. reflexivity.
Qed.

Lemma word_token (c : ascii) : isWordChar c = true -> isTokenChar c = true.
Proof. destruct c as [[] [] [] [] [] [] [] []]; cbn; auto. Qed.

Lemma same_ci_word (w : string) :
  forall mid,
    same_ci w mid = true ->
    forallb isWordChar (list_ascii_of_string w) = true ->
    forallb isWordChar (list_ascii_of_string mid) = true.
Proof.
  induction w as [|a w IH]; intros [|c mid] H Hw; try discriminate;
    [reflexivity|].
  cbn in *. apply andb_prop in H. destruct H as [Hc H].
  apply andb_prop in Hw. destruct Hw as [Ha Hw].
  rewrite (eqb_ci_word _ _ Hc), Ha. cbn. now apply IH.
Qed.

(** A text made of characters of words, and not empty, starts and ends
    inside a word. *)
Lemma word_edges (mid post : string) (prev : option ascii) :
  mid <> EmptyString ->
  forallb isWordChar (list_ascii_of_string mid) = true ->
  isWordAfter (mid ++ post) = true /\ isWordBefore (lastOf prev mid) = true.
Proof.
  intros Hne Hall. destruct mid as [|c mid]; [contradiction|].
  cbn in Hall. apply andb_prop in Hall. destruct Hall as [Hc Hall].
  split; [exact Hc|]. rewrite lastOf_cons.
  clear Hne. revert c Hc. induction mid as [|d mid IH]; intros c Hc;
    [exact Hc|].
  cbn in Hall. apply andb_prop in Hall. destruct Hall as [Hd Hall].
  rewrite lastOf_cons. now apply IH.
Qed.

Lemma wholeWord_matches (w pre mid post : string) :
  w <> EmptyString ->
  forallb isWordChar (list_ascii_of_string w) = true ->
  same_ci w mid = true ->
  endsOutsideWord pre -> startsOutsideWord post ->
  test (wholeWord w) (pre ++ mid ++ post) = true.
Proof.
  intros Hw Hall Hsame Hpre Hpost.
  assert (Hmid : mid <> EmptyString).
  { intros ->. destruct w; [now contradiction Hw | discriminate Hsame]. }
  destruct (@word_edges mid post (lastOf None pre) Hmid
                        (same_ci_word _ _ Hsame Hall)) as [Hafter Hbefore].
  unfold test, exec.
  destruct (searchFrom (wholeWord w) None (pre ++ mid ++ post) 0) eqn:E;
    [reflexivity|].
  exfalso. revert E. apply searchFrom_later.
  unfold matchAt, wholeWord. cbn [matchRe].
  unfold endsOutsideWord in Hpre. unfold startsOutsideWord in Hpost.
  rewrite Hpre, Hafter. cbn [xorb].
  rewrite (literal_same _ _ _ _ _ Hsame), Hbefore, Hpost. cbn [xorb].
  discriminate.
Qed.

Lemma token_matches (pre mid post : string) :
  forallb isWordChar (list_ascii_of_string mid) = true ->
  (20 <= String.length mid)%nat ->
  endsOutsideWord pre -> startsOutsideWord post ->
  test (Seq WordBoundary (Seq (Repeat 20 isTokenChar) WordBoundary))
       (pre ++ mid ++ post) = true.
Proof.
  intros Hall Hlen Hpre Hpost.
  assert (Hmid : mid <> EmptyString) by (destruct mid; [cbn in Hlen; lia | discriminate]).
  destruct (@word_edges mid post (lastOf None pre) Hmid Hall)
    as [Hafter Hbefore].
  unfold test, exec.
  match goal with
  | |- Js.isSome (searchFrom ?re _ _ _) = _ =>
      destruct (searchFrom re None (pre ++ mid ++ post) 0) eqn:E;
        [reflexivity|]; exfalso; revert E; apply searchFrom_later
  end.
  unfold matchAt. cbn [matchRe].
  unfold endsOutsideWord in Hpre. unfold startsOutsideWord in Hpost.
  rewrite Hpre, Hafter. cbn [xorb].
  match goal with
  | |- match ?r with Some _ => _ | None => _ end <> None =>
      assert (Hr : r <> None); [|destruct r; [discriminate | now contradiction Hr]]
  end.
  apply repeatClass_some; [|exact Hlen|].
  - clear -Hall. induction (list_ascii_of_string mid) as [|c l IH];
      [reflexivity|].
    cbn in *. apply andb_prop in Hall. destruct Hall as [Hc Hall].
    now rewrite (word_token _ Hc), IH.
  - rewrite Hbefore, Hpost. cbn [xorb]. discriminate.
Qed.

(** A command that holds one of the words password, secret, token and
    key as a whole word, in any case of its letters, or a run of twenty
    or more letters, digits and underscores that stands by itself, is
    sensitive whatever the patterns of the configuration are, and
    [addToHistory] neither stores nor saves it. *)
Theorem sensitive_commands_not_stored
        (now : Z) (pre mid post : string) (history : list HistoryEntry)
        (config : HistoryConfig) :
  endsOutsideWord pre ->
  startsOutsideWord post ->
  (exists w, In w sensitiveWords /\ same_ci w mid = true)
  \/ (forallb isWordChar (list_ascii_of_string mid) = true
      /\ (20 <= String.length mid)%nat) ->
  sensitive (pre ++ mid ++ post) (sensitivePatterns config) = true
  /\ add now (pre ++ mid ++ post) history config = (history, None).
Proof.
  intros Hpre Hpost Hmid.
  assert (Hs : sensitive (pre ++ mid ++ post) (sensitivePatterns config) = true).
  { unfold isSensitiveCommand. apply orb_true_iff. left.
    apply existsb_exists.
    destruct Hmid as [(w & Hw & Hsame) | [Hall Hlen]].
    - exists (wholeWord w). split.
      + unfold SENSITIVE_PATTERNS, sensitiveWords in *. cbn in *.
        destruct Hw as [<- | [<- | [<- | [<- | []]]]]; tauto.
      + apply wholeWord_matches; try assumption;
          unfold sensitiveWords in Hw; cbn in Hw;
          destruct Hw as [<- | [<- | [<- | [<- | []]]]];
          solve [discriminate | reflexivity].
    - eexists. split; [left; reflexivity|].
      now apply token_matches. }
  split; [exact Hs|].
  unfold addToHistory. rewrite Hs.
  now destruct (negb (saveHistory config) || isBlank (pre ++ mid ++ post)).
Qed.

End HistoryProperties.

End HistoryFacts.

(** A command that exports a token is not stored. *)
Lemma sensitive_commands_not_stored_witness :
  History.addToHistory History.noPatterns 7 "export TOKEN=abc" []
                       History.DEFAULT_HISTORY_CONFIG
  = ([], None).
Proof.
  exact (proj2 (@HistoryFacts.sensitive_commands_not_stored
                  History.noPatterns 7%Z "export " "TOKEN" "=abc" []
                  History.DEFAULT_HISTORY_CONFIG eq_refl eq_refl
                  (or_introl (ex_intro _ "token"
                                       (conj (or_intror (or_intror (or_introl eq_refl)))
                                             eq_refl))))).
Defined.

(** Under a [maxSize] of 2 the third command pushes the first out of
    the file, not out of the history that is returned. *)
Lemma saved_history_is_trimmed_witness :
  fst (History.addToHistory History.noPatterns 3 "make"
         [{| History.command := "ls"; History.timestamp := 1 |};
          {| History.command := "pwd"; History.timestamp := 2 |}]
         {| History.maxSize := 2; History.saveHistory := true;
            History.sensitivePatterns := [] |})
  = [{| History.command := "ls"; History.timestamp := 1 |};
     {| History.command := "pwd"; History.timestamp := 2 |}]
    ++ [{| History.command := "make"; History.timestamp := 3 |}].
Proof.
  exact (proj1 (@HistoryFacts.saved_history_is_trimmed
                  History.noPatterns 3%Z "make"
                  [{| History.command := "ls"; History.timestamp := 1 |};
                   {| History.command := "pwd"; History.timestamp := 2 |}]
                  [{| History.command := "pwd"; History.timestamp := 2 |};
                   {| History.command := "make"; History.timestamp := 3 |}]
                  {| History.maxSize := 2; History.saveHistory := true;
                     History.sensitivePatterns := [] |}
                  eq_refl)).
Defined.

(** ** The regular expressions of the text input *)

Module MatchFacts.

Import Regex TextInput.

Lemma length_append (a b : string) :
  String.length (a ++ b) = (String.length a + String.length b)%nat.
Proof. induction a as [|c a IH]; cbn; [reflexivity | now rewrite IH]. Qed.

Lemma append_nil_r (a : string) : (a ++ "")%string = a.
Proof. induction a as [|c a IH]; cbn; [reflexivity | now rewrite IH]. Qed.

Lemma append_assoc (a b c : string) :
  ((a ++ b) ++ c)%string = (a ++ b ++ c)%string.
Proof. induction a as [|x a IH]; cbn; [reflexivity | now rewrite IH]. Qed.

Lemma chars_append (a b : string) :
  list_ascii_of_string (a ++ b)
  = list_ascii_of_string a ++ list_ascii_of_string b.
Proof. induction a as [|c a IH]; cbn; [reflexivity | now rewrite IH]. Qed.


Lemma span_split (p : ascii -> bool) (s : string) :
  s = (fst (span p s) ++ snd (span p s))%string
  /\ forallb p (list_ascii_of_string (fst (span p s))) = true.
Proof.
  induction s as [|c s IH]; [now split|].
  cbn [span]. destruct (p c) eqn:Hc; [|now split].
  destruct (span p s) as [a r]. cbn in *. destruct IH as [E Ha].
  split; [now f_equal | now rewrite Hc].
Qed.

(** A greedy repetition with nothing after it takes the longest run. *)
Lemma repeatClass_run (p : ascii -> bool) (s : string) :
  forall min prev,
    repeatClass p min prev s (fun _ r => Some r)
    = if (min <=? String.length (fst (span p s)))%nat
      then Some (snd (span p s)) else None.
Proof.
  induction s as [|c s IH]; intros min prev; cbn [repeatClass span].
  - cbn. now destruct min.
  - destruct (p c) eqn:Hc.
    + rewrite IH. destruct (span p s) as [a r]. cbn [fst snd String.length].
      destruct min as [|min]; cbn [pred Nat.leb Nat.eqb].
      * now destruct (String.length a).
      * destruct (min <=? String.length a)%nat; reflexivity.
    + cbn. now destruct min.
Qed.

Lemma matchAt_repeat (p : ascii -> bool) (min : nat) (prev : option ascii)
      (s : string) (n : nat) :
  matchAt (Repeat min p) prev s = Some n ->
  (min <= n)%nat
  /\ exists b c, s = (b ++ c)%string /\ String.length b = n
                 /\ forallb p (list_ascii_of_string b) = true.
Proof.
  unfold matchAt. cbn [matchRe]. rewrite repeatClass_run.
  destruct (span_split p s) as [E Hall].
  destruct (Nat.leb_spec min (String.length (fst (span p s)))) as [Hle|];
    [|discriminate].
  intros [= <-].
  assert (Hlen : String.length s
                 = (String.length (fst (span p s))
                    + String.length (snd (span p s)))%nat)
    by (rewrite E at 1; apply length_append).
  split; [lia|].
  exists (fst (span p s)), (snd (span p s)).
  split; [exact E|]. split; [lia | exact Hall].
Qed.

(** The matches of the loop over a class repeated once or more: each is
    a run of the class, not empty, inside the string. *)
Lemma execAll_runs (p : ascii -> bool) (s : string) :
  forall prev index skip i n,
    In (i, n) (execAll (Repeat 1 p) prev s index skip) ->
    exists a b c,
      s = (a ++ b ++ c)%string /\ i = (index + String.length a)%nat
      /\ n = String.length b /\ (1 <= n)%nat
      /\ forallb p (list_ascii_of_string b) = true.
Proof.
  induction s as [|ch s IH]; intros prev index skip i n H.
  - destruct skip; cbn [execAll] in H; [|contradiction].
    destruct (matchAt (Repeat 1 p) prev "") as [m|] eqn:E; [|contradiction].
    apply matchAt_repeat in E. destruct E as (Hm & b & c & Hs & Hb & _).
    destruct b; cbn in *; [lia | discriminate].
  - assert (Hrest : forall prev' skip',
               In (i, n) (execAll (Repeat 1 p) prev' s (S index) skip') ->
               exists a b c,
                 String ch s = (a ++ b ++ c)%string
                 /\ i = (index + String.length a)%nat
                 /\ n = String.length b /\ (1 <= n)%nat
                 /\ forallb p (list_ascii_of_string b) = true).
    { intros prev' skip' H'.
      destruct (IH _ _ _ _ _ H') as (a & b & c & E & Hi & Hn & H1 & Hall).
      exists (String ch a), b, c. cbn. rewrite E.
      repeat split; try assumption. lia. }
    destruct skip as [|skip]; cbn [execAll] in H; [|now apply Hrest in H].
    destruct (matchAt (Repeat 1 p) prev (String ch s)) as [m|] eqn:E;
      [|now apply Hrest in H].
    destruct H as [H | H]; [|now apply Hrest in H].
    injection H as <- <-.
    apply matchAt_repeat in E. destruct E as (Hm & b & c & Hs & Hb & Hall).
    exists "", b, c. cbn. rewrite Hs.
    repeat split; try assumption; lia.
Qed.

(** A run of the class that reaches the end of the input. *)
Lemma repeatClass_end (p : ascii -> bool) (s : string) :
  forall min prev,
    repeatClass p min prev s
                (fun prev' s' => matchRe EndOfInput prev' s' (fun _ r => Some r))
    = if forallb p (list_ascii_of_string s) && (min <=? String.length s)%nat
      then Some "" else None.
Proof.
  induction s as [|c s IH]; intros min prev; cbn [repeatClass].
  - cbn. now destruct min.
  - cbn [list_ascii_of_string forallb String.length]. destruct (p c) eqn:Hc.
    + rewrite IH. cbn [andb].
      destruct min as [|min]; cbn [pred Nat.leb Nat.eqb].
      * now destruct (forallb p (list_ascii_of_string s)).
      * now destruct (forallb p (list_ascii_of_string s)
                      && (min <=? String.length s)%nat).
    + cbn. now destruct min.
Qed.

Lemma trailing_le (p : ascii -> bool) (s : string) :
  (trailing p s <= String.length s)%nat.
Proof.
  induction s as [|c s IH]; [cbn; lia|]. cbn [trailing].
  destruct (forallb p (list_ascii_of_string (String c s))); cbn; lia.
Qed.

Lemma trailing_all (p : ascii -> bool) (s : string) :
  forallb p (list_ascii_of_string s) = true -> trailing p s = String.length s.
Proof. destruct s; [reflexivity|]. cbn [trailing]. now intros ->. Qed.

(** [/[...]+$/] finds the characters of the class that the input ends
    with. *)
Lemma search_trailing (p : ascii -> bool) (s : string) :
  forall prev index,
    searchFrom (Seq (Repeat 1 p) EndOfInput) prev s index
    = if (trailing p s =? 0)%nat then None
      else Some ((index + (String.length s - trailing p s))%nat, trailing p s).
Proof.
  induction s as [|c s IH]; intros prev index.
  - reflexivity.
  - cbn [searchFrom]. unfold matchAt. cbn [matchRe]. rewrite repeatClass_end.
    cbn [trailing].
    destruct (forallb p (list_ascii_of_string (String c s))) eqn:Hall.
    + cbn [andb Nat.leb String.length Nat.eqb].
      do 2 f_equal. cbn. lia.
    + cbn [andb]. rewrite IH.
      pose proof (trailing_le p s).
      destruct (trailing p s =? 0)%nat; [reflexivity|].
      do 2 f_equal. cbn [String.length]. lia.
Qed.

(** A string is its part before the trailing run, which does not end in
    the class, and that run. *)
Lemma trailing_split (p : ascii -> bool) (s : string) :
  exists a b,
    s = (a ++ b)%string /\ String.length b = trailing p s
    /\ forallb p (list_ascii_of_string b) = true /\ trailing p a = 0%nat.
Proof.
  induction s as [|c s IH].
  - exists "", "". now repeat split.
  - cbn [trailing].
    destruct (forallb p (list_ascii_of_string (String c s))) eqn:Hall.
    + exists "", (String c s). now repeat split.
    + destruct IH as (a & b & E & Hb & Hpb & Ha).
      exists (String c a), b. cbn [String.append].
      split; [now rewrite E|]. split; [exact Hb|]. split; [exact Hpb|].
      cbn [trailing]. rewrite Ha.
      destruct (forallb p (list_ascii_of_string (String c a))) eqn:Hca;
        [|reflexivity].
      exfalso. rewrite E in Hall. cbn [list_ascii_of_string forallb] in *.
      rewrite chars_append, forallb_app in Hall.
      apply andb_prop in Hca. destruct Hca as [Hc Hpa].
      now rewrite Hc, Hpa, Hpb in Hall.
Qed.

Lemma trailing_run (p : ascii -> bool) (a b : string) :
  b <> EmptyString ->
  forallb p (list_ascii_of_string b) = true ->
  trailing p (a ++ b) <> 0%nat.
Proof.
  intros Hb Hall. induction a as [|c a IH]; cbn [String.append].
  - rewrite trailing_all by assumption.
    destruct b; [contradiction | cbn; lia].
  - cbn [trailing].
    destruct (forallb p (list_ascii_of_string (String c (a ++ b))));
      [cbn [String.length]; lia | exact IH].
Qed.

Lemma substring_prefix (a b : string) :
  substring 0 (String.length a) (a ++ b) = a.
Proof. induction a as [|c a IH]; cbn; [now destruct b | now rewrite IH]. Qed.

Lemma substring_skip (a b : string) (n : nat) :
  substring (String.length a) n (a ++ b) = substring 0 n b.
Proof. induction a as [|c a IH]; cbn; [reflexivity | exact IH]. Qed.

Lemma substring_none (s : string) : forall n, substring n 0 s = "".
Proof. induction s as [|c s IH]; intros [|n]; cbn; auto. Qed.

Lemma substring_all (s : string) : substring 0 (String.length s) s = s.
Proof. induction s as [|c s IH]; cbn; [reflexivity | now rewrite IH]. Qed.

(** Removing the trailing run leaves the part before it. *)
Lemma removeFirst_trailing (p : ascii -> bool) (s : string) :
  exists a b,
    s = (a ++ b)%string /\ removeFirst (Seq (Repeat 1 p) EndOfInput) s = a
    /\ forallb p (list_ascii_of_string b) = true /\ trailing p a = 0%nat.
Proof.
  destruct (trailing_split p s) as (a & b & E & Hb & Hall & Ha).
  exists a, b. split; [exact E|]. split; [|now split].
  unfold removeFirst, exec. rewrite search_trailing, <- Hb.
  destruct (String.length b =? 0)%nat eqn:E0.
  - apply Nat.eqb_eq in E0. destruct b; [|discriminate].
    rewrite E. apply append_nil_r.
  - cbn [Nat.add]. rewrite E, length_append.
    replace (String.length a + String.length b - String.length b)%nat
      with (String.length a) by lia.
    rewrite substring_prefix, Nat.sub_diag, substring_none.
    apply append_nil_r.
Qed.


Lemma repeatClass_rest (p : ascii -> bool) (s : string) :
  forall min prev k r,
    repeatClass p min prev s k = Some r ->
    exists prev' s', restOf s' s /\ k prev' s' = Some r.
Proof.
  induction s as [|c s IH]; intros min prev k r H; cbn [repeatClass] in H.
  - destruct (min =? 0)%nat; [|discriminate].
    exists prev, "". split; [unfold restOf; lia | exact H].
  - assert (Hk : (if (min =? 0)%nat then k prev (String c s) else None)
                 = Some r ->
                 exists prev' s', restOf s' (String c s) /\ k prev' s' = Some r).
    { destruct (min =? 0)%nat; [|discriminate]. intros Hk.
      exists prev, (String c s). split; [unfold restOf; lia | exact Hk]. }
    destruct (p c); [|now apply Hk].
    destruct (repeatClass p (pred min) (Some c) s k) as [r'|] eqn:E;
      [|now apply Hk].
    injection H as ->. apply IH in E. destruct E as (prev' & s' & Hs & Hr).
    exists prev', s'. split; [unfold restOf in *; cbn; lia | exact Hr].
Qed.

Lemma literal_rest (w : string) :
  forall prev s k r,
    literal w prev s k = Some r ->
    exists prev' s', restOf s' s /\ k prev' s' = Some r.
Proof.
  induction w as [|a w IH]; intros prev s k r H; cbn [literal] in H.
  - exists prev, s. split; [unfold restOf; lia | exact H].
  - destruct s as [|c s]; [discriminate|].
    destruct (Js.eqb_ci a c); [|discriminate].
    apply IH in H. destruct H as (prev' & s' & Hs & Hr).
    exists prev', s'. split; [unfold restOf in *; cbn; lia | exact Hr].
Qed.

(** A match ends inside the input. *)
Lemma matchRe_rest (re : Re) :
  forall prev s k r,
    matchRe re prev s k = Some r ->
    exists prev' s', restOf s' s /\ k prev' s' = Some r.
Proof.
  induction re as [p | w | min p | | | a IHa b IHb]; intros prev s k r H;
    cbn [matchRe] in H.
  - destruct s as [|c s]; [discriminate|]. destruct (p c); [|discriminate].
    exists (Some c), s. split; [unfold restOf; cbn; lia | exact H].
  - now apply literal_rest in H.
  - now apply repeatClass_rest in H.
  - destruct (xorb _ _); [|discriminate].
    exists prev, s. split; [unfold restOf; lia | exact H].
  - destruct s; [|discriminate].
    exists prev, "". split; [unfold restOf; lia | exact H].
  - apply IHa in H. destruct H as (prev1 & s1 & Hs1 & H).
    apply IHb in H. destruct H as (prev2 & s2 & Hs2 & H).
    exists prev2, s2. split; [unfold restOf in *; lia | exact H].
Qed.

Lemma matchAt_bound (re : Re) (prev : option ascii) (s : string) (n : nat) :
  matchAt re prev s = Some n -> (n <= String.length s)%nat.
Proof.
  unfold matchAt.
  destruct (matchRe re prev s (fun _ r => Some r)) as [r|]; [|discriminate].
  intros [= <-]. lia.
Qed.

Lemma searchFrom_bound (re : Re) (s : string) :
  forall prev index i n,
    searchFrom re prev s index = Some (i, n) ->
    (index <= i)%nat /\ (i - index + n <= String.length s)%nat.
Proof.
  induction s as [|c s IH]; intros prev index i n H; cbn [searchFrom] in H.
  - destruct (matchAt re prev "") as [m|] eqn:E; [|discriminate].
    injection H as <- <-. apply matchAt_bound in E. cbn in *. lia.
  - destruct (matchAt re prev (String c s)) as [m|] eqn:E.
    + injection H as <- <-. apply matchAt_bound in E. lia.
    + apply IH in H. cbn [String.length]. lia.
Qed.

End MatchFacts.

Module TextInputFacts.

Import Regex TextInput MatchFacts.

Lemma len_append (a b : string) : len (a ++ b) = (len a + len b)%Z.
Proof. unfold len. rewrite length_append. lia. Qed.

Lemma len_cons (c : ascii) (s : string) : len (String c s) = (1 + len s)%Z.
Proof. unfold len. cbn [String.length]. lia. Qed.

Lemma len_nonneg (s : string) : (0 <= len s)%Z.
Proof. unfold len. lia. Qed.

Lemma substring_length (s : string) :
  forall n m,
    String.length (substring n m s) = Nat.min m (String.length s - n).
Proof.
  induction s as [|c s IH]; intros [|n] [|m]; cbn; try reflexivity.
  - now rewrite IH, Nat.sub_0_r.
  - now rewrite IH.
  - now rewrite IH.
Qed.

Lemma relativeIndex_in (i : Z) (s : string) :
  (0 <= i <= len s)%Z -> relativeIndex i s = i.
Proof.
  intros H. unfold relativeIndex.
  destruct (Z.ltb_spec i 0); [lia|]. lia.
Qed.

Lemma slice_len (a b : Z) (s : string) :
  (0 <= a)%Z -> (a <= b)%Z -> (b <= len s)%Z ->
  len (slice a b s) = (b - a)%Z.
Proof.
  intros Ha Hab Hb. unfold slice.
  rewrite !relativeIndex_in by lia.
  unfold len in *. rewrite substring_length. lia.
Qed.

(** A string splits at every index. *)
Lemma split_at (s : string) (n : Z) :
  (0 <= n <= len s)%Z ->
  exists x y, s = (x ++ y)%string /\ len x = n.
Proof.
  unfold len. revert n. induction s as [|c s IH]; intros n Hn.
  - exists "", "". cbn in *. split; [reflexivity | lia].
  - destruct (Z.eq_dec n 0) as [->|Hne].
    + exists "", (String c s). now split.
    + destruct (IH (n - 1)%Z) as (x & y & E & Hx);
        [cbn [String.length] in Hn; lia|].
      exists (String c x), y. cbn. split; [now rewrite E | lia].
Qed.

Lemma slice_prefix (x y : string) : slice 0 (len x) (x ++ y) = x.
Proof.
  unfold slice.
  rewrite !relativeIndex_in
    by (rewrite ?len_append; pose proof (len_nonneg x); pose proof (len_nonneg y); lia).
  unfold len. rewrite Z.sub_0_r, Nat2Z.id. apply substring_prefix.
Qed.

Lemma slice_suffix (x y : string) : slice (len x) (len (x ++ y)) (x ++ y) = y.
Proof.
  unfold slice.
  rewrite !relativeIndex_in
    by (rewrite ?len_append; pose proof (len_nonneg x); pose proof (len_nonneg y); lia).
  rewrite len_append. unfold len.
  replace (Z.of_nat (String.length x) + Z.of_nat (String.length y)
           - Z.of_nat (String.length x))%Z
    with (Z.of_nat (String.length y)) by lia.
  rewrite !Nat2Z.id, substring_skip. apply substring_all.
Qed.

Lemma get_append (a b : string) (c : ascii) :
  forall rest, String.get (String.length a) (a ++ String c b ++ rest)%string = Some c.
Proof. intros rest. induction a as [|x a IH]; cbn; [reflexivity | exact IH]. Qed.

(** The first character of a run of separators is a separator. *)
Lemma run_head (a b c : string) :
  (1 <= String.length b)%nat ->
  forallb isSeparator (list_ascii_of_string b) = true ->
  separatorAt (Z.of_nat (String.length a)) (a ++ b ++ c).
Proof.
  intros Hb Hall. destruct b as [|ch b]; [cbn in Hb; lia|].
  cbn in Hall. apply andb_prop in Hall. destruct Hall as [Hch _].
  exists ch. split; [|exact Hch].
  unfold charAt. destruct (Z.ltb_spec (Z.of_nat (String.length a)) 0); [lia|].
  rewrite Nat2Z.id. cbn [String.append]. apply get_append.
Qed.

Lemma lastMatchIndex_cases (s : string) :
  lastMatchIndex s = 0%Z
  \/ exists i n, In (i, n) (execAll separators None s 0 0)
                 /\ lastMatchIndex s = Z.of_nat i.
Proof.
  unfold lastMatchIndex.
  generalize (execAll separators None s 0 0). intros l.
  induction l as [|m l IH] using rev_ind; [now left|].
  right. rewrite fold_left_app. cbn. destruct m as [i n].
  exists i, n. split; [apply in_or_app; right; now left | reflexivity].
Qed.

Lemma separatorAt_prefix (i : Z) (x y : string) :
  separatorAt i x -> separatorAt i (x ++ y).
Proof.
  intros (c & Hc & Hs). exists c. split; [|exact Hs].
  unfold charAt in *. destruct (i <? 0)%Z; [discriminate|].
  revert Hc. generalize (Z.to_nat i). clear. intros n. revert n.
  induction x as [|d x IH]; intros [|n] H; cbn in *; try discriminate; auto.
Qed.

(** What the part of the prompt before the cursor, without its trailing
    separators, gives as the last match. *)
Lemma prev_jump (prompt : string) (c : Z) :
  (0 <= c <= len prompt)%Z ->
  let stripped := removeFirst trailingSeparators (slice 0 c prompt) in
  let jump := if negb (lastMatchIndex stripped =? 0)%Z
              then (lastMatchIndex stripped + 1)%Z
              else lastMatchIndex stripped in
  (len stripped <= c)%Z
  /\ (0 <= jump <= len stripped)%Z
  /\ ((0 < c)%Z -> (jump < c)%Z)
  /\ (jump = 0%Z \/ separatorAt (jump - 1) prompt).
Proof.
  intros Hc stripped jump.
  destruct (split_at prompt Hc) as (x & y & Ep & Hx).
  assert (Eslice : slice 0 c prompt = x)
    by (rewrite Ep, <- Hx; apply slice_prefix).
  destruct (removeFirst_trailing isSeparator x) as (a & b & Ex & Ea & Hb & Ht).
  assert (Es : stripped = a) by (subst stripped; now rewrite Eslice).
  assert (Hlen : (len a <= c)%Z).
  { rewrite <- Hx, Ex, len_append. pose proof (len_nonneg b). lia. }
  subst jump. rewrite Es. clear stripped Es.
  set (jump := if negb (lastMatchIndex a =? 0)%Z
               then (lastMatchIndex a + 1)%Z else lastMatchIndex a).
  destruct (lastMatchIndex_cases a) as [E0 | (i & n & Hin & Ei)].
  - subst jump. rewrite E0. cbn [Z.eqb negb].
    pose proof (len_nonneg a).
    split; [exact Hlen|]. split; [lia|]. split; [lia | now left].
  - apply execAll_runs in Hin.
    destruct Hin as (a1 & b1 & c1 & Ea1 & Hi & Hn & H1 & Hall).
    cbn [Nat.add] in Hi. subst i.
    assert (Hc1 : c1 <> EmptyString).
    { intros ->. rewrite append_nil_r in Ea1.
      apply (@trailing_run isSeparator a1 b1); [|exact Hall|congruence].
      destruct b1; [cbn in Hn; lia | discriminate]. }
    assert (Hla : (Z.of_nat (String.length a1) + 2 <= len a)%Z).
    { unfold len. rewrite Ea1, !length_append.
      destruct c1; [contradiction|]. cbn [String.length]. lia. }
    assert (Hjump : jump = 0%Z
                    \/ jump = (Z.of_nat (String.length a1) + 1)%Z).
    { subst jump. rewrite Ei.
      destruct (Z.eqb_spec (Z.of_nat (String.length a1)) 0) as [->|];
        cbn [negb]; auto. }
    split; [exact Hlen|].
    destruct Hjump as [-> | ->].
    + pose proof (len_nonneg a). split; [lia|]. split; [lia | now left].
    + split; [lia|]. split; [lia|]. right.
      replace (Z.of_nat (String.length a1) + 1 - 1)%Z
        with (Z.of_nat (String.length a1)) by lia.
      rewrite Ep, Ex, Ea1.
      rewrite !append_assoc.
      apply (@run_head a1 b1 (c1 ++ b ++ y)); [lia | exact Hall].
Qed.

(** The word jumps keep the cursor inside the prompt and move it: the
    jump forward goes past the cursor unless the cursor is at the end,
    and lands at the end of the prompt or right after a separator; the
    jump backward goes before the cursor unless the cursor is at the
    start, and lands at the start or right after a separator. *)
Theorem word_jumps (prompt : string) (c : Z) :
  (0 <= c <= len prompt)%Z ->
  (c <= findNextWordJump prompt c <= len prompt)%Z
  /\ ((c < len prompt)%Z -> (c < findNextWordJump prompt c)%Z)
  /\ (findNextWordJump prompt c = len prompt
      \/ separatorAt (findNextWordJump prompt c - 1) prompt)
  /\ (0 <= findPrevWordJump prompt c <= c)%Z
  /\ ((0 < c)%Z -> (findPrevWordJump prompt c < c)%Z)
  /\ (findPrevWordJump prompt c = 0%Z
      \/ separatorAt (findPrevWordJump prompt c - 1) prompt).
Proof.
  intros Hc.
  assert (Hnext : (c <= findNextWordJump prompt c <= len prompt)%Z
                  /\ ((c < len prompt)%Z -> (c < findNextWordJump prompt c)%Z)
                  /\ (findNextWordJump prompt c = len prompt
                      \/ separatorAt (findNextWordJump prompt c - 1) prompt)).
  { unfold findNextWordJump.
    destruct (find _ (execAll separators None prompt 0 0)) as [[i n]|] eqn:E.
    - apply find_some in E. destruct E as [Hin Hlt]. cbn [fst] in *.
      apply Z.ltb_lt in Hlt.
      apply execAll_runs in Hin.
      destruct Hin as (a & b & c1 & Ep & Hi & Hn & H1 & Hall).
      cbn [Nat.add] in Hi. subst i.
      assert (Hlen : (Z.of_nat (String.length a) + 1 <= len prompt)%Z).
      { unfold len. rewrite Ep, !length_append. lia. }
      split; [lia|]. split; [lia|]. right.
      replace (Z.of_nat (String.length a) + 1 - 1)%Z
        with (Z.of_nat (String.length a)) by lia.
      rewrite Ep. apply run_head; [lia | exact Hall].
    - split; [lia|]. split; [lia | now left]. }
  destruct (prev_jump prompt Hc) as (Hlen & Hjump & Hlt & Hsep).
  cbn zeta in *. unfold findPrevWordJump.
  destruct Hnext as (H1 & H2 & H3).
  split; [exact H1|]. split; [exact H2|]. split; [exact H3|].
  split; [lia|]. split; [exact Hlt | exact Hsep].
Qed.

Lemma trailing_snoc (p : ascii -> bool) (s : string) (c : ascii) :
  trailing p (s ++ String c "")
  = if p c then S (trailing p s) else 0%nat.
Proof.
  induction s as [|d s IH]; cbn [String.append].
  - cbn. now destruct (p c).
  - cbn [trailing]. rewrite IH.
    cbn [list_ascii_of_string forallb]. rewrite chars_append, forallb_app.
    cbn [list_ascii_of_string forallb]. rewrite andb_true_r.
    destruct (p c) eqn:Hc; rewrite ?andb_false_r; [|reflexivity].
    rewrite andb_true_r.
    destruct (p d && forallb p (list_ascii_of_string s)); [|reflexivity].
    cbn [String.length]. rewrite length_append. cbn. lia.
Qed.

Lemma differs_by_length (a b : string) :
  len a <> len b -> (a =? b)%string = false.
Proof.
  intros H. destruct (String.eqb_spec a b) as [->|]; [now contradiction H|].
  reflexivity.
Qed.

(** [Enter], with [onSubmit] set: the value is submitted as it is,
    unless the cursor is at its end and it ends with exactly one
    backslash; then a line feed is appended after the backslash, the
    cursor goes to the new end and nothing is submitted.  [trailing]
    counts the backslashes at the end. *)
Theorem enter_submits_or_continues
        (value : string) (showCursor : bool) (state : State) (input : string) :
  handleInput value showCursor true state input returnKey
  = (if (cursorOffset state =? len value)%Z
        && (trailing isBackslash value =? 1)%nat
     then Update {| cursorOffset := (len value + 1)%Z; cursorWidth := 0 |}
                 (Some (value ++ newline)%string)
     else Submit value)
  /\ trailing isBackslash "" = 0%nat
  /\ (forall s c, trailing isBackslash (s ++ String c "")
                  = if isBackslash c then S (trailing isBackslash s)
                    else 0%nat).
Proof.
  split; [|split; [reflexivity | intros s c; apply trailing_snoc]].
  unfold handleInput, edit. cbn [returnKey upArrow downArrow ctrl tab shift
                                 return_ meta andb orb].
  unfold exec, trailingBackslashes. rewrite search_trailing.
  assert (Hn : match (if (trailing isBackslash value =? 0)%nat
                      then None
                      else Some ((0 + (String.length value
                                       - trailing isBackslash value))%nat,
                                 trailing isBackslash value)) with
               | Some (_, n) => n
               | None => 0%nat
               end = trailing isBackslash value).
  { destruct (Nat.eqb_spec (trailing isBackslash value) 0); [lia | reflexivity]. }
  rewrite Hn.
  destruct (Z.eqb_spec (cursorOffset state) (len value)) as [Hc|Hc];
    cbn [andb]; [|reflexivity].
  destruct (trailing isBackslash value =? 1)%nat; [|reflexivity].
  pose proof (len_nonneg value).
  destruct (Z.ltb_spec (cursorOffset state) 0); [lia|].
  destruct (Z.ltb_spec (len value) (cursorOffset state)); [lia|].
  rewrite differs_by_length
    by (rewrite len_append; unfold newline, len; cbn; lia).
  rewrite len_append. reflexivity.
Qed.

(** A character that is typed and then erased leaves the value and the
    cursor as they were: the character goes in at the cursor, which
    moves past it, and [Backspace] takes it out again. *)
Theorem typed_character_is_erased
        (value : string) (showCursor onSubmit : bool) (c w : Z) (ch : ascii) :
  (0 <= c <= len value)%Z ->
  let typed := (slice 0 c value ++ String ch ""
                ++ slice c (len value) value)%string in
  handleInput value showCursor onSubmit
              {| cursorOffset := c; cursorWidth := w |}
              (String ch "") plainKey
  = Update {| cursorOffset := (c + 1)%Z; cursorWidth := 0 |} (Some typed)
  /\ handleInput typed showCursor onSubmit
                 {| cursorOffset := (c + 1)%Z; cursorWidth := 0 |}
                 "" backspaceKey
     = Update {| cursorOffset := c; cursorWidth := 0 |} (Some value).
Proof.
  intros Hc typed.
  destruct (split_at value Hc) as (x & y & Ev & Hx).
  assert (Ex : slice 0 c value = x) by (rewrite Ev, <- Hx; apply slice_prefix).
  assert (Ey : slice c (len value) value = y)
    by (rewrite Ev, <- Hx; apply slice_suffix).
  assert (Et : typed = (x ++ String ch "" ++ y)%string)
    by (subst typed; now rewrite Ex, Ey).
  assert (Hlen : len typed = (len value + 1)%Z).
  { rewrite Et, Ev, !len_append. change (len (String ch "")) with 1%Z. lia. }
  pose proof (len_nonneg value) as Hv.
  split.
  - unfold handleInput, edit.
    cbn [plainKey upArrow downArrow leftArrow rightArrow return_ ctrl shift
                  tab backspace delete meta andb orb cursorOffset].
    fold typed.
    destruct (Z.ltb_spec c 0); [lia|].
    destruct (Z.ltb_spec (len value) c); [lia|].
    rewrite differs_by_length by lia.
    change (len (String ch "")) with 1%Z. reflexivity.
  - unfold handleInput, edit.
    cbn [backspaceKey upArrow downArrow leftArrow rightArrow return_ ctrl
                      shift tab backspace delete meta andb orb cursorOffset].
    destruct (Z.ltb_spec 0 (c + 1)); [|lia].
    destruct (Z.ltb_spec (c + 1) 0); [lia|].
    destruct (Z.ltb_spec (len typed) (c + 1)); [lia|].
    replace (c + 1 - 1)%Z with c by lia.
    assert (E1 : slice 0 c typed = x).
    { rewrite Et, <- Hx. apply slice_prefix. }
    assert (E2 : slice (c + 1) (len typed) typed = y).
    { rewrite Et, <- append_assoc.
      replace (c + 1)%Z with (len (x ++ String ch "")).
      - apply slice_suffix.
      - rewrite len_append, Hx. reflexivity. }
    rewrite E1, E2, <- Ev.
    rewrite differs_by_length by lia.
    reflexivity.
Qed.



Lemma edit_range (value : string) (showCursor onSubmit : bool) (c : Z)
      (input : string) (key : Key) (nextValue : string) (nc nw : Z) :
  (0 <= c <= len value)%Z ->
  edit value showCursor onSubmit c input key = Some (nextValue, nc, nw) ->
  inRange value showCursor c key nextValue nc.
Proof.
  intros Hc H. unfold edit in H.
  pose proof (len_nonneg value) as Hv.
  assert (Hleft : len (slice 0 c value) = c)
    by (rewrite slice_len; lia).
  assert (Hright : len (slice c (len value) value) = (len value - c)%Z)
    by (rewrite slice_len; lia).
  branch H.
  { (* Enter *)
    branch H.
    - injection H as <- <- <-. left.
      rewrite len_append, len_cons, Hleft, Hright. lia.
    - branch H.
      + injection H as <- <- <-. left. pose proof (len_nonneg (value ++ newline)).
        lia.
      + branch H; [discriminate|]. injection H as <- <- <-. left. lia. }
  branch H; [injection H as <- <- <-; left; lia|].
  branch H; [injection H as <- <- <-; left; lia|].
  branch H; [injection H as <- <- <-; left; destruct showCursor; lia|].
  branch H; [injection H as <- <- <-; left; destruct showCursor; lia|].
  branch H.
  { injection H as <- <- <-. left.
    destruct (Z.ltb_spec c (len value)); [|lia].
    rewrite len_append, Hleft, slice_len by lia. lia. }
  branch H; [injection H as <- <- <-; left; lia|].
  branch H.
  { injection H as <- <- <-. left.
    pose proof (len_nonneg (slice c (len value) value)). lia. }
  branch H.
  { (* ctrl-w *)
    injection H as <- <- <-. left.
    assert (Hcut : (0 <= match exec lastWord (slice 0 c value) with
                         | Some (_, n) => Z.of_nat n
                         | None => c
                         end <= c)%Z).
    { destruct (exec lastWord (slice 0 c value)) as [[i n]|] eqn:E; [|lia].
      apply searchFrom_bound in E. unfold len in Hleft. lia. }
    rewrite len_append, Hright, slice_len by lia. lia. }
  branch H.
  { (* meta-backspace *)
    injection H as <- <- <-. left.
    destruct (prev_jump value Hc) as (Hlen & Hjump & _). cbn zeta in *.
    rewrite len_append, Hright, slice_len by lia. lia. }
  branch H.
  { injection H as <- <- <-. left.
    destruct (word_jumps value Hc) as (_ & _ & _ & Hp & _). lia. }
  branch H.
  { injection H as <- <- <-. left.
    destruct (word_jumps value Hc) as (Hn & _). lia. }
  branch H.
  { injection H as <- <- <-. destruct showCursor; [|left; lia].
    destruct (Z.eq_dec c 0) as [->|]; [right; left; now repeat split | left; lia]. }
  branch H.
  { injection H as <- <- <-. destruct showCursor; [|left; lia].
    destruct (Z.eq_dec c (len value)) as [->|];
      [right; right; now repeat split | left; lia]. }
  branch H.
  { destruct (Z.ltb_spec 0 c); injection H as <- <- <-; left; [|lia].
    rewrite len_append, Hright, slice_len by lia. lia. }
  injection H as <- <- <-. left.
  rewrite !len_append, Hleft, Hright. pose proof (len_nonneg input). lia.
Qed.

(** Whatever key is pressed while the cursor is inside the value, the
    cursor is inside the next value afterwards, with two exceptions,
    which do occur: a plain left arrow at the start of the value takes it
    to -1, and a plain right arrow at the end takes it one past the end.
    The test that is to keep the cursor in bounds reads the cursor as it
    was before the key: it changes nothing then, and after one of the
    exceptions it sets the cursor of the next key to 0, or to the length
    the value had, whatever that key does to the value. *)
Theorem cursor_stays_in_range
        (value : string) (showCursor onSubmit : bool) (state : State)
        (input : string) (key : Key) :
  ((0 <= cursorOffset state <= len value)%Z ->
   forall next change,
     handleInput value showCursor onSubmit state input key
     = Update next change ->
     inRange value showCursor (cursorOffset state) key
             (match change with Some nextValue => nextValue | None => value end)
             (cursorOffset next))
  /\ (cursorOffset state = 0%Z ->
      handleInput value true onSubmit state "" leftKey
      = Update {| cursorOffset := (-1)%Z; cursorWidth := 0 |} None)
  /\ (cursorOffset state = len value ->
      handleInput value true onSubmit state "" rightKey
      = Update {| cursorOffset := (len value + 1)%Z; cursorWidth := 0 |} None)
  /\ (forall next change,
         handleInput value showCursor onSubmit state input key
         = Update next change ->
         ((cursorOffset state < 0)%Z -> cursorOffset next = 0%Z)
         /\ ((len value < cursorOffset state)%Z ->
             cursorOffset next = len value)).
Proof.
  pose proof (len_nonneg value) as Hv.
  split; [|split; [|split]].
  - intros Hc next change H. unfold handleInput in H.
    destruct (upArrow key || downArrow key
              || ctrl key && (input =? "c")%string
              || tab key || shift key && tab key); [discriminate|].
    destruct (edit value showCursor onSubmit (cursorOffset state) input key)
      as [[[nextValue nc] nw]|] eqn:E; [|discriminate].
    apply edit_range in E; [|exact Hc].
    destruct (Z.ltb_spec (cursorOffset state) 0); [lia|].
    destruct (Z.ltb_spec (len value) (cursorOffset state)); [lia|].
    injection H as <- <-. cbn [cursorOffset].
    destruct (String.eqb_spec nextValue value) as [->|]; exact E.
  - intros Hc. unfold handleInput, edit.
    cbn [leftKey upArrow downArrow leftArrow rightArrow return_ ctrl shift
                 tab backspace delete meta andb orb].
    rewrite Hc, String.eqb_refl.
    destruct (Z.ltb_spec (len value) 0); [lia | reflexivity].
  - intros Hc. unfold handleInput, edit.
    cbn [rightKey upArrow downArrow leftArrow rightArrow return_ ctrl shift
                  tab backspace delete meta andb orb].
    rewrite Hc, String.eqb_refl, Z.ltb_irrefl.
    destruct (Z.ltb_spec (len value) 0); [lia | reflexivity].
  - intros next change H. unfold handleInput in H.
    destruct (upArrow key || downArrow key
              || ctrl key && (input =? "c")%string
              || tab key || shift key && tab key); [discriminate|].
    destruct (edit value showCursor onSubmit (cursorOffset state) input key)
      as [[[nextValue nc] nw]|]; [|discriminate].
    injection H as <- _. cbn [cursorOffset].
    split; intros Hout.
    + destruct (Z.ltb_spec (cursorOffset state) 0); [|lia].
      destruct (Z.ltb_spec (len value) (cursorOffset state)); [lia | reflexivity].
    + now destruct (Z.ltb_spec (len value) (cursorOffset state)); [|lia].
Qed.

End TextInputFacts.

(** The jumps from the middle of the second word of a prompt. *)
Lemma word_jumps_witness :
  (6 <= TextInput.findNextWordJump "git status now" 6 <= 14)%Z
  /\ (0 <= TextInput.findPrevWordJump "git status now" 6 <= 6)%Z.
Proof.
  destruct (@TextInputFacts.word_jumps "git status now" 6%Z
              ltac:(unfold TextInput.len; cbn; lia))
    as (Hnext & _ & _ & Hprev & _).
  split; [|exact Hprev].
  unfold TextInput.len in Hnext. cbn in Hnext. lia.
Defined.

(** A character typed in the middle of a value, and erased. *)
Lemma typed_character_is_erased_witness :
  TextInput.handleInput "lsla" true true
    {| TextInput.cursorOffset := 2; TextInput.cursorWidth := 0 |}
    " " TextInput.plainKey
  = TextInput.Update
      {| TextInput.cursorOffset := 3; TextInput.cursorWidth := 0 |}
      (Some "ls la").
Proof.
  exact (proj1 (@TextInputFacts.typed_character_is_erased
                  "lsla" true true 2%Z 0%Z " "%char
                  ltac:(unfold TextInput.len; cbn; lia))).
Defined.


(** ** A completed response *)

Module CompletedFacts.
Import AgentLoop Run.

Section Completed.

Variable ExecInput : Type.
Variable Metadata : Type.
Variable parseToolCallArguments : string -> option ExecInput.
Variable handleExecCommand : ExecInput -> HandleExecCommandResult Metadata.
Variable stringifyOutput : string -> Metadata -> string.

Local Abbreviation completed :=
  (onResponseCompleted parseToolCallArguments handleExecCommand
                       stringifyOutput).
Local Abbreviation process :=
  (processEventsWithoutStreaming parseToolCallArguments handleExecCommand
                                 stringifyOutput).
Local Abbreviation loop :=
  (processOutput parseToolCallArguments handleExecCommand stringifyOutput).

Lemma stageItem_current (s : AgentLoop) (items : list Item) :
  forall st,
    fold_left (stageItem (generation s) s) items st
    = {| staged := staged st ++ map Some items;
         timers := timers st
                   ++ combine (seq (List.length (staged st))
                                   (List.length items)) items |}.
Proof.
  induction items as [|item items IH]; intros st; cbn [fold_left].
  - cbn. rewrite !app_nil_r. now destruct st.
  - rewrite IH. unfold stageItem. rewrite Z.eqb_refl. cbn.
    rewrite <- !app_assoc, length_app. cbn.
    now replace (List.length (staged st) + 1)%nat
      with (S (List.length (staged st))) by lia.
Qed.

(** What the loop hands to [emitItem]: the items of the output other
    than tool calls, all of them and in their order, among tool calls of
    the output. *)
Lemma processOutput_emitted (s : AgentLoop) (output : list Item) :
  forall acc,
    filter (fun i => negb (isFunctionCall i)) (emitted (loop s output acc))
    = filter (fun i => negb (isFunctionCall i)) (emitted acc)
      ++ filter (fun i => negb (isFunctionCall i)) output
    /\ (freshCalls (alreadyProcessedResponses acc) output = true ->
        emitted (loop s output acc) = emitted acc ++ output).
Proof.
  induction output as [|item output IH]; intros acc; cbn [processOutput].
  - cbn. rewrite !app_nil_r. now split.
  - destruct item as [ci o | call | role text | d];
      try (match goal with
           | |- context [loop s output ?a] => destruct (IH a) as [Hf He]
           end;
           cbn [emitted alreadyProcessedResponses] in *;
           rewrite Hf, filter_app; cbn; rewrite <- !app_assoc;
           split; [reflexivity|];
           intros H; rewrite (He H), <- app_assoc; reflexivity).
    cbn [freshCalls filter isFunctionCall negb].
    destruct (idSeen (item_id call) (alreadyProcessedResponses acc)) eqn:E.
    + destruct (IH acc) as [Hf _]. split; [exact Hf | discriminate].
    + match goal with
      | |- context [loop s output ?a] => destruct (IH a) as [Hf He]
      end.
      cbn [emitted alreadyProcessedResponses] in *.
      rewrite Hf, filter_app. cbn. rewrite app_nil_r.
      split; [reflexivity|].
      intros H. rewrite (He H), <- app_assoc. reflexivity.
Qed.

(** A completed response is staged twice.  In a run of the current
    generation that has not been cancelled, [response.completed] with
    the status [completed] stages every item of the output, and then
    stages again what [processEventsWithoutStreaming] hands to its
    [emitItem]: every item that is not a tool call, and every tool call
    too when the ids of the tool calls are new and differ from one
    another.  One timer is set for each staged slot. *)
Theorem completed_response_is_staged_twice
        (r : RunState) (output : list Item) (id : string) :
  canceled (this r) = false ->
  thisGeneration (locals r) = generation (this r) ->
  let r' := completed output "completed" id r in
  let again := emitted (process (this r) output (processedIds r)) in
  staged (staging r') = staged (staging r) ++ map Some output ++ map Some again
  /\ List.length (timers (staging r'))
     = (List.length (timers (staging r)) + List.length output
        + List.length again)%nat
  /\ filter (fun i => negb (isFunctionCall i)) again
     = filter (fun i => negb (isFunctionCall i)) output
  /\ (freshCalls (processedIds r) output = true -> again = output)
  /\ turnInput (locals r')
     = newTurnInput (process (this r) output (processedIds r))
  /\ effects (this r') = effects (this r) ++ [OnLastResponseId id].
Proof.
  intros Hc Hg r' again.
  subst r'. unfold onResponseCompleted. cbn [String.eqb Ascii.eqb Bool.eqb].
  rewrite Hg, Z.eqb_refl, Hc. cbn [negb andb staging locals turnInput this].
  fold again.
  rewrite !stageItem_current. cbn [staged timers emit effects].
  split; [now rewrite <- app_assoc|].
  split.
  { rewrite !length_app, !length_combine, !length_seq, !Nat.min_id. lia. }
  assert (Hem : again = emitted (loop (this r) output
                                      {| newTurnInput := []; emitted := [];
                                         alreadyProcessedResponses :=
                                           processedIds r |})).
  { subst again. unfold processEventsWithoutStreaming. now rewrite Hc. }
  destruct (processOutput_emitted (this r) output
              {| newTurnInput := []; emitted := [];
                 alreadyProcessedResponses := processedIds r |}) as [Hf He].
  cbn [emitted alreadyProcessedResponses app filter] in Hf, He.
  rewrite <- Hem in Hf, He.
  split; [exact Hf|]. split; [exact He|]. split; reflexivity.
Qed.

End Completed.

End CompletedFacts.

(** [liveInstance] reads a response that completes with one tool call. *)
Lemma completed_response_is_staged_twice_witness :
  Run.staged
    (Run.staging
       (Run.onResponseCompleted
          AgentLoop.parseAny AgentLoop.execDenied AgentLoop.stringifyPlain
          [AgentLoop.FunctionCall AgentLoop.shellCall] "completed" "resp_1"
          Run.readingState))
  = [Some (AgentLoop.FunctionCall AgentLoop.shellCall);
     Some (AgentLoop.FunctionCall AgentLoop.shellCall)].
Proof.
  destruct (@CompletedFacts.completed_response_is_staged_twice
              unit unit AgentLoop.parseAny AgentLoop.execDenied
              AgentLoop.stringifyPlain Run.readingState
              [AgentLoop.FunctionCall AgentLoop.shellCall] "resp_1"
              eq_refl eq_refl)
    as (H & _).
  exact H.
Defined.


(** ** Transient faults *)

Module TransientFacts.
Import AgentLoop Run.

Lemma requestLoop_transient base create turnInput
      (failed : list nat) :
  forall rest outcome effs,
    (forall a, In a failed ->
               (a < MAX_RETRIES)%nat
               /\ exists error, create a = RequestFailed error
                                /\ isTransient error = true) ->
    requestLoop base create turnInput rest = (effs, outcome) ->
    requestLoop base create turnInput (failed ++ rest)
    = (map (fun a => Create a turnInput) failed ++ effs, outcome).
Proof.
  induction failed as [|a failed IH]; intros rest outcome effs Hall Hrest;
    [exact Hrest|].
  cbn [app requestLoop map].
  destruct (Hall a (or_introl eq_refl)) as (Hlt & error & -> & Ht).
  unfold onCreateError. unfold isTransient in Ht. rewrite Ht.
  destruct (Nat.ltb_spec a MAX_RETRIES) as [_|]; [|lia]. cbn [andb].
  rewrite (IH rest outcome effs); [reflexivity | | exact Hrest].
  intros b Hb. apply Hall. now right.
Qed.

(** Transient faults are retried at once and leave no trace: when the
    attempts before the [k]-th, [k] being 5 at most, fail with a timeout,
    a connection error or a status of 500 or more, and the [k]-th opens
    a stream, the engine has made exactly [k] requests with the same
    input, has not waited, has shown nothing, and goes on with that
    stream. *)
Theorem transient_faults_are_retried
        (base : Number) (create : nat -> Request) (turnInput : list Item)
        (k : nat) (stream : Stream) :
  (1 <= k <= 5)%nat ->
  (forall a, (1 <= a < k)%nat ->
             exists error, create a = RequestFailed error
                           /\ isTransient error = true) ->
  create k = RequestOpened stream ->
  request base create turnInput
  = (map (fun a => Create a turnInput) (seq 1 k), inl (Some stream)).
Proof.
  intros Hk Hfail Hopen. unfold request.
  assert (Hseq : seq 1 MAX_RETRIES = seq 1 (k - 1) ++ k :: seq (S k) (5 - k)).
  { unfold MAX_RETRIES.
    replace 5%nat with ((k - 1) + S (5 - k))%nat at 1 by lia.
    rewrite seq_app. cbn [seq].
    now replace (1 + (k - 1))%nat with k by lia. }
  rewrite Hseq.
  rewrite (@requestLoop_transient base create turnInput (seq 1 (k - 1))
             (k :: seq (S k) (5 - k)) (GotStream stream)
             [Create k turnInput]).
  - replace (seq 1 k) with (seq 1 (k - 1) ++ [k]); [now rewrite map_app|].
    replace k with ((k - 1) + 1)%nat at 3 by lia.
    rewrite seq_app. cbn [seq].
    now replace (1 + (k - 1))%nat with k by lia.
  - intros a Ha. apply in_seq in Ha. split; [unfold MAX_RETRIES; lia|].
    apply Hfail. lia.
  - cbn [requestLoop]. now rewrite Hopen.
Qed.

End TransientFacts.

(** The service recovers at the third request. *)
Lemma transient_faults_are_retried_witness :
  Run.request (JsNumber.ofInteger 2500) Run.recovering []
  = ([AgentLoop.Create 1 []; AgentLoop.Create 2 []; AgentLoop.Create 3 []],
     inl (Some 7%nat)).
Proof.
  apply (@TransientFacts.transient_faults_are_retried
           (JsNumber.ofInteger 2500) Run.recovering [] 3 7%nat).
  - lia.
  - intros a Ha. exists Run.error503.
    destruct a as [|[|[|a]]]; try lia; split; reflexivity.
  - reflexivity.
Defined.


(** ** The keys of the text input that delete *)

Module KeyFacts.
Import Regex TextInput MatchFacts TextInputFacts.

(** The keys that delete compose.  With the cursor inside the value,
    Ctrl-K keeps what is before the cursor and Ctrl-U what is after it,
    so that the two results put together are the value; and, the cursor
    being before the end, Ctrl-D gives the value and the cursor that
    Ctrl-F followed by Backspace gives. *)
Theorem deleting_keys_compose
        (value : string) (onSubmit : bool) (c w : Z) :
  (0 <= c <= len value)%Z ->
  let state := {| cursorOffset := c; cursorWidth := w |} in
  let killed := handleInput value true onSubmit state "k" ctrlKey in
  let cleared := handleInput value true onSubmit state "u" ctrlKey in
  (exists change, killed = Update {| cursorOffset := c; cursorWidth := 0 |}
                                  change)
  /\ (exists change, cleared
                     = Update {| cursorOffset := 0; cursorWidth := 0 |} change)
  /\ (valueAfter value killed ++ valueAfter value cleared)%string = value
  /\ len (valueAfter value killed) = c
  /\ ((c < len value)%Z ->
      exists change,
        handleInput value true onSubmit state "d" ctrlKey
        = Update {| cursorOffset := c; cursorWidth := 0 |} (Some change)
        /\ len change = (len value - 1)%Z
        /\ handleInput value true onSubmit state "f" ctrlKey
           = Update {| cursorOffset := (c + 1)%Z; cursorWidth := 0 |} None
        /\ handleInput value true onSubmit
                       {| cursorOffset := (c + 1)%Z; cursorWidth := 0 |}
                       "" backspaceKey
           = Update {| cursorOffset := c; cursorWidth := 0 |} (Some change)).
Proof.
  intros Hc state killed cleared.
  pose proof (len_nonneg value) as Hv.
  destruct (split_at value Hc) as (x & y & Ev & Hx).
  assert (Ex : slice 0 c value = x) by (rewrite Ev, <- Hx; apply slice_prefix).
  assert (Ey : slice c (len value) value = y)
    by (rewrite Ev, <- Hx; apply slice_suffix).
  assert (Hk : killed = Update {| cursorOffset := c; cursorWidth := 0 |}
                               (if (x =? value)%string then None else Some x)).
  { subst killed state. unfold handleInput, edit.
    cbn [ctrlKey upArrow downArrow leftArrow rightArrow return_ ctrl shift
                 tab backspace delete meta andb orb cursorOffset
                 String.eqb Ascii.eqb Bool.eqb].
    destruct (Z.ltb_spec c 0); [lia|].
    destruct (Z.ltb_spec (len value) c); [lia|]. now rewrite Ex. }
  assert (Hu : cleared = Update {| cursorOffset := 0; cursorWidth := 0 |}
                                (if (y =? value)%string then None else Some y)).
  { subst cleared state. unfold handleInput, edit.
    cbn [ctrlKey upArrow downArrow leftArrow rightArrow return_ ctrl shift
                 tab backspace delete meta andb orb cursorOffset
                 String.eqb Ascii.eqb Bool.eqb].
    destruct (Z.ltb_spec c 0); [lia|].
    destruct (Z.ltb_spec (len value) c); [lia|]. now rewrite Ey. }
  split; [rewrite Hk; eexists; reflexivity|].
  split; [rewrite Hu; eexists; reflexivity|].
  assert (Vk : valueAfter value killed = x).
  { rewrite Hk. cbn [valueAfter].
    now destruct (String.eqb_spec x value) as [->|]. }
  assert (Vu : valueAfter value cleared = y).
  { rewrite Hu. cbn [valueAfter].
    now destruct (String.eqb_spec y value) as [->|]. }
  split; [now rewrite Vk, Vu|]. split; [now rewrite Vk|].
  intros Hlt.
  exists (slice 0 c value ++ slice (c + 1) (len value) value)%string.
  assert (Hlen : len (slice 0 c value ++ slice (c + 1) (len value) value)
                 = (len value - 1)%Z).
  { rewrite len_append, !slice_len by lia. lia. }
  split; [|split; [exact Hlen|split]].
  - subst state. unfold handleInput, edit.
    cbn [ctrlKey upArrow downArrow leftArrow rightArrow return_ ctrl shift
                 tab backspace delete meta andb orb cursorOffset
                 String.eqb Ascii.eqb Bool.eqb].
    destruct (Z.ltb_spec c 0); [lia|].
    destruct (Z.ltb_spec (len value) c); [lia|].
    destruct (Z.ltb_spec c (len value)); [|lia].
    now rewrite differs_by_length by lia.
  - subst state. unfold handleInput, edit.
    cbn [ctrlKey upArrow downArrow leftArrow rightArrow return_ ctrl shift
                 tab backspace delete meta andb orb cursorOffset
                 String.eqb Ascii.eqb Bool.eqb].
    destruct (Z.ltb_spec c 0); [lia|].
    destruct (Z.ltb_spec (len value) c); [lia|].
    rewrite String.eqb_refl. now rewrite Z.min_l by lia.
  - unfold handleInput, edit.
    cbn [backspaceKey upArrow downArrow leftArrow rightArrow return_ ctrl
                      shift tab backspace delete meta andb orb cursorOffset].
    destruct (Z.ltb_spec 0 (c + 1)); [|lia].
    destruct (Z.ltb_spec (c + 1) 0); [lia|].
    destruct (Z.ltb_spec (len value) (c + 1)); [lia|].
    replace (c + 1 - 1)%Z with c by lia.
    now rewrite differs_by_length by lia.
Qed.


(** *** Ctrl-W *)

Local Abbreviation nonSpace := (fun c : ascii => negb (isSpace c)).

Lemma spaces_then (K : Cont) (s : string) :
  (forall prev c s', isSpace c = true -> K prev (String c s') = None) ->
  forall prev,
  exists prev', repeatClass isSpace 0 prev s K = K prev' (snd (span isSpace s)).
Proof.
  intros HK. induction s as [|c s IH]; intros prev.
  - now exists prev.
  - cbn [repeatClass span Nat.eqb pred].
    destruct (isSpace c) eqn:Ec.
    + destruct (IH (Some c)) as [prev' ->].
      destruct (span isSpace s) as [a r]. cbn [snd].
      exists prev'. rewrite (HK prev c s Ec). now destruct (K prev' r).
    + now exists prev.
Qed.

Lemma lastWord_at (s : string) (prev : option ascii) :
  matchAt lastWord prev s
  = if isWord (snd (span isSpace s)) then Some (String.length s) else None.
Proof.
  unfold matchAt, lastWord. cbn [matchRe].
  destruct (@spaces_then
              (fun prev' s' =>
                 repeatClass nonSpace 1 prev' s'
                   (fun prev'' s'' =>
                      matchRe EndOfInput prev'' s'' (fun _ r => Some r)))
              s) with (prev := prev) as [prev' E].
  { intros p c s' Ec. cbn [repeatClass]. now rewrite Ec. }
  cbn [matchRe] in E. rewrite E.
  pose proof (repeatClass_end nonSpace (snd (span isSpace s)) 1 prev') as R.
  cbn [matchRe] in R. rewrite R. unfold isWord.
  destruct (forallb _ _ && _); [|reflexivity].
  cbn [String.length]. now rewrite Nat.sub_0_r.
Qed.

Lemma trailing_run_after (p : ascii -> bool) (a b : string) :
  trailing p a = 0%nat ->
  forallb p (list_ascii_of_string b) = true ->
  trailing p (a ++ b) = String.length b.
Proof.
  intros Ha Hb. induction a as [|c a IH].
  - now apply trailing_all.
  - cbn [append trailing] in *.
    destruct (forallb p (list_ascii_of_string (String c a))) eqn:E;
      [cbn [String.length] in Ha; discriminate|].
    change (list_ascii_of_string (String c a))
      with (c :: list_ascii_of_string a) in E.
    change (list_ascii_of_string (String c (a ++ b)))
      with (c :: list_ascii_of_string (a ++ b)).
    rewrite chars_append.
    change (c :: list_ascii_of_string a ++ list_ascii_of_string b)
      with ((c :: list_ascii_of_string a) ++ list_ascii_of_string b).
    rewrite forallb_app, E. cbn [andb]. now apply IH.
Qed.

Lemma trailing_none (p : ascii -> bool) (a b : string) :
  b <> EmptyString ->
  forallb (fun c => negb (p c)) (list_ascii_of_string b) = true ->
  trailing p (a ++ b) = 0%nat.
Proof.
  intros Hne Hb.
  assert (Hlast : forall x, forallb p (list_ascii_of_string (x ++ b)) = false).
  { intros x. rewrite chars_append, forallb_app.
    destruct b as [|c b]; [contradiction|].
    cbn in Hb |- *. apply andb_true_iff in Hb as [Hc _].
    apply negb_true_iff in Hc. rewrite Hc. cbn. apply andb_false_r. }
  assert (Hb0 : forall y, forallb (fun c => negb (p c)) (list_ascii_of_string y)
                          = true -> trailing p y = 0%nat).
  { induction y as [|c y IHy]; intros Hy; [reflexivity|].
    cbn in Hy. apply andb_true_iff in Hy as [Hc Hy].
    apply negb_true_iff in Hc. cbn [trailing].
    change (list_ascii_of_string (String c y))
      with (c :: list_ascii_of_string y).
    cbn [forallb]. rewrite Hc. cbn [andb]. now apply IHy. }
  induction a as [|c a IH]; [now apply Hb0|].
  cbn [append trailing].
  change (String c (a ++ b)) with (String c a ++ b)%string at 1.
  now rewrite Hlast.
Qed.

Lemma trailing_outside (p : ascii -> bool) (y : string) :
  forallb (fun c => negb (p c)) (list_ascii_of_string y) = true ->
  trailing p y = 0%nat.
Proof.
  induction y as [|c y IHy]; intros Hy; [reflexivity|].
  cbn in Hy. apply andb_true_iff in Hy as [Hc Hy].
  apply negb_true_iff in Hc. cbn [trailing].
  change (list_ascii_of_string (String c y))
    with (c :: list_ascii_of_string y).
  cbn [forallb]. rewrite Hc. cbn [andb]. now apply IHy.
Qed.

Lemma spaces_outside (a : string) :
  forallb isSpace (list_ascii_of_string a) = true ->
  forallb (fun c => negb (nonSpace c)) (list_ascii_of_string a) = true.
Proof.
  induction (list_ascii_of_string a) as [|c l IH]; [reflexivity|].
  cbn. intros H. apply andb_true_iff in H as [Hc Hl].
  now rewrite Hc, (IH Hl).
Qed.

Lemma span_run (a w : string) :
  forallb isSpace (list_ascii_of_string a) = true ->
  isWord w = true ->
  span isSpace (a ++ w) = (a, w).
Proof.
  intros Ha Hw. induction a as [|c a IH].
  - destruct w as [|x w]; [discriminate|].
    unfold isWord in Hw. cbn in Hw. cbn [append span].
    destruct (isSpace x); [discriminate | reflexivity].
  - cbn in Ha. apply andb_true_iff in Ha as [Hc Ha].
    cbn [append span]. now rewrite Hc, (IH Ha).
Qed.

(** The leftmost match of [/\s*\S+$/]: the characters other than white
    space that the string ends with, when there are some, and the white
    space before them. *)
Lemma search_lastWord (s : string) :
  forall prev index,
    searchFrom lastWord prev s index
    = let n := trailing nonSpace s in
      if (n =? 0)%nat then None
      else
        let m := trailing isSpace (substring 0 (String.length s - n) s) in
        Some ((index + (String.length s - n - m))%nat, (n + m)%nat).
Proof.
  induction s as [|c s IH]; intros prev index.
  - reflexivity.
  - cbn zeta. cbn [searchFrom]. rewrite lastWord_at.
    destruct (isWord (snd (span isSpace (String c s)))) eqn:Ew.
    + destruct (span_split isSpace (String c s)) as [Es Ha].
      destruct (span isSpace (String c s)) as [a r]. cbn [fst snd] in *.
      unfold isWord in Ew. apply andb_true_iff in Ew as [Hr Hn].
      apply Nat.leb_le in Hn.
      assert (Ht : trailing nonSpace (String c s) = String.length r).
      { rewrite Es. apply trailing_run_after; [|exact Hr].
        apply trailing_outside. now apply spaces_outside. }
      rewrite Ht. destruct (Nat.eqb_spec (String.length r) 0); [lia|].
      assert (El : String.length (String c s)
                   = (String.length a + String.length r)%nat)
        by (now rewrite Es at 1; rewrite length_append).
      rewrite El.
      replace (String.length a + String.length r - String.length r)%nat
        with (String.length a) by lia.
      assert (Esub : substring 0 (String.length a) (String c s) = a)
        by (rewrite Es; apply substring_prefix).
      rewrite Esub, (trailing_all isSpace a Ha).
      do 2 f_equal; lia.
    + rewrite IH. cbn zeta.
      assert (Hall : forallb nonSpace (list_ascii_of_string (String c s))
                     = false).
      { destruct (forallb nonSpace (list_ascii_of_string (String c s))) eqn:E;
          [|reflexivity].
        assert (Hs : span isSpace (String c s) = ("", String c s)).
        { cbn in E. apply andb_true_iff in E as [Hc _].
          apply negb_true_iff in Hc. cbn [span]. now rewrite Hc. }
        rewrite Hs in Ew. cbn [snd] in Ew. unfold isWord in Ew.
        rewrite E in Ew. discriminate. }
      assert (Ht : trailing nonSpace (String c s) = trailing nonSpace s).
      { cbn [trailing]. now rewrite Hall. }
      rewrite Ht.
      destruct (Nat.eqb_spec (trailing nonSpace s) 0) as [|Hn]; [reflexivity|].
      destruct (trailing_split nonSpace s) as (t & w & Es & Hw & Hwp & _).
      pose proof (trailing_le nonSpace s) as Hle.
      assert (Et : substring 0 (String.length s - trailing nonSpace s) s = t).
      { assert (El : (String.length s - trailing nonSpace s)%nat
                     = String.length t).
        { rewrite <- Hw. rewrite Es at 1. rewrite length_append. lia. }
        rewrite El, Es. apply substring_prefix. }
      cbn [String.length].
      replace (S (String.length s) - trailing nonSpace s)%nat
        with (S (String.length s - trailing nonSpace s)) by lia.
      cbn [substring]. rewrite Et.
      assert (Hsp : forallb isSpace (list_ascii_of_string (String c t))
                    = false).
      { destruct (forallb isSpace (list_ascii_of_string (String c t))) eqn:E;
          [|reflexivity].
        assert (Hword : isWord w = true).
        { unfold isWord. rewrite Hwp. cbn [andb]. apply Nat.leb_le. lia. }
        pose proof (@span_run (String c t) w E Hword) as Hs.
        cbn [append] in Hs. rewrite <- Es in Hs.
        rewrite Hs in Ew. cbn [snd] in Ew. congruence. }
      cbn [trailing]. rewrite Hsp.
      pose proof (trailing_le isSpace t) as Hm.
      assert (String.length s = (String.length t + String.length w)%nat)
        by (now rewrite Es at 1; rewrite length_append).
      do 2 f_equal. lia.
Qed.

(** Ctrl-W deletes the last word before the cursor together with the
    white space before that word, and puts the cursor where the deleted
    text began.  When white space is before the cursor, there is no last
    word to find, and Ctrl-W deletes everything before the cursor. *)
Theorem ctrl_w_deletes_the_last_word
        (left right : string) (showCursor onSubmit : bool) (w : Z) :
  let press :=
    handleInput (left ++ right) showCursor onSubmit
                {| cursorOffset := len left; cursorWidth := w |} "w" ctrlKey in
  (forall pre gap word,
      left = (pre ++ gap ++ word)%string ->
      trailing isSpace pre = 0%nat ->
      forallb isSpace (list_ascii_of_string gap) = true ->
      (gap = "" -> pre = "") ->
      forallb (fun c => negb (isSpace c)) (list_ascii_of_string word) = true ->
      word <> "" ->
      press = Update {| cursorOffset := len pre; cursorWidth := 0 |}
                     (Some (pre ++ right)%string))
  /\ (trailing isSpace left <> 0%nat ->
      press = Update {| cursorOffset := 0; cursorWidth := 0 |} (Some right)).
Proof.
  intros press.
  pose proof (len_nonneg left) as Hl. pose proof (len_nonneg right) as Hr.
  assert (Hp : press
               = let cut := match exec lastWord left with
                            | Some (_, n) => Z.of_nat n
                            | None => len left
                            end in
                 let nextValue :=
                   (slice 0 (len left - cut) (left ++ right) ++ right)%string in
                 Update {| cursorOffset := (len left - cut)%Z;
                           cursorWidth := 0 |}
                        (if (nextValue =? left ++ right)%string then None
                         else Some nextValue)).
  { subst press. unfold handleInput, edit.
    cbn [ctrlKey upArrow downArrow leftArrow rightArrow return_ ctrl shift
                 tab backspace delete meta andb orb cursorOffset
                 String.eqb Ascii.eqb Bool.eqb].
    rewrite slice_prefix, slice_suffix.
    destruct (Z.ltb_spec (len left) 0); [lia|].
    destruct (Z.ltb_spec (len (left ++ right)) (len left));
      [rewrite len_append in *; lia|].
    reflexivity. }
  rewrite Hp. clear Hp press. unfold exec. rewrite search_lastWord. cbn zeta.
  split.
  - intros pre gap word El Hpre Hgap Hjoin Hword Hne.
    assert (Hlw : String.length word <> 0%nat)
      by (destruct word; [contradiction | cbn; lia]).
    assert (Hpg : trailing nonSpace (pre ++ gap) = 0%nat).
    { destruct gap as [|g gap].
      - now rewrite (Hjoin eq_refl).
      - apply trailing_none; [discriminate | now apply spaces_outside]. }
    assert (Ht : trailing nonSpace left = String.length word).
    { rewrite El, <- append_assoc. now apply trailing_run_after. }
    assert (Elen : String.length left
                   = (String.length pre + String.length gap
                      + String.length word)%nat)
      by (rewrite El, !length_append; lia).
    assert (Esub : substring 0 (String.length left - String.length word) left
                   = (pre ++ gap)%string).
    { replace (String.length left - String.length word)%nat
        with (String.length (pre ++ gap)) by (rewrite length_append; lia).
      rewrite El, <- append_assoc. apply substring_prefix. }
    rewrite Ht, Esub, (trailing_run_after isSpace pre gap Hpre Hgap).
    destruct (Nat.eqb_spec (String.length word) 0); [contradiction|].
    assert (Ecut : (len left - Z.of_nat (String.length word
                                         + String.length gap))%Z = len pre)
      by (unfold len; lia).
    rewrite Ecut.
    assert (Esl : slice 0 (len pre) (left ++ right) = pre).
    { rewrite El, !append_assoc. apply slice_prefix. }
    rewrite Esl, differs_by_length; [reflexivity|].
    rewrite !len_append. unfold len. lia.
  - intros Hsp.
    destruct (trailing_split isSpace left) as (a & b & El & Hb & Hbp & _).
    assert (Ht : trailing nonSpace left = 0%nat).
    { rewrite El. apply trailing_none; [|now apply spaces_outside].
      intros ->. cbn in Hb. congruence. }
    rewrite Ht. cbn [Nat.eqb]. rewrite Z.sub_diag.
    assert (E0 : slice 0 0 (left ++ right) = "")
      by exact (slice_prefix "" (left ++ right)).
    rewrite E0. cbn [append].
    rewrite differs_by_length; [reflexivity|].
    rewrite len_append.
    pose proof (trailing_le isSpace left). unfold len. lia.
Qed.

End KeyFacts.

(** Ctrl-K and Ctrl-U in the middle of a value. *)
Lemma deleting_keys_compose_witness :
  (TextInput.valueAfter "ls -la"
     (TextInput.handleInput "ls -la" true true
        {| TextInput.cursorOffset := 2; TextInput.cursorWidth := 0 |}
        "k" TextInput.ctrlKey)
   ++ TextInput.valueAfter "ls -la"
        (TextInput.handleInput "ls -la" true true
           {| TextInput.cursorOffset := 2; TextInput.cursorWidth := 0 |}
           "u" TextInput.ctrlKey))%string
  = "ls -la".
Proof.
  destruct (@KeyFacts.deleting_keys_compose
              "ls -la" true 2%Z 0%Z ltac:(unfold TextInput.len; cbn; lia))
    as (_ & _ & H & _).
  exact H.
Defined.

(** Ctrl-W after the second word of a value. *)
Lemma ctrl_w_deletes_the_last_word_witness :
  TextInput.handleInput "git  commit now" true true
    {| TextInput.cursorOffset := 11; TextInput.cursorWidth := 0 |}
    "w" TextInput.ctrlKey
  = TextInput.Update
      {| TextInput.cursorOffset := 3; TextInput.cursorWidth := 0 |}
      (Some "git now").
Proof.
  exact (proj1 (@KeyFacts.ctrl_w_deletes_the_last_word
                  "git  commit" " now" true true 0%Z)
               "git" "  " "commit" eq_refl eq_refl eq_refl
               ltac:(discriminate) eq_refl ltac:(discriminate)).
Defined.
